(** * postcss-color-mod-function: a shallow embedding of the color model and
      of the color-mod() interpreter

    The development follows [src/index.cjs.js] (the bundle: conversions,
    the [Color] class, blending, contrast, stringifiers, [manageUnresolved])
    and [src/lib/transform.js] (the token-tree interpreter).

    Conventions of the embedding.
    - A JavaScript number is an exact rational, or [NaN]; [Undef] stands for
      [undefined] in a slot that otherwise holds a number.  Infinities and
      binary rounding are not represented: a decimal literal denotes itself.
      The statements about arithmetic are therefore kept to what does not
      depend on rounding: a result is compared with the expression that the
      code evaluates, or the property is one that binary floating point
      keeps (clamping, the remainder, the weights 0 and 1 of a blend).
    - A JavaScript object used as a lookup table ([names], the custom
      property table) is represented by its own keys; a key that the object
      inherits from [Object.prototype] makes the lookup leave the model, which
      is recorded as a [TypeError] where the source would raise one.
    - External collaborators (the value parser, [@csstools/convert-colors],
      [Math.pow], number printing) are the fields of a [Runtime] record; every
      definition is parameterised by it, and [js] is a reference runtime used
      to run closed examples.
    - Effects of the interpreter (warnings pushed on the PostCSS result,
      exceptions) are explicit in the monad [M]. *)

From stdpp Require Import base strings gmap list pretty.
From Stdlib Require Import Ascii String QArith Qround Qminmax Qabs Lqa Lia.

Open Scope Q_scope.

(** ** JavaScript numbers *)

Module JS.

Inductive num : Type :=
| Undef
| NaN
| Fin (q : Q).

Definition lift1 (f : Q -> Q) (a : num) : num :=
  match a with Fin x => Fin (f x) | _ => NaN end.

Definition lift2 (f : Q -> Q -> Q) (a b : num) : num :=
  match a, b with Fin x, Fin y => Fin (f x y) | _, _ => NaN end.

Definition cmp2 (f : Q -> Q -> bool) (a b : num) : bool :=
  match a, b with Fin x, Fin y => f x y | _, _ => false end.

Definition Qltb (x y : Q) : bool := negb (Qle_bool y x).

(** [a + b], [a - b], [a * b] on numbers. *)
Definition add : num -> num -> num := lift2 Qplus.
Definition sub : num -> num -> num := lift2 Qminus.
Definition mul : num -> num -> num := lift2 Qmult.

(** [a / b]; a zero divisor (an infinity in JavaScript) is outside the model. *)
Definition div (a b : num) : num :=
  match a, b with
  | Fin x, Fin y => if Qeq_bool y 0 then NaN else Fin (x / y)
  | _, _ => NaN
  end.

(** Truncation toward zero of a rational. *)
Definition Qtrunc (x : Q) : Z := Z.quot (Qnum x) (Z.pos (Qden x)).

(** The remainder of JavaScript's [%]: the sign follows the dividend. *)
Definition Qrem (x y : Q) : Q := x - y * inject_Z (Qtrunc (x / y)).

Definition rem (a b : num) : num :=
  match a, b with
  | Fin x, Fin y => if Qeq_bool y 0 then NaN else Fin (Qrem x y)
  | _, _ => NaN
  end.

(** [a < b], [a > b], [a <= b]: false as soon as one side is not a number. *)
Definition lt : num -> num -> bool := cmp2 Qltb.
Definition gt (a b : num) : bool := lt b a.
Definition le : num -> num -> bool := cmp2 Qle_bool.

(** [a === b] between number slots. *)
Definition strict_eq (a b : num) : bool :=
  match a, b with
  | Fin x, Fin y => Qeq_bool x y
  | Undef, Undef => true
  | _, _ => false
  end.

(** Truthiness of a number slot, and [a || b]. *)
Definition truthy (a : num) : bool :=
  match a with Fin x => negb (Qeq_bool x 0) | _ => false end.

Definition or_else (a b : num) : num := if truthy a then a else b.

Definition Math_max : num -> num -> num := lift2 Qmax.
Definition Math_min : num -> num -> num := lift2 Qmin.
Definition Math_abs : num -> num := lift1 Qabs.

(** [Math.round]: the nearest integer, halves rounded up. *)
Definition Qround (x : Q) : Q := inject_Z (Qfloor (x + 0.5)).
Definition Math_round : num -> num := lift1 Qround.

(** Equality of number slots up to the equality of rationals. *)
Definition num_eq (a b : num) : Prop :=
  match a, b with
  | Fin x, Fin y => x == y
  | NaN, NaN => True
  | Undef, Undef => True
  | _, _ => False
  end.


(** [lo <= a <= hi] for a number slot. *)
Definition between (lo hi : Q) (a : num) : Prop :=
  match a with Fin x => lo <= x /\ x <= hi | _ => False end.

End JS.

Abbreviation num := JS.num.
Abbreviation Undef := JS.Undef.
Abbreviation NaN := JS.NaN.
Abbreviation Fin := JS.Fin.

(** ** Token trees of the value parser *)

Inductive NodeType : Type :=
| t_word | t_string | t_div | t_space | t_comment | t_function | t_unicode_range.

(** A node has a [type], a [value] and, for a function, its child [nodes]. *)
#[warnings="-register-all"]
Inductive Node : Type :=
| MkNode (type : NodeType) (value : string) (nodes : option (list Node)).

Definition type (n : Node) : NodeType := let 'MkNode t _ _ := n in t.
Definition value (n : Node) : string := let 'MkNode _ v _ := n in v.
Definition nodes (n : Node) : option (list Node) := let 'MkNode _ _ ns := n in ns.

Definition NodeType_eqb (a b : NodeType) : bool :=
  match a, b with
  | t_word, t_word | t_string, t_string | t_div, t_div | t_space, t_space
  | t_comment, t_comment | t_function, t_function
  | t_unicode_range, t_unicode_range => true
  | _, _ => false
  end.

(** ** External collaborators *)

Record Runtime : Type := {
  (** postcss-value-parser: [parser.unit(value)] is [false] or [{number, unit}] *)
  parser_unit : string -> option (string * string);
  (** postcss-value-parser: [parser.stringify(nodes)] *)
  parser_stringify : list Node -> string;
  (** [Number(s)] and [parseFloat(s)] on a string *)
  Number : string -> num;
  parseFloat : string -> num;
  (** [Math.pow] and [Math.PI] *)
  Math_pow : num -> num -> num;
  Math_PI : num;
  (** the conversion of a number inside a template literal *)
  show : num -> string;
  (** @csstools/convert-colors *)
  rgb2hue : num -> num -> num -> num -> num;
  hsl2rgb : num -> num -> num -> num * num * num;
  hwb2rgb : num -> num -> num -> num * num * num;
  rgb2hsl : num -> num -> num -> num -> num * num * num;
  hwb2hsl : num -> num -> num -> num * num * num;
  rgb2hwb : num -> num -> num -> num -> num * num * num;
  hsl2hwb : num -> num -> num -> num * num * num
}.

(** ** The color object *)

(** The object held by a [Color] instance: a colorspace tag (the empty string
    when the property is absent) and the channels; a channel the object does
    not carry is [Undef]. *)
Record Color : Type := {
  colorspace : string;
  red : num; green : num; blue : num;
  hue : num;
  saturation : num; lightness : num;
  whiteness : num; blackness : num;
  alpha : num
}.

Inductive channel : Type :=
| ch_red | ch_green | ch_blue | ch_hue | ch_saturation | ch_lightness
| ch_whiteness | ch_blackness | ch_alpha.

Definition get_channel (c : Color) (ch : channel) : num :=
  match ch with
  | ch_red => red c | ch_green => green c | ch_blue => blue c
  | ch_hue => hue c
  | ch_saturation => saturation c | ch_lightness => lightness c
  | ch_whiteness => whiteness c | ch_blackness => blackness c
  | ch_alpha => alpha c
  end.

Definition set_colorspace (c : Color) (s : string) : Color :=
  {| colorspace := s; red := red c; green := green c; blue := blue c;
     hue := hue c; saturation := saturation c; lightness := lightness c;
     whiteness := whiteness c; blackness := blackness c; alpha := alpha c |}.

Definition channel_eqb (a b : channel) : bool :=
  match a, b with
  | ch_red, ch_red | ch_green, ch_green | ch_blue, ch_blue | ch_hue, ch_hue
  | ch_saturation, ch_saturation | ch_lightness, ch_lightness
  | ch_whiteness, ch_whiteness | ch_blackness, ch_blackness
  | ch_alpha, ch_alpha => true
  | _, _ => false
  end.

(** [color[channel] = v] *)
Definition set_channel (c : Color) (ch : channel) (v : num) : Color :=
  let upd k := if channel_eqb ch k then v else get_channel c k in
  {| colorspace := colorspace c;
     red := upd ch_red; green := upd ch_green; blue := upd ch_blue;
     hue := upd ch_hue;
     saturation := upd ch_saturation; lightness := upd ch_lightness;
     whiteness := upd ch_whiteness; blackness := upd ch_blackness;
     alpha := upd ch_alpha |}.

(** ['k' in color] *)
Definition has (c : Color) (ch : channel) : bool :=
  match get_channel c ch with Undef => false | _ => true end.

Section ColorModel.

Variable rt : Runtime.

(** [new Color(color)].  The argument is always a plain object, so the
    instance holds that very object: the colorspace is kept, or inferred from
    the channels present, and an rgb color gets its hue refreshed. *)
Definition new_Color (color : Color) : Color :=
  let cs :=
    if negb (String.eqb (colorspace color) "") then colorspace color
    else if has color ch_red && has color ch_green && has color ch_blue then "rgb"
    else if has color ch_hue && has color ch_saturation && has color ch_lightness then "hsl"
    else if has color ch_hue && has color ch_whiteness && has color ch_blackness then "hwb"
    else "unknown" in
  let color := set_colorspace color cs in
  if String.eqb (colorspace color) "rgb"
  then set_channel color ch_hue
         (rt.(rgb2hue) (red color) (green color) (blue color)
            (JS.or_else (hue color) (Fin 0)))
  else color.

(** *** Assign channels to a new instance of a base color *)

Definition normalize (value : num) (ch : channel) : num :=
  let channelIsHue := channel_eqb ch ch_hue in
  let min := Fin 0 in
  let max := if channelIsHue then Fin 360 else Fin 100 in
  JS.Math_min
    (JS.Math_max (if channelIsHue then JS.rem value (Fin 360) else value) min)
    max.

(** [blueGreenRedMatch.test(channel)] *)
Definition blueGreenRedMatch (ch : channel) : bool :=
  match ch with ch_blue | ch_green | ch_red => true | _ => false end.

(** The body of the [forEach] of [assign]: [color] is the copy being filled. *)
Definition assign_channel (base color : Color) (ch : channel) (v : num) : Color :=
  let channelIsHue := channel_eqb ch ch_hue in
  let isRGB := negb channelIsHue && blueGreenRedMatch ch in
  let value := normalize v ch in
  let color := set_channel color ch value in
  if isRGB
  then set_channel color ch_hue
         (rt.(rgb2hue) (red color) (green color) (blue color)
            (JS.or_else (hue base) (Fin 0)))
  else color.

(** [assign(base, channels)]: [channels] lists the keys of the object in
    their order. *)
Definition assign (base : Color) (channels : list (channel * num)) : Color :=
  fold_left (fun color '(ch, v) => assign_channel base color ch v) channels base.

(** *** Convert colors *)

Definition color2rgb (color : Color) : Color :=
  let '(r, g, b) :=
    if String.eqb (colorspace color) "hsl"
    then rt.(hsl2rgb) (hue color) (saturation color) (lightness color)
    else if String.eqb (colorspace color) "hwb"
    then rt.(hwb2rgb) (hue color) (whiteness color) (blackness color)
    else (red color, green color, blue color) in
  {| colorspace := "rgb"; red := r; green := g; blue := b; hue := hue color;
     saturation := Undef; lightness := Undef;
     whiteness := Undef; blackness := Undef; alpha := alpha color |}.

Definition color2hsl (color : Color) : Color :=
  let '(h, s, l) :=
    if String.eqb (colorspace color) "rgb"
    then rt.(rgb2hsl) (red color) (green color) (blue color) (hue color)
    else if String.eqb (colorspace color) "hwb"
    then rt.(hwb2hsl) (hue color) (whiteness color) (blackness color)
    else (hue color, saturation color, lightness color) in
  {| colorspace := "hsl"; red := Undef; green := Undef; blue := Undef;
     hue := h; saturation := s; lightness := l;
     whiteness := Undef; blackness := Undef; alpha := alpha color |}.

Definition color2hwb (color : Color) : Color :=
  let '(h, w, b) :=
    if String.eqb (colorspace color) "rgb"
    then rt.(rgb2hwb) (red color) (green color) (blue color) (hue color)
    else if String.eqb (colorspace color) "hsl"
    then rt.(hsl2hwb) (hue color) (saturation color) (lightness color)
    else (hue color, whiteness color, blackness color) in
  {| colorspace := "hwb"; red := Undef; green := Undef; blue := Undef;
     hue := h; saturation := Undef; lightness := Undef;
     whiteness := w; blackness := b; alpha := alpha color |}.

(** *** Blending *)

Definition blend (base color : Color) (percentage : num) (colorspace : string)
    (isBlendingAlpha : bool) : Color :=
  let addition := JS.div percentage (Fin 100) in
  let subtraction := JS.sub (Fin 1) addition in
  let mix x1 x2 := JS.add (JS.mul x1 subtraction) (JS.mul x2 addition) in
  if String.eqb colorspace "hsl" then
    let c1 := color2hsl base in
    let c2 := color2hsl color in
    {| colorspace := "hsl"; red := Undef; green := Undef; blue := Undef;
       hue := mix (hue c1) (hue c2);
       saturation := mix (saturation c1) (saturation c2);
       lightness := mix (lightness c1) (lightness c2);
       whiteness := Undef; blackness := Undef;
       alpha := if isBlendingAlpha then mix (alpha c1) (alpha c2) else alpha c1 |}
  else if String.eqb colorspace "hwb" then
    let c1 := color2hwb base in
    let c2 := color2hwb color in
    {| colorspace := "hwb"; red := Undef; green := Undef; blue := Undef;
       hue := mix (hue c1) (hue c2);
       saturation := Undef; lightness := Undef;
       whiteness := mix (whiteness c1) (whiteness c2);
       blackness := mix (blackness c1) (blackness c2);
       alpha := if isBlendingAlpha then mix (alpha c1) (alpha c2) else alpha c1 |}
  else
    let c1 := color2rgb base in
    let c2 := color2rgb color in
    {| colorspace := "rgb";
       red := mix (red c1) (red c2);
       green := mix (green c1) (green c2);
       blue := mix (blue c1) (blue c2);
       hue := Undef; saturation := Undef; lightness := Undef;
       whiteness := Undef; blackness := Undef;
       alpha := if isBlendingAlpha then mix (alpha c1) (alpha c2) else alpha c1 |}.

Definition shade_target : Color :=
  {| colorspace := "hwb"; red := Undef; green := Undef; blue := Undef;
     hue := Fin 0; saturation := Undef; lightness := Undef;
     whiteness := Fin 0; blackness := Fin 100; alpha := Undef |}.

Definition tint_target : Color :=
  {| colorspace := "hwb"; red := Undef; green := Undef; blue := Undef;
     hue := Fin 0; saturation := Undef; lightness := Undef;
     whiteness := Fin 100; blackness := Fin 0; alpha := Undef |}.

(** *** Contrast functions *)

Definition channel2luminance (value : num) : num :=
  if JS.le value (Fin 0.03928)
  then JS.div value (Fin 12.92)
  else rt.(Math_pow) (JS.div (JS.add value (Fin 0.055)) (Fin 1.055)) (Fin 2.4).

Definition rgb2luminance (red green blue : num) : num :=
  let redLuminance := channel2luminance red in
  let greenLuminance := channel2luminance green in
  let blueLuminance := channel2luminance blue in
  JS.add
    (JS.add (JS.mul (Fin 0.2126) redLuminance) (JS.mul (Fin 0.7152) greenLuminance))
    (JS.mul (Fin 0.0722) blueLuminance).

Definition colors2contrast (color1 color2 : Color) : num :=
  let rgb1 := color2rgb color1 in
  let rgb2 := color2rgb color2 in
  let l1 := rgb2luminance (red rgb1) (green rgb1) (blue rgb1) in
  let l2 := rgb2luminance (red rgb2) (green rgb2) (blue rgb2) in
  if JS.gt l1 l2
  then JS.div (JS.add l1 (Fin 0.05)) (JS.add l2 (Fin 0.05))
  else JS.div (JS.add l2 (Fin 0.05)) (JS.add l1 (Fin 0.05)).

(** The [while] loop of [colors2contrastRatioColor]: the test comes first, and
    an iteration spends one unit of [fuel]; [None] when the fuel runs out. *)
Fixpoint contrastRatioLoop (fuel : nat) (hwb modifiedHWB : Color)
    (minW minB maxW maxB : num) : option Color :=
  if JS.gt (JS.Math_abs (JS.sub minW maxW)) (Fin 100)
     || JS.gt (JS.Math_abs (JS.sub minB maxB)) (Fin 100)
  then
    match fuel with
    | O => None
    | S fuel =>
      let midW := JS.Math_round (JS.div (JS.add maxW minW) (Fin 2)) in
      let midB := JS.Math_round (JS.div (JS.add maxB minB) (Fin 2)) in
      let modifiedHWB :=
        set_channel (set_channel modifiedHWB ch_whiteness midW) ch_blackness midB in
      if JS.gt (colors2contrast modifiedHWB hwb) (Fin 4.5)
      then contrastRatioLoop fuel hwb modifiedHWB minW minB midW midB
      else contrastRatioLoop fuel hwb modifiedHWB midW midB maxW maxB
    end
  else Some modifiedHWB.

Definition colors2contrastRatioColor (fuel : nat) (hwb maxHWB : Color) : option Color :=
  let modifiedHWB := hwb in
  let minW := whiteness hwb in
  let minB := blackness hwb in
  let maxW := whiteness maxHWB in
  let maxB := blackness maxHWB in
  contrastRatioLoop fuel hwb modifiedHWB minW minB maxW maxB.

Definition maxContrastColorOf (luminance : num) (hwb : Color) : Color :=
  if JS.lt luminance (Fin 0.5)
  then {| colorspace := "hwb"; red := Undef; green := Undef; blue := Undef;
          hue := hue hwb; saturation := Undef; lightness := Undef;
          whiteness := Fin 100; blackness := Fin 0; alpha := alpha hwb |}
  else {| colorspace := "hwb"; red := Undef; green := Undef; blue := Undef;
          hue := hue hwb; saturation := Undef; lightness := Undef;
          whiteness := Fin 0; blackness := Fin 100; alpha := alpha hwb |}.

Definition contrast (fuel : nat) (color : Color) (percentage : num) : option Color :=
  let hwb := color2hwb color in
  let rgb := color2rgb color in
  let luminance := rgb2luminance (red rgb) (green rgb) (blue rgb) in
  let maxContrastColor := maxContrastColorOf luminance hwb in
  let contrastRatio := colors2contrast color maxContrastColor in
  match
    (if JS.gt contrastRatio (Fin 4.5)
     then colors2contrastRatioColor fuel hwb maxContrastColor
     else Some maxContrastColor)
  with
  | Some minContrastColor =>
      Some (blend maxContrastColor minContrastColor percentage "hwb" false)
  | None => None
  end.

(** *** The methods of the [Color] class.  The method of a channel tests
    its argument against [undefined]: [Color_get_*] is the branch taken
    with [undefined], which reads the channel, and [Color_*] is the other
    branch, which returns a new color; the argument of [Color_*] is
    therefore a value other than [undefined].  [shade] and [tint] have the
    same test, and [Color_shade] and [Color_tint] are the branch taken with
    a value other than [undefined]. *)

Definition Color_get_alpha (this : Color) : num := alpha this.
Definition Color_alpha (this : Color) (v : num) : Color :=
  new_Color (assign this [(ch_alpha, v)]).

Definition Color_get_blackness (this : Color) : num := blackness (color2hwb this).
Definition Color_blackness (this : Color) (v : num) : Color :=
  new_Color (assign (color2hwb this) [(ch_blackness, v)]).

Definition Color_blend (this color : Color) (percentage : num) (colorspace : string) : Color :=
  new_Color (blend this color percentage colorspace false).

Definition Color_blenda (this color : Color) (percentage : num) (colorspace : string) : Color :=
  new_Color (blend this color percentage colorspace true).

Definition Color_get_blue (this : Color) : num := blue (color2rgb this).
Definition Color_blue (this : Color) (v : num) : Color :=
  new_Color (assign (color2rgb this) [(ch_blue, v)]).

Definition Color_contrast (fuel : nat) (this : Color) (percentage : num) : option Color :=
  option_map new_Color (contrast fuel this percentage).

Definition Color_get_green (this : Color) : num := green (color2rgb this).
Definition Color_green (this : Color) (v : num) : Color :=
  new_Color (assign (color2rgb this) [(ch_green, v)]).

Definition Color_get_hue (this : Color) : num := hue (color2hsl this).
Definition Color_hue (this : Color) (v : num) : Color :=
  new_Color (assign (color2hsl this) [(ch_hue, v)]).

Definition Color_get_lightness (this : Color) : num := lightness (color2hsl this).
Definition Color_lightness (this : Color) (v : num) : Color :=
  new_Color (assign (color2hsl this) [(ch_lightness, v)]).

Definition Color_get_red (this : Color) : num := red (color2rgb this).
Definition Color_red (this : Color) (v : num) : Color :=
  new_Color (assign (color2rgb this) [(ch_red, v)]).

Definition Color_rgb (this : Color) (r g b : num) : Color :=
  new_Color (assign (color2rgb this) [(ch_red, r); (ch_green, g); (ch_blue, b)]).

Definition Color_get_saturation (this : Color) : num := saturation (color2hsl this).
Definition Color_saturation (this : Color) (v : num) : Color :=
  new_Color (assign (color2hsl this) [(ch_saturation, v)]).

Definition Color_shade (this : Color) (percentage : num) : Color :=
  new_Color (blend (color2hwb this) shade_target percentage "rgb" false).

Definition Color_tint (this : Color) (percentage : num) : Color :=
  new_Color (blend (color2hwb this) tint_target percentage "rgb" false).

Definition Color_get_whiteness (this : Color) : num := whiteness (color2hwb this).
Definition Color_whiteness (this : Color) (v : num) : Color :=
  new_Color (assign (color2hwb this) [(ch_whiteness, v)]).

(** *** Stringifiers *)

(** [Math.round(x * 10000000000) / 10000000000] *)
Definition round10 (x : num) : num :=
  JS.div (JS.Math_round (JS.mul x (Fin 10000000000))) (Fin 10000000000).

Definition color2hslString (color : Color) : string :=
  let hsl := color2hsl color in
  let isOpaque := JS.strict_eq (alpha hsl) (Fin 100) in
  let hue := hue hsl in
  let saturation := round10 (saturation hsl) in
  let lightness := round10 (lightness hsl) in
  let alpha := round10 (alpha hsl) in
  "hsl(" +:+ rt.(show) hue +:+ " " +:+ rt.(show) saturation +:+ "% "
    +:+ rt.(show) lightness +:+ "%"
    +:+ (if isOpaque then "" else " / " +:+ rt.(show) alpha +:+ "%") +:+ ")".

Definition color2hwbString (color : Color) : string :=
  let hwb := color2hwb color in
  let isOpaque := JS.strict_eq (alpha hwb) (Fin 100) in
  let hue := hue hwb in
  let whiteness := round10 (whiteness hwb) in
  let blackness := round10 (blackness hwb) in
  let alpha := round10 (alpha hwb) in
  "hwb(" +:+ rt.(show) hue +:+ " " +:+ rt.(show) whiteness +:+ "% "
    +:+ rt.(show) blackness +:+ "%"
    +:+ (if isOpaque then "" else " / " +:+ rt.(show) alpha +:+ "%") +:+ ")".

Definition color2rgbString (color : Color) : string :=
  let rgb := color2rgb color in
  let isOpaque := JS.strict_eq (alpha rgb) (Fin 100) in
  let red := round10 (red rgb) in
  let green := round10 (green rgb) in
  let blue := round10 (blue rgb) in
  let alpha := round10 (alpha rgb) in
  "rgb(" +:+ rt.(show) red +:+ "% " +:+ rt.(show) green +:+ "% "
    +:+ rt.(show) blue +:+ "%"
    +:+ (if isOpaque then "" else " / " +:+ rt.(show) alpha +:+ "%") +:+ ")".

Definition color2string (color : Color) : string :=
  if String.eqb (colorspace color) "hsl" then color2hslString color
  else if String.eqb (colorspace color) "hwb" then color2hwbString color
  else color2rgbString color.

Definition color2rgbLegacyString (color : Color) : string :=
  let rgb := color2rgb color in
  let isOpaque := JS.strict_eq (alpha rgb) (Fin 100) in
  let name := if isOpaque then "rgb" else "rgba" in
  let red := JS.Math_round (JS.div (JS.mul (red rgb) (Fin 255)) (Fin 100)) in
  let green := JS.Math_round (JS.div (JS.mul (green rgb) (Fin 255)) (Fin 100)) in
  let blue := JS.Math_round (JS.div (JS.mul (blue rgb) (Fin 255)) (Fin 100)) in
  let alpha := round10 (JS.div (alpha rgb) (Fin 100)) in
  name +:+ "(" +:+ rt.(show) red +:+ ", " +:+ rt.(show) green +:+ ", "
    +:+ rt.(show) blue
    +:+ (if isOpaque then "" else ", " +:+ rt.(show) alpha) +:+ ")".

Definition color2hslLegacyString (color : Color) : string :=
  let hsl := color2hsl color in
  let isOpaque := JS.strict_eq (alpha hsl) (Fin 100) in
  let name := if isOpaque then "hsl" else "hsla" in
  let hue := hue hsl in
  let saturation := round10 (saturation hsl) in
  let lightness := round10 (lightness hsl) in
  let alpha := round10 (JS.div (alpha hsl) (Fin 100)) in
  name +:+ "(" +:+ rt.(show) hue +:+ ", " +:+ rt.(show) saturation +:+ "%, "
    +:+ rt.(show) lightness +:+ "%"
    +:+ (if isOpaque then "" else ", " +:+ rt.(show) alpha) +:+ ")".

Definition color2legacyString (color : Color) : string :=
  if String.eqb (colorspace color) "hsl" then color2hslLegacyString color
  else color2rgbLegacyString color.

End ColorModel.

(** ** Effects of the interpreter *)

(** What the interpreter can raise: the error built by [opts.decl.error] in
    [manageUnresolved], or a [TypeError] of the JavaScript runtime. *)
Inductive Exn : Type :=
| DeclError (message word : string)
| TypeError (what : string).

(** A warning recorded by [opts.decl.warn(opts.result, message, { word })]. *)
Record Warning : Type := { w_message : string; w_word : string }.

Inductive Outcome (A : Type) : Type :=
| Ret (a : A)
| Throw (e : Exn)
| OutOfFuel.
Arguments Ret {A} a.
Arguments Throw {A} e.
Arguments OutOfFuel {A}.

(** A computation reads and extends the list of warnings emitted so far. *)
Definition M (A : Type) : Type := list Warning -> Outcome A * list Warning.

Definition ret {A : Type} (a : A) : M A := fun s => (Ret a, s).
Definition bind {A B : Type} (m : M A) (f : A -> M B) : M B := fun s =>
  match m s with
  | (Ret a, s') => f a s'
  | (Throw e, s') => (Throw e, s')
  | (OutOfFuel, s') => (OutOfFuel, s')
  end.

Notation "'let*' x := m 'in' k" := (bind m (fun x => k))
  (at level 10, x name, m at level 200, k at level 200).

Definition throw {A : Type} (e : Exn) : M A := fun s => (Throw e, s).
Definition out_of_fuel {A : Type} : M A := fun s => (OutOfFuel, s).
Definition push_warning (w : Warning) : M unit := fun s => (Ret tt, s ++ [w]).

Fixpoint mapM {A B : Type} (f : A -> M B) (l : list A) : M (list B) :=
  match l with
  | [] => ret []
  | x :: l => let* y := f x in let* ys := mapM f l in ret (y :: ys)
  end.

(** [l.map((x, index) => f(index, x))] *)
Fixpoint imapM_from {A B : Type} (i : nat) (f : nat -> A -> M B) (l : list A) : M (list B) :=
  match l with
  | [] => ret []
  | x :: l => let* y := f i x in let* ys := imapM_from (S i) f l in ret (y :: ys)
  end.
Definition imapM {A B : Type} := @imapM_from A B 0.

(** [l.reduce((acc, x) => f(acc, x), init)] *)
Fixpoint foldM {A B : Type} (f : B -> A -> M B) (init : B) (l : list A) : M B :=
  match l with
  | [] => ret init
  | x :: l => let* acc := f init x in foldM f acc l
  end.

(** ** Values handled by the interpreter *)

Inductive Val : Type :=
| VNum (n : num)
| VBool (b : bool)
| VStr (s : string)
| VColor (c : Color)
| VNode (n : Node).

Definition undefined : Val := VNum Undef.

(** [v !== undefined] *)
Definition defined (v : Val) : bool :=
  match v with VNum Undef => false | _ => true end.

(** [typeof v !== 'boolean'] *)
Definition not_boolean (v : Val) : bool :=
  match v with VBool _ => false | _ => true end.

(** The operand of an arithmetic operator. *)
Definition to_num (v : Val) : num :=
  match v with VNum n => n | _ => NaN end.

(** [v === s] for a string literal [s] *)
Definition is_str (v : Val) (s : string) : bool :=
  match v with VStr s' => String.eqb s' s | _ => false end.

(** The options the interpreter reads.  [unresolved] is the policy; an absent
    [stringifier] is [None]. *)
Record Opts : Type := {
  unresolved : string;
  stringifier : option (Color -> string);
  transformVars : bool;
  customProperties : gmap string (list Node)
}.

(** [{ unresolved: 'ignore' }] *)
Definition ignore_opts : Opts :=
  {| unresolved := "ignore"; stringifier := None; transformVars := false;
     customProperties := ∅ |}.

(** [manageUnresolved(node, opts, word, message)] *)
Definition manageUnresolved (node : Node) (opts : Opts) (word message : string) : M Val :=
  if String.eqb "warn" (unresolved opts) then
    let* _ := push_warning {| w_message := message; w_word := word |} in
    ret undefined
  else if negb (String.eqb "ignore" (unresolved opts)) then
    throw (DeclError message word)
  else ret undefined.

(** ** Matchers *)

Definition lower_ascii (c : ascii) : ascii :=
  let n := nat_of_ascii c in
  if (65 <=? n)%nat && (n <=? 90)%nat then ascii_of_nat (n + 32) else c.

Fixpoint lower (s : string) : string :=
  match s with
  | EmptyString => EmptyString
  | String c s => String (lower_ascii c) (lower s)
  end.

(** [/^(a|b|...)$/.test(v)] and [/^(a|b|...)$/i.test(v)] *)
Definition one_of (alts : list string) (v : string) : bool :=
  existsb (String.eqb v) alts.
Definition one_of_i (alts : list string) (v : string) : bool :=
  one_of alts (lower v).

Definition alphaMatch := one_of_i ["a"; "alpha"].
Definition alphaBlueGreenRedMatch := one_of_i ["a"; "alpha"; "blue"; "green"; "red"].
Definition blacknessLightnessSaturationWhitenessMatch :=
  one_of_i ["b"; "blackness"; "l"; "lightness"; "s"; "saturation"; "w"; "whiteness"].
Definition blendMatch := one_of_i ["blend"; "blenda"].
Definition colorModMatch := one_of_i ["color-mod"].
Definition colorSpaceMatch := one_of_i ["hsl"; "hwb"; "rgb"].
Definition contrastMatch := one_of_i ["contrast"].
Definition hslaMatch := one_of_i ["hsl"; "hsla"].
Definition hueUnitMatch := one_of_i [""; "deg"; "grad"; "rad"; "turn"].
Definition hueMatch := one_of_i ["h"; "hue"].
Definition hwbMatch := one_of_i ["hwb"].
Definition minusPlusMatch := one_of ["+"; "-"].
Definition minusPlusTimesMatch := one_of ["*"; "+"; "-"].
Definition rgbMatch := one_of_i ["rgb"].
Definition rgbaMatch := one_of_i ["rgb"; "rgba"].
Definition shadeTintMatch := one_of_i ["shade"; "tint"].
Definition varMatch := one_of_i ["var"].
Definition timesMatch := one_of ["*"].

(** The value of a hexadecimal digit, [[a-f0-9]] under the [i] flag. *)
Definition hex_digit (c : ascii) : option Z :=
  let n := Z.of_nat (nat_of_ascii c) in
  if (48 <=? n)%Z && (n <=? 57)%Z then Some (n - 48)%Z
  else if (97 <=? n)%Z && (n <=? 102)%Z then Some (n - 87)%Z
  else if (65 <=? n)%Z && (n <=? 70)%Z then Some (n - 55)%Z
  else None.

(** The capture groups of [hexColorMatch]: three or four single digits, or
    three or four pairs of digits, after the [#]. *)
Inductive HexGroups : Type :=
| Short (r g b : Z) (a : option Z)
| Long (rr gg bb : Z) (aa : option Z).

Definition hexColorGroups (v : string) : option HexGroups :=
  match v with
  | String "#" rest =>
    match map hex_digit (list_ascii_of_string rest) with
    | [Some r; Some g; Some b] => Some (Short r g b None)
    | [Some r; Some g; Some b; Some a] => Some (Short r g b (Some a))
    | [Some r1; Some r0; Some g1; Some g0; Some b1; Some b0] =>
        Some (Long (16 * r1 + r0)%Z (16 * g1 + g0)%Z (16 * b1 + b0)%Z None)
    | [Some r1; Some r0; Some g1; Some g0; Some b1; Some b0; Some a1; Some a0] =>
        Some (Long (16 * r1 + r0)%Z (16 * g1 + g0)%Z (16 * b1 + b0)%Z
                (Some (16 * a1 + a0)%Z))
    | _ => None
    end
  | _ => None
  end.

Definition hexColorMatch (v : string) : bool :=
  match hexColorGroups v with Some _ => true | None => false end.

(** [\w], and the characters that [[^\w-]] rejects. *)
Definition is_word_char (c : ascii) : bool :=
  let n := nat_of_ascii c in
  ((48 <=? n)%nat && (n <=? 57)%nat) || ((65 <=? n)%nat && (n <=? 90)%nat)
  || ((97 <=? n)%nat && (n <=? 122)%nat) || (n =? 95)%nat.

Fixpoint starts_with_i (p s : string) : bool :=
  match p, s with
  | EmptyString, _ => true
  | String a p, String b s => Ascii.eqb a (lower_ascii b) && starts_with_i p s
  | _, _ => false
  end.

(** [looseVarMatch]: [/(^|[^\w-])var\(/i], searched anywhere in the text;
    [at_start] tells whether the previous position allows a match. *)
Fixpoint looseVarMatch_from (at_start : bool) (s : string) : bool :=
  (at_start && starts_with_i "var(" s)
  || match s with
     | EmptyString => false
     | String c s =>
         looseVarMatch_from (negb (is_word_char c || Ascii.eqb c "-")) s
     end.
Definition looseVarMatch : string -> bool := looseVarMatch_from true.

(** ** Conversions *)

(** The table of [convertNtoRGB]. *)
Definition names : list (string * (Z * Z * Z)) :=
  [("aliceblue", (240, 248, 255)%Z);
   ("antiquewhite", (250, 235, 215)%Z);
   ("aqua", (0, 255, 255)%Z);
   ("aquamarine", (127, 255, 212)%Z);
   ("azure", (240, 255, 255)%Z);
   ("beige", (245, 245, 220)%Z);
   ("bisque", (255, 228, 196)%Z);
   ("black", (0, 0, 0)%Z);
   ("blanchedalmond", (255, 235, 205)%Z);
   ("blue", (0, 0, 255)%Z);
   ("blueviolet", (138, 43, 226)%Z);
   ("brown", (165, 42, 42)%Z);
   ("burlywood", (222, 184, 135)%Z);
   ("cadetblue", (95, 158, 160)%Z);
   ("chartreuse", (127, 255, 0)%Z);
   ("chocolate", (210, 105, 30)%Z);
   ("coral", (255, 127, 80)%Z);
   ("cornflowerblue", (100, 149, 237)%Z);
   ("cornsilk", (255, 248, 220)%Z);
   ("crimson", (220, 20, 60)%Z);
   ("cyan", (0, 255, 255)%Z);
   ("darkblue", (0, 0, 139)%Z);
   ("darkcyan", (0, 139, 139)%Z);
   ("darkgoldenrod", (184, 134, 11)%Z);
   ("darkgray", (169, 169, 169)%Z);
   ("darkgreen", (0, 100, 0)%Z);
   ("darkgrey", (169, 169, 169)%Z);
   ("darkkhaki", (189, 183, 107)%Z);
   ("darkmagenta", (139, 0, 139)%Z);
   ("darkolivegreen", (85, 107, 47)%Z);
   ("darkorange", (255, 140, 0)%Z);
   ("darkorchid", (153, 50, 204)%Z);
   ("darkred", (139, 0, 0)%Z);
   ("darksalmon", (233, 150, 122)%Z);
   ("darkseagreen", (143, 188, 143)%Z);
   ("darkslateblue", (72, 61, 139)%Z);
   ("darkslategray", (47, 79, 79)%Z);
   ("darkslategrey", (47, 79, 79)%Z);
   ("darkturquoise", (0, 206, 209)%Z);
   ("darkviolet", (148, 0, 211)%Z);
   ("deeppink", (255, 20, 147)%Z);
   ("deepskyblue", (0, 191, 255)%Z);
   ("dimgray", (105, 105, 105)%Z);
   ("dimgrey", (105, 105, 105)%Z);
   ("dodgerblue", (30, 144, 255)%Z);
   ("firebrick", (178, 34, 34)%Z);
   ("floralwhite", (255, 250, 240)%Z);
   ("forestgreen", (34, 139, 34)%Z);
   ("fuchsia", (255, 0, 255)%Z);
   ("gainsboro", (220, 220, 220)%Z);
   ("ghostwhite", (248, 248, 255)%Z);
   ("gold", (255, 215, 0)%Z);
   ("goldenrod", (218, 165, 32)%Z);
   ("gray", (128, 128, 128)%Z);
   ("green", (0, 128, 0)%Z);
   ("greenyellow", (173, 255, 47)%Z);
   ("grey", (128, 128, 128)%Z);
   ("honeydew", (240, 255, 240)%Z);
   ("hotpink", (255, 105, 180)%Z);
   ("indianred", (205, 92, 92)%Z);
   ("indigo", (75, 0, 130)%Z);
   ("ivory", (255, 255, 240)%Z);
   ("khaki", (240, 230, 140)%Z);
   ("lavender", (230, 230, 250)%Z);
   ("lavenderblush", (255, 240, 245)%Z);
   ("lawngreen", (124, 252, 0)%Z);
   ("lemonchiffon", (255, 250, 205)%Z);
   ("lightblue", (173, 216, 230)%Z);
   ("lightcoral", (240, 128, 128)%Z);
   ("lightcyan", (224, 255, 255)%Z);
   ("lightgoldenrodyellow", (250, 250, 210)%Z);
   ("lightgray", (211, 211, 211)%Z);
   ("lightgreen", (144, 238, 144)%Z);
   ("lightgrey", (211, 211, 211)%Z);
   ("lightpink", (255, 182, 193)%Z);
   ("lightsalmon", (255, 160, 122)%Z);
   ("lightseagreen", (32, 178, 170)%Z);
   ("lightskyblue", (135, 206, 250)%Z);
   ("lightslategray", (119, 136, 153)%Z);
   ("lightslategrey", (119, 136, 153)%Z);
   ("lightsteelblue", (176, 196, 222)%Z);
   ("lightyellow", (255, 255, 224)%Z);
   ("lime", (0, 255, 0)%Z);
   ("limegreen", (50, 205, 50)%Z);
   ("linen", (250, 240, 230)%Z);
   ("magenta", (255, 0, 255)%Z);
   ("maroon", (128, 0, 0)%Z);
   ("mediumaquamarine", (102, 205, 170)%Z);
   ("mediumblue", (0, 0, 205)%Z);
   ("mediumorchid", (186, 85, 211)%Z);
   ("mediumpurple", (147, 112, 219)%Z);
   ("mediumseagreen", (60, 179, 113)%Z);
   ("mediumslateblue", (123, 104, 238)%Z);
   ("mediumspringgreen", (0, 250, 154)%Z);
   ("mediumturquoise", (72, 209, 204)%Z);
   ("mediumvioletred", (199, 21, 133)%Z);
   ("midnightblue", (25, 25, 112)%Z);
   ("mintcream", (245, 255, 250)%Z);
   ("mistyrose", (255, 228, 225)%Z);
   ("moccasin", (255, 228, 181)%Z);
   ("navajowhite", (255, 222, 173)%Z);
   ("navy", (0, 0, 128)%Z);
   ("oldlace", (253, 245, 230)%Z);
   ("olive", (128, 128, 0)%Z);
   ("olivedrab", (107, 142, 35)%Z);
   ("orange", (255, 165, 0)%Z);
   ("orangered", (255, 69, 0)%Z);
   ("orchid", (218, 112, 214)%Z);
   ("palegoldenrod", (238, 232, 170)%Z);
   ("palegreen", (152, 251, 152)%Z);
   ("paleturquoise", (175, 238, 238)%Z);
   ("palevioletred", (219, 112, 147)%Z);
   ("papayawhip", (255, 239, 213)%Z);
   ("peachpuff", (255, 218, 185)%Z);
   ("peru", (205, 133, 63)%Z);
   ("pink", (255, 192, 203)%Z);
   ("plum", (221, 160, 221)%Z);
   ("powderblue", (176, 224, 230)%Z);
   ("purple", (128, 0, 128)%Z);
   ("rebeccapurple", (102, 51, 153)%Z);
   ("red", (255, 0, 0)%Z);
   ("rosybrown", (188, 143, 143)%Z);
   ("royalblue", (65, 105, 225)%Z);
   ("saddlebrown", (139, 69, 19)%Z);
   ("salmon", (250, 128, 114)%Z);
   ("sandybrown", (244, 164, 96)%Z);
   ("seagreen", (46, 139, 87)%Z);
   ("seashell", (255, 245, 238)%Z);
   ("sienna", (160, 82, 45)%Z);
   ("silver", (192, 192, 192)%Z);
   ("skyblue", (135, 206, 235)%Z);
   ("slateblue", (106, 90, 205)%Z);
   ("slategray", (112, 128, 144)%Z);
   ("slategrey", (112, 128, 144)%Z);
   ("snow", (255, 250, 250)%Z);
   ("springgreen", (0, 255, 127)%Z);
   ("steelblue", (70, 130, 180)%Z);
   ("tan", (210, 180, 140)%Z);
   ("teal", (0, 128, 128)%Z);
   ("thistle", (216, 191, 216)%Z);
   ("tomato", (255, 99, 71)%Z);
   ("transparent", (0, 0, 0)%Z);
   ("turquoise", (64, 224, 208)%Z);
   ("violet", (238, 130, 238)%Z);
   ("wheat", (245, 222, 179)%Z);
   ("white", (255, 255, 255)%Z);
   ("whitesmoke", (245, 245, 245)%Z);
   ("yellow", (255, 255, 0)%Z);
   ("yellowgreen", (154, 205, 50)%Z)].

(** The property names every object inherits from [Object.prototype]. *)
Definition object_prototype_keys : list string :=
  ["constructor"; "__defineGetter__"; "__defineSetter__"; "hasOwnProperty";
   "__lookupGetter__"; "__lookupSetter__"; "isPrototypeOf";
   "propertyIsEnumerable"; "toString"; "valueOf"; "__proto__"; "toLocaleString"].

Fixpoint assoc {A : Type} (k : string) (l : list (string * A)) : option A :=
  match l with
  | [] => None
  | (k', a) :: l => if String.eqb k k' then Some a else assoc k l
  end.

Definition byte_to_percent (c : Z) : num := JS.div (Fin (inject_Z c)) (Fin 2.55).

(** [convertNtoRGB(name)]: [names[name] && names[name].map(c => c / 2.55)].
    An inherited property is truthy and has no [map]. *)
Definition convertNtoRGB (name : string) : M (option (num * num * num)) :=
  match assoc name names with
  | Some (r, g, b) =>
      ret (Some (byte_to_percent r, byte_to_percent g, byte_to_percent b))
  | None =>
      if one_of object_prototype_keys name
      then throw (TypeError "names[name].map is not a function")
      else ret None
  end.

(** [convertHtoRGB(hex)] *)
Definition convertHtoRGB (hex : string) : option (num * num * num * num) :=
  match hexColorGroups hex with
  | Some (Short r g b a) =>
      Some (byte_to_percent (17 * r), byte_to_percent (17 * g),
            byte_to_percent (17 * b),
            byte_to_percent (match a with Some a => 17 * a | None => 255 end))
  | Some (Long rr gg bb aa) =>
      Some (byte_to_percent rr, byte_to_percent gg, byte_to_percent bb,
            byte_to_percent (match aa with Some aa => aa | None => 255 end))
  | None => None
  end.

Definition convertDtoD (deg : num) : num := JS.rem deg (Fin 360).
Definition convertGtoD (grad : num) : num := JS.rem (JS.mul grad (Fin 0.9)) (Fin 360).
Definition convertRtoD (rt : Runtime) (rad : num) : num :=
  JS.rem (JS.div (JS.mul rad (Fin 180)) rt.(Math_PI)) (Fin 360).
Definition convertTtoD (turn : num) : num := JS.rem (JS.mul turn (Fin 360)) (Fin 360).

(** ** The interpreter of [transform.js] *)

(** A position of a grammar pattern: a function of the child node and of the
    options. *)
Definition Param : Type := Node -> Opts -> M Val.

(** A validator used as a position: its result is a boolean. *)
Definition validator (f : Node -> bool) : Param := fun node _ => ret (VBool (f node)).

(** [node.type !== 'space' && node.type !== 'comment'] *)
Definition not_space_or_comment (node : Node) : bool :=
  negb (NodeType_eqb (type node) t_space) && negb (NodeType_eqb (type node) t_comment).

(** [node.nodes || []] *)
Definition nodes_or_empty (node : Node) : list Node :=
  match nodes node with Some l => l | None => [] end.

(** [transformArgsByParams(node, params)]: every pattern is run over the
    children that are neither spaces nor comments, under
    [{ unresolved: 'ignore' }]; booleans are dropped from each result; the
    first result without [undefined] is returned, or the empty list. *)
Definition paramResults (nodes : list Node) (param : list Param) : M (list Val) :=
  let* results := imapM
    (fun index childNode =>
       match nth_error param index with
       | Some f => f childNode ignore_opts
       | None => ret undefined
       end) nodes in
  ret (List.filter not_boolean results).

Definition transformArgsByParams (node : Node) (params : list (list Param)) : M (list Val) :=
  let nodes := List.filter not_space_or_comment (nodes_or_empty node) in
  let* results := mapM (paramResults nodes) params in
  ret (hd [] (List.filter (forallb defined) results)).

Section Interpreter.

Variable rt : Runtime.

(** *** Validators *)

Definition is_type (t : NodeType) (node : Node) : bool := NodeType_eqb (type node) t.

Definition isVariable (node : Node) : bool :=
  is_type t_function node && varMatch (value node).
Definition isAlphaBlueGreenRedAdjuster (node : Node) : bool :=
  is_type t_function node && alphaBlueGreenRedMatch (value node).
Definition isRGBAdjuster (node : Node) : bool :=
  is_type t_function node && rgbMatch (value node).
Definition isHueAdjuster (node : Node) : bool :=
  is_type t_function node && hueMatch (value node).
Definition isBlacknessLightnessSaturationWhitenessAdjuster (node : Node) : bool :=
  is_type t_function node && blacknessLightnessSaturationWhitenessMatch (value node).
Definition isShadeTintAdjuster (node : Node) : bool :=
  is_type t_function node && shadeTintMatch (value node).
Definition isBlendAdjuster (node : Node) : bool :=
  is_type t_function node && blendMatch (value node).
Definition isContrastAdjuster (node : Node) : bool :=
  is_type t_function node && contrastMatch (value node).
Definition isRGBFunction (node : Node) : bool :=
  is_type t_function node && rgbaMatch (value node).
Definition isHSLFunction (node : Node) : bool :=
  is_type t_function node && hslaMatch (value node).
Definition isHWBFunction (node : Node) : bool :=
  is_type t_function node && hwbMatch (value node).
Definition isColorModFunction (node : Node) : bool :=
  is_type t_function node && colorModMatch (value node).

Definition isNamedColor (node : Node) : M bool :=
  if is_type t_word node
  then let* rgb := convertNtoRGB (value node) in
       ret (match rgb with Some _ => true | None => false end)
  else ret false.

Definition isHexColor (node : Node) : bool :=
  is_type t_word node && hexColorMatch (value node).
Definition isColorSpace (node : Node) : bool :=
  is_type t_word node && colorSpaceMatch (value node).

Definition isHue (node : Node) : bool :=
  if negb (is_type t_word node) then false
  else match rt.(parser_unit) (value node) with
       | Some (_, unit) => hueUnitMatch unit
       | None => false
       end.

Definition isComma (node : Node) : bool :=
  is_type t_div node && String.eqb (value node) ",".
Definition isSlash (node : Node) : bool :=
  is_type t_div node && String.eqb (value node) "/".

Definition isNumber (node : Node) : bool :=
  if negb (is_type t_word node) then false
  else match rt.(parser_unit) (value node) with
       | Some (_, unit) => String.eqb unit ""
       | None => false
       end.

Definition isMinusPlusOperator (node : Node) : bool :=
  is_type t_word node && minusPlusMatch (value node).
Definition isMinusPlusTimesOperator (node : Node) : bool :=
  is_type t_word node && minusPlusTimesMatch (value node).
Definition isTimesOperator (node : Node) : bool :=
  is_type t_word node && timesMatch (value node).

Definition isPercentage (node : Node) : bool :=
  if negb (is_type t_word node) then false
  else match rt.(parser_unit) (value node) with
       | Some (number, unit) =>
           String.eqb unit "%" || JS.strict_eq (rt.(parseFloat) number) (Fin 0)
       | None => false
       end.

Definition isWord (node : Node) : bool := is_type t_word node.

(** [parser.unit(node.value).number] and [.unit] where the validator has
    already accepted the node. *)
Definition unit_number (node : Node) : string :=
  match rt.(parser_unit) (value node) with Some (number, _) => number | None => "" end.
Definition unit_unit (node : Node) : string :=
  match rt.(parser_unit) (value node) with Some (_, unit) => unit | None => "" end.

(** *** Argument transforms *)

Definition transformColorSpace : Param := fun node opts =>
  if isColorSpace node then ret (VStr (value node))
  else manageUnresolved node opts (value node) "Expected a valid color space)".

Definition transformPercentage : Param := fun node opts =>
  if isPercentage node then ret (VNum (rt.(Number) (unit_number node)))
  else manageUnresolved node opts (value node) "Expected a valid percentage".

Definition transformAlpha : Param := fun node opts =>
  if isNumber node then
    ret (VNum (JS.mul (rt.(Number) (unit_number node)) (Fin 100)))
  else if isPercentage node then transformPercentage node opts
  else manageUnresolved node opts (value node) "Expected a valid alpha value)".

Definition transformRGBNumber : Param := fun node opts =>
  if isNumber node then ret (VNum (JS.div (rt.(Number) (value node)) (Fin 2.55)))
  else manageUnresolved node opts (value node) "Expected a valid RGB value)".

Definition transformHue : Param := fun node opts =>
  if isHue node then
    let unit := lower (unit_unit node) in
    let number := rt.(Number) (unit_number node) in
    if String.eqb unit "grad" then ret (VNum (convertGtoD number))
    else if String.eqb unit "rad" then ret (VNum (convertRtoD rt number))
    else if String.eqb unit "turn" then ret (VNum (convertTtoD number))
    else ret (VNum (convertDtoD number))
  else manageUnresolved node opts (value node) "Expected a valid hue".

Definition transformMinusPlusOperator : Param := fun node opts =>
  if isMinusPlusOperator node then ret (VStr (value node))
  else manageUnresolved node opts (value node) "Expected a plus or minus operator".

Definition transformTimesOperator : Param := fun node opts =>
  if isTimesOperator node then ret (VStr (value node))
  else manageUnresolved node opts (value node) "Expected a times operator".

Definition transformMinusPlusTimesOperator : Param := fun node opts =>
  if isMinusPlusTimesOperator node then ret (VStr (value node))
  else manageUnresolved node opts (value node) "Expected a plus, minus, or times operator".

Definition transformWord : Param := fun node opts =>
  if isWord node then ret (VStr (value node))
  else manageUnresolved node opts (value node) "Expected a valid word".

Definition transformNode : Param := fun node _ => ret (VNode node).

(** *** Transform <color> functions that do not recurse *)

Definition rgb_object (red green blue alpha : num) (colorspace : string) : Color :=
  {| colorspace := colorspace; red := red; green := green; blue := blue;
     hue := Undef; saturation := Undef; lightness := Undef;
     whiteness := Undef; blackness := Undef; alpha := alpha |}.

Definition hsl_object (hue saturation lightness alpha : num) : Color :=
  {| colorspace := "hsl"; red := Undef; green := Undef; blue := Undef;
     hue := hue; saturation := saturation; lightness := lightness;
     whiteness := Undef; blackness := Undef; alpha := alpha |}.

Definition hwb_object (hue whiteness blackness alpha : num) : Color :=
  {| colorspace := "hwb"; red := Undef; green := Undef; blue := Undef;
     hue := hue; saturation := Undef; lightness := Undef;
     whiteness := whiteness; blackness := blackness; alpha := alpha |}.

(** [const [a, b, c, alpha = 100] = ...]: the element, or the default when it
    is [undefined]. *)
Definition nth_val (i : nat) (l : list Val) : Val := nth i l undefined.
Definition with_default (v d : Val) : Val := if defined v then v else d.

Definition transformRGBFunction : Param := fun node opts =>
  let* args := transformArgsByParams node
    [ [transformPercentage; transformPercentage; transformPercentage;
       validator isSlash; transformAlpha];
      [transformRGBNumber; transformRGBNumber; transformRGBNumber;
       validator isSlash; transformAlpha];
      [transformPercentage; validator isComma; transformPercentage;
       validator isComma; transformPercentage; validator isComma; transformAlpha];
      [transformRGBNumber; validator isComma; transformRGBNumber;
       validator isComma; transformRGBNumber; validator isComma; transformAlpha] ] in
  let red := nth_val 0 args in
  let green := nth_val 1 args in
  let blue := nth_val 2 args in
  let alpha := with_default (nth_val 3 args) (VNum (Fin 100)) in
  if defined red then
    ret (VColor (new_Color rt
      (rgb_object (to_num red) (to_num green) (to_num blue) (to_num alpha) "rgb")))
  else manageUnresolved node opts (value node) "Expected a valid rgb() function".

Definition transformHSLFunction : Param := fun node opts =>
  let* args := transformArgsByParams node
    [ [transformHue; transformPercentage; transformPercentage;
       validator isSlash; transformAlpha];
      [transformHue; validator isComma; transformPercentage; validator isComma;
       transformPercentage; validator isComma; transformAlpha] ] in
  let hue := nth_val 0 args in
  let saturation := nth_val 1 args in
  let lightness := nth_val 2 args in
  let alpha := with_default (nth_val 3 args) (VNum (Fin 100)) in
  if defined lightness then
    ret (VColor (new_Color rt
      (hsl_object (to_num hue) (to_num saturation) (to_num lightness) (to_num alpha))))
  else manageUnresolved node opts (value node) "Expected a valid hsl() function".

Definition transformHWBFunction : Param := fun node opts =>
  let* args := transformArgsByParams node
    [ [transformHue; transformPercentage; transformPercentage;
       validator isSlash; transformAlpha] ] in
  let hue := nth_val 0 args in
  let whiteness := nth_val 1 args in
  let blackness := nth_val 2 args in
  let alpha := with_default (nth_val 3 args) (VNum (Fin 100)) in
  if defined blackness then
    ret (VColor (new_Color rt
      (hwb_object (to_num hue) (to_num whiteness) (to_num blackness) (to_num alpha))))
  else manageUnresolved node opts (value node) "Expected a valid hwb() function".

Definition transformHexColor : Param := fun node opts =>
  match convertHtoRGB (value node) with
  | Some (red, green, blue, alpha) =>
      ret (VColor (new_Color rt (rgb_object red green blue alpha "")))
  | None => manageUnresolved node opts (value node) "Expected a valid hex color"
  end.

Definition transformNamedColor : Param := fun node opts =>
  let* named := isNamedColor node in
  if named then
    let* rgb := convertNtoRGB (value node) in
    match rgb with
    | Some (red, green, blue) =>
        ret (VColor (new_Color rt (rgb_object red green blue (Fin 100) "rgb")))
    | None => throw (TypeError "undefined is not iterable")
    end
  else manageUnresolved node opts (value node) "Expected a valid named-color".

(** *** Calls of the methods of a color through their names *)

(** [Number(v)] *)
Definition Number_val (v : Val) : num :=
  match v with
  | VNum (Fin q) => Fin q
  | VNum _ => NaN
  | VStr s => rt.(Number) s
  | VBool b => if b then Fin 1 else Fin 0
  | _ => NaN
  end.

Definition channel_of_name (name : string) : option channel :=
  assoc name
    [("alpha", ch_alpha); ("red", ch_red); ("green", ch_green); ("blue", ch_blue);
     ("hue", ch_hue); ("saturation", ch_saturation); ("lightness", ch_lightness);
     ("whiteness", ch_whiteness); ("blackness", ch_blackness)].

Definition Color_get (this : Color) (ch : channel) : num :=
  match ch with
  | ch_alpha => Color_get_alpha this
  | ch_red => Color_get_red rt this
  | ch_green => Color_get_green rt this
  | ch_blue => Color_get_blue rt this
  | ch_hue => Color_get_hue rt this
  | ch_saturation => Color_get_saturation rt this
  | ch_lightness => Color_get_lightness rt this
  | ch_whiteness => Color_get_whiteness rt this
  | ch_blackness => Color_get_blackness rt this
  end.

Definition Color_set (this : Color) (ch : channel) (v : num) : Color :=
  match ch with
  | ch_alpha => Color_alpha rt this v
  | ch_red => Color_red rt this v
  | ch_green => Color_green rt this v
  | ch_blue => Color_blue rt this v
  | ch_hue => Color_hue rt this v
  | ch_saturation => Color_saturation rt this v
  | ch_lightness => Color_lightness rt this v
  | ch_whiteness => Color_whiteness rt this v
  | ch_blackness => Color_blackness rt this v
  end.

(** [base[channel]()]: reading a property of [undefined] raises. *)
Definition call_getter (base : Val) (name : string) : M num :=
  match base, channel_of_name name with
  | VColor c, Some ch => ret (Color_get c ch)
  | VColor _, None => throw (TypeError "base[channel] is not a function")
  | _, _ => throw (TypeError "cannot read properties of undefined")
  end.

(** [base[channel](modifiedValue)]: [modifiedValue] is the result of an
    arithmetic operation or of [Number(...)], which is never [undefined], so
    the method takes the branch that returns a color. *)
Definition call_setter (base : Val) (name : string) (v : num) : M Val :=
  match base, channel_of_name name with
  | VColor c, Some ch => ret (VColor (Color_set c ch v))
  | VColor _, None => throw (TypeError "base[channel] is not a function")
  | _, _ => throw (TypeError "cannot read properties of undefined")
  end.

(** The value the channel adjusters compute from the existing value, the
    operator and the adjustment. *)
Definition modifiedValueOf (existingValue : num) (operatorOrValue adjustment : Val) : num :=
  if defined adjustment then
    if is_str operatorOrValue "+" then JS.add existingValue (Number_val adjustment)
    else if is_str operatorOrValue "-" then JS.sub existingValue (Number_val adjustment)
    else if is_str operatorOrValue "*" then JS.mul existingValue (Number_val adjustment)
    else Number_val adjustment
  else Number_val operatorOrValue.

(** *** Transform <color-adjuster> functions *)

Definition transformAlphaBlueGreenRedAdjuster (base : Val) (node : Node) (opts : Opts) : M Val :=
  let* args := transformArgsByParams node
    (if alphaMatch (value node)
     then [ [transformMinusPlusOperator; transformAlpha];
            [transformTimesOperator; transformPercentage];
            [transformAlpha] ]
     else [ [transformMinusPlusOperator; transformPercentage];
            [transformMinusPlusOperator; transformRGBNumber];
            [transformTimesOperator; transformPercentage];
            [transformPercentage];
            [transformRGBNumber] ]) in
  let operatorOrValue := nth_val 0 args in
  let adjustment := nth_val 1 args in
  if defined operatorOrValue then
    let channel :=
      if alphaMatch (lower (value node)) then "alpha" else lower (value node) in
    let* existingValue := call_getter base channel in
    let modifiedValue := modifiedValueOf existingValue operatorOrValue adjustment in
    call_setter base channel modifiedValue
  else manageUnresolved node opts (value node) "Expected a valid modifier()".

(** [base.rgb(r, g, b)] and the getters used by the rgb adjuster. *)
Definition base_color (base : Val) : M Color :=
  match base with
  | VColor c => ret c
  | _ => throw (TypeError "cannot read properties of undefined")
  end.

(** [re.test(v)] on a value: only a string can match. *)
Definition test_val (re : string -> bool) (v : Val) : bool :=
  match v with VStr s => re s | _ => false end.

Definition is_color (v : Val) : bool :=
  match v with VColor _ => true | _ => false end.

Definition transformRGBAdjuster (base : Val) (node : Node) (opts : Opts) : M Val :=
  let* args := transformArgsByParams node
    [ [transformMinusPlusOperator; transformPercentage; transformPercentage;
       transformPercentage];
      [transformMinusPlusOperator; transformRGBNumber; transformRGBNumber;
       transformRGBNumber];
      [transformMinusPlusOperator; transformHexColor];
      [transformTimesOperator; transformPercentage] ] in
  let arg1 := nth_val 0 args in
  let arg2 := nth_val 1 args in
  let arg3 := nth_val 2 args in
  let arg4 := nth_val 3 args in
  match arg2 with
  | VColor c2 =>
      let* b := base_color base in
      let op x y := if is_str arg1 "+" then JS.add x y else JS.sub x y in
      ret (VColor (Color_rgb rt b
        (op (Color_get_red rt b) (Color_get_red rt c2))
        (op (Color_get_green rt b) (Color_get_green rt c2))
        (op (Color_get_blue rt b) (Color_get_blue rt c2))))
  | _ =>
    if defined arg1 && test_val minusPlusMatch arg1 then
      let* b := base_color base in
      let op x y := if is_str arg1 "+" then JS.add x y else JS.sub x y in
      ret (VColor (Color_rgb rt b
        (op (Color_get_red rt b) (to_num arg2))
        (op (Color_get_green rt b) (to_num arg3))
        (op (Color_get_blue rt b) (to_num arg4))))
    else if defined arg1 && defined arg2 then
      let* b := base_color base in
      ret (VColor (Color_rgb rt b
        (JS.mul (Color_get_red rt b) (to_num arg2))
        (JS.mul (Color_get_green rt b) (to_num arg2))
        (JS.mul (Color_get_blue rt b) (to_num arg2))))
    else manageUnresolved node opts (value node) "Expected a valid rgb() adjuster"
  end.

Definition transformHueAdjuster (base : Val) (node : Node) (opts : Opts) : M Val :=
  let* args := transformArgsByParams node
    [ [transformMinusPlusTimesOperator; transformHue];
      [transformHue] ] in
  let operatorOrHue := nth_val 0 args in
  let adjustment := nth_val 1 args in
  if defined operatorOrHue then
    let* existingHue := call_getter base "hue" in
    let modifiedValue := modifiedValueOf existingHue operatorOrHue adjustment in
    call_setter base "hue" modifiedValue
  else manageUnresolved node opts (value node) "Expected a valid hue() function)".

Definition longChannelName (name : string) : string :=
  if String.eqb name "b" then "blackness"
  else if String.eqb name "l" then "lightness"
  else if String.eqb name "s" then "saturation"
  else if String.eqb name "w" then "whiteness"
  else name.

Definition transformBlacknessLightnessSaturationWhitenessAdjuster
    (base : Val) (node : Node) (opts : Opts) : M Val :=
  let channel := longChannelName (lower (value node)) in
  let* args := transformArgsByParams node
    [ [transformMinusPlusTimesOperator; transformPercentage];
      [transformPercentage] ] in
  let operatorOrValue := nth_val 0 args in
  let adjustment := nth_val 1 args in
  if defined operatorOrValue then
    let* existingValue := call_getter base channel in
    let modifiedValue := modifiedValueOf existingValue operatorOrValue adjustment in
    call_setter base channel modifiedValue
  else manageUnresolved node opts (value node)
         ("Expected a valid " +:+ channel +:+ "() function)").

Definition transformShadeTintAdjuster (base : Val) (node : Node) (opts : Opts) : M Val :=
  let channel := lower (value node) in
  let* args := transformArgsByParams node [ [transformPercentage] ] in
  let percentage := nth_val 0 args in
  if defined percentage then
    let modifiedValue := Number_val percentage in
    let* b := base_color base in
    if String.eqb channel "shade" then ret (VColor (Color_shade rt b modifiedValue))
    else if String.eqb channel "tint" then ret (VColor (Color_tint rt b modifiedValue))
    else throw (TypeError "base[channel] is not a function")
  else manageUnresolved node opts (value node)
         ("Expected valid " +:+ channel +:+ "() arguments").

(** The adjusters that need the recursive [transformColor], and the fuel of
    the bisection of [contrast]. *)
Section Recursive.

Variable fuel : nat.
Variable transformColor : Param.

Definition transformBlendAdjuster (base : Val) (node : Node) (isAlphaBlend : bool)
    (opts : Opts) : M Val :=
  let* args := transformArgsByParams node
    [ [transformColor; transformPercentage; transformColorSpace] ] in
  let color := nth_val 0 args in
  let percentage := nth_val 1 args in
  let colorspace := with_default (nth_val 2 args) (VStr "rgb") in
  if defined percentage then
    let* b := base_color base in
    match color, colorspace with
    | VColor c, VStr colorspace =>
        ret (VColor (if isAlphaBlend
                     then Color_blenda rt b c (to_num percentage) colorspace
                     else Color_blend rt b c (to_num percentage) colorspace))
    | _, _ => throw (TypeError "cannot read properties of undefined")
    end
  else manageUnresolved node opts (value node) "Expected a valid blend() adjuster)".

Definition transformContrastAdjuster (base : Val) (node : Node) (opts : Opts) : M Val :=
  let* args := transformArgsByParams node [ [transformPercentage] ] in
  let percentage := nth_val 0 args in
  if defined percentage then
    let* b := base_color base in
    match Color_contrast rt fuel b (to_num percentage) with
    | Some modifiedColor => ret (VColor modifiedColor)
    | None => out_of_fuel
    end
  else manageUnresolved node opts (value node) "Expected a valid contrast() adjuster)".

Definition transformColorByAdjusters (color : Val) (adjusterNodes : list Node)
    (opts : Opts) : M Val :=
  foldM
    (fun base node =>
       if isAlphaBlueGreenRedAdjuster node then
         transformAlphaBlueGreenRedAdjuster base node opts
       else if isRGBAdjuster node then transformRGBAdjuster base node opts
       else if isHueAdjuster node then transformHueAdjuster base node opts
       else if isBlacknessLightnessSaturationWhitenessAdjuster node then
         transformBlacknessLightnessSaturationWhitenessAdjuster base node opts
       else if isShadeTintAdjuster node then transformShadeTintAdjuster base node opts
       else if isBlendAdjuster node then
         transformBlendAdjuster base node (String.eqb (value node) "blenda") opts
       else if isContrastAdjuster node then transformContrastAdjuster base node opts
       else
         let* _ := manageUnresolved node opts (value node)
                     "Expected a valid color adjuster" in
         ret base)
    color
    (List.filter not_space_or_comment adjusterNodes).

Definition transformColorModFunction : Param := fun node opts =>
  match nodes_or_empty node with
  | colorOrHueNode :: adjusterNodes =>
      let* color :=
        if isHue colorOrHueNode then
          let* hue := transformHue colorOrHueNode opts in
          ret (VColor (new_Color rt
                 (hsl_object (to_num hue) (Fin 100) (Fin 50) (Fin 100))))
        else transformColor colorOrHueNode opts in
      if is_color color then transformColorByAdjusters color adjusterNodes opts
      else manageUnresolved node opts (value node) "Expected a valid color"
  | [] =>
      manageUnresolved node opts (value node) "Expected a valid color-mod() function"
  end.

(** The body of [transformColor]; the nested call goes through
    [transformColorModFunction]. *)
Definition transformColor_body : Param := fun node opts =>
  if isRGBFunction node then transformRGBFunction node opts
  else if isHSLFunction node then transformHSLFunction node opts
  else if isHWBFunction node then transformHWBFunction node opts
  else if isColorModFunction node then transformColorModFunction node opts
  else if isHexColor node then transformHexColor node opts
  else
    let* named := isNamedColor node in
    if named then transformNamedColor node opts
    else manageUnresolved node opts (value node) "Expected a color".

End Recursive.

(** [transformColor]: [depth] bounds the nesting of color-mod() and blend()
    calls that is followed. *)
Fixpoint transformColor (fuel depth : nat) : Param := fun node opts =>
  match depth with
  | O => out_of_fuel
  | S depth => transformColor_body fuel (transformColor fuel depth) node opts
  end.

(** *** Transform <var> functions *)

(** [nodes.splice(start, deleteCount, ...items)] on the array itself *)
Definition splice (nodes : list Node) (start deleteCount : nat) (items : list Node) : list Node :=
  take start nodes ++ items ++ drop (start + deleteCount) nodes.

Definition set_nodes (node : Node) (children : list Node) : Node :=
  MkNode (type node) (value node) (Some children).

(** The key that [prop in table] and [table[prop]] look up. *)
Definition property_key (prop : Val) : string :=
  match prop with VStr s => s | _ => "undefined" end.

Section Walk.

Variable opts : Opts.
(** [parser.walk(nodes, callback)] with the callback of [transformVariables],
    one level further down; it returns the array as the walk leaves it. *)
Variable walk_rec : list Node -> M (list Node).

(** The descent of [parser.walk] into the node it has just visited: the node
    at [index] is that same object when [attached], so that the walk of its
    children shows in the array. *)
Definition descend (array : list Node) (index : nat) (node : Node) (attached : bool)
    : M (list Node) :=
  match type node, nodes node with
  | t_function, Some children =>
      let* children := walk_rec children in
      ret (if attached then <[index := set_nodes node children]> array else array)
  | _, _ => ret array
  end.

(** Spreading a node as the arguments of a call: a node is a plain object,
    which is not iterable. *)
Definition spread_node (node : option Node) : M (list Node) :=
  throw (TypeError "spread of a value that is not iterable").

(** The callback of [transformVariables] on the child at [index], followed by
    the descent of the walk. *)
Definition walk_callback (array : list Node) (index : nat) (child : Node) : M (list Node) :=
  if isVariable child then
    let* args := transformArgsByParams child
      [ [transformWord; validator isComma; transformNode] ] in
    let prop := nth_val 0 args in
    let fallbackNode := nth_val 1 args in
    match customProperties opts !! property_key prop with
    | Some customPropertyValue =>
        let* customPropertyValue :=
          if looseVarMatch (rt.(parser_stringify) customPropertyValue)
          then walk_rec customPropertyValue
          else ret customPropertyValue in
        let array := splice array index 1 customPropertyValue in
        descend array index child false
    | None =>
        if one_of object_prototype_keys (property_key prop)
        then throw (TypeError "cannot read properties of undefined (reading 'length')")
        else
          match fallbackNode with
          | VNode fallback =>
              match nodes fallback with
              | None => throw (TypeError "cannot read properties of undefined (reading 'length')")
              | Some [first] =>
                  match nodes first with
                  | None => throw (TypeError "cannot read properties of undefined (reading 'length')")
                  | Some [] => descend array index child true
                  | Some (_ :: _) =>
                      let* expanded := walk_rec [first] in
                      let* items :=
                        spread_node
                          (match expanded with
                           | first :: _ =>
                               match nodes first with
                               | Some (inner :: _) => Some inner
                               | _ => None
                               end
                           | [] => None
                           end) in
                      ret (splice array index 1 items)
                  end
              | Some _ => descend array index child true
              end
          | _ => descend array index child true
          end
    end
  else descend array index child true.

(** One iteration of the [for] loop of [parser.walk]: [nodes[i]] is read from
    the array as it is now; reading the [type] of a missing element raises. *)
Definition walk_step (array : list Node) (i : nat) : M (list Node) :=
  match array !! i with
  | Some node => walk_callback array i node
  | None => throw (TypeError "cannot read properties of undefined (reading 'type')")
  end.

(** The loop runs [max] times, [max] being the length when the walk starts. *)
Fixpoint walk_loop (steps i : nat) (array : list Node) : M (list Node) :=
  match steps with
  | O => ret array
  | S steps => let* array := walk_step array i in walk_loop steps (S i) array
  end.

Definition walk (array : list Node) : M (list Node) :=
  walk_loop (List.length array) 0 array.

End Walk.

(** [parser.walk(nodes, callback)] for the callback of [transformVariables];
    [depth] bounds the nesting of walks (children, custom property values). *)
Fixpoint walk_variables (depth : nat) (opts : Opts) (array : list Node) : M (list Node) :=
  match depth with
  | O => out_of_fuel
  | S depth => walk opts (walk_variables depth opts) array
  end.

(** [transformVariables(node, opts)]: the node with its children as the walk
    leaves them. *)
Definition transformVariables (depth : nat) (node : Node) (opts : Opts) : M Node :=
  match nodes node with
  | Some children =>
      let* children := walk_variables depth opts children in
      ret (set_nodes node children)
  | None => throw (TypeError "cannot read properties of undefined (reading 'length')")
  end.

(** *** Transform AST *)

(** [transformAST(node, opts)], on the children of [node]: each child is
    visited in order and replaced in place. *)
Fixpoint transformAST (fuel depth : nat) (children : list Node) (opts : Opts)
    : M (list Node) :=
  match depth with
  | O => out_of_fuel
  | S depth =>
    mapM
      (fun child =>
         if isColorModFunction child then
           let* child :=
             if transformVars opts then transformVariables depth child opts
             else ret child in
           let* color :=
             transformColorModFunction fuel (transformColor fuel depth) child opts in
           match color with
           | VColor color =>
               match stringifier opts with
               | Some stringifier => ret (MkNode t_word (stringifier color) None)
               | None => throw (TypeError "opts.stringifier is not a function")
               end
           | _ => ret child
           end
         else
           match nodes child with
           | Some (grandchild :: others) =>
               let* grandchildren :=
                 transformAST fuel depth (grandchild :: others) opts in
               ret (set_nodes child grandchildren)
           | _ => ret child
           end)
      children
  end.

End Interpreter.

(** ** A reference runtime

    Stand-ins for the external collaborators, used only to run the
    interpreter on closed inputs; the general statements quantify over every
    [Runtime].  [unit] follows postcss-value-parser's [unit.js].  The
    conversions compute the usual formulas between rgb, hsl and hwb over the
    rationals; they are not a transcription of @csstools/convert-colors
    ([hwb2hsl] and [hsl2hwb] go through rgb here).  [Number] reads a decimal
    literal as the rational it denotes, [show] prints the decimal expansion
    of a rational (at most twenty decimals) and [Math.pow] is computed to
    twelve decimal places, rounded down: none of them rounds to a binary
    floating-point number.  [stringify] prints a node from the fields this
    model keeps. *)

Module Reference.

Definition is_digit (c : ascii) : bool :=
  let n := nat_of_ascii c in (48 <=? n)%nat && (n <=? 57)%nat.
Definition is_sign (c : ascii) : bool := Ascii.eqb c "+" || Ascii.eqb c "-".
Definition is_exp (c : ascii) : bool := Ascii.eqb c "e" || Ascii.eqb c "E".

Fixpoint span_digits (l : list ascii) : list ascii * list ascii :=
  match l with
  | c :: l' =>
      if is_digit c then let '(ds, rest) := span_digits l' in (c :: ds, rest)
      else ([], l)
  | [] => ([], [])
  end.

Definition likeNumber (l : list ascii) : bool :=
  match l with
  | c :: rest =>
      if is_sign c then
        match rest with
        | d :: rest' =>
            is_digit d
            || (Ascii.eqb d "." && match rest' with e :: _ => is_digit e | [] => false end)
        | [] => false
        end
      else if Ascii.eqb c "." then
        match rest with d :: _ => is_digit d | [] => false end
      else is_digit c
  | [] => false
  end.

(** The sign, the integer digits, the fraction digits, the exponent (its sign
    and digits) and what follows the number. *)
Record Scanned : Type := {
  s_sign : list ascii; s_int : list ascii; s_frac : option (list ascii);
  s_exp : option (list ascii * list ascii); s_rest : list ascii
}.

Definition scan (l : list ascii) : Scanned :=
  let '(sign, l) :=
    match l with c :: l' => if is_sign c then ([c], l') else ([], l) | [] => ([], []) end in
  let '(int, l) := span_digits l in
  let '(frac, l) :=
    match l with
    | c :: d :: l' =>
        if Ascii.eqb c "." && is_digit d
        then let '(ds, rest) := span_digits (d :: l') in (Some ds, rest)
        else (None, l)
    | _ => (None, l)
    end in
  let '(exp, l) :=
    match l with
    | e :: d :: l' =>
        if is_exp e && is_digit d
        then let '(ds, rest) := span_digits (d :: l') in (Some ([], ds), rest)
        else if is_exp e && is_sign d
        then match l' with
             | d' :: _ =>
                 if is_digit d'
                 then let '(ds, rest) := span_digits l' in (Some ([d], ds), rest)
                 else (None, l)
             | [] => (None, l)
             end
        else (None, l)
    | _ => (None, l)
    end in
  {| s_sign := sign; s_int := int; s_frac := frac; s_exp := exp; s_rest := l |}.

Definition number_text (s : Scanned) : list ascii :=
  s_sign s ++ s_int s
  ++ match s_frac s with Some ds => "."%char :: ds | None => [] end
  ++ match s_exp s with Some (sg, ds) => "e"%char :: sg ++ ds | None => [] end.

(** [parser.unit(value)]: [false], or the number and the unit. *)
Definition unit (value : string) : option (string * string) :=
  let l := list_ascii_of_string value in
  if likeNumber l then
    let s := scan l in
    let n := (List.length l - List.length (s_rest s))%nat in
    Some (string_of_list_ascii (take n l), string_of_list_ascii (s_rest s))
  else None.

Definition digits_value (ds : list ascii) : Z :=
  fold_left (fun acc c => (10 * acc + (Z.of_nat (nat_of_ascii c) - 48))%Z) ds 0%Z.

Definition pow10 (e : Z) : Q :=
  if (0 <=? e)%Z then inject_Z (10 ^ e) else 1 / inject_Z (10 ^ (- e)).

Definition is_minus (sign : list ascii) : bool :=
  match sign with c :: _ => Ascii.eqb c "-" | [] => false end.

(** [Number(s)] for a decimal literal; the empty string is 0 and any other
    text is [NaN]. *)
Definition Number (s : string) : num :=
  let l := list_ascii_of_string s in
  match l with
  | [] => Fin 0
  | _ =>
    let sc := scan l in
    let '(frac, l') :=
      match s_frac sc, s_rest sc with
      | None, c :: rest =>
          if Ascii.eqb c "." && negb (match s_int sc with [] => true | _ => false end)
             && match s_exp sc with None => true | Some _ => false end
          then ([], rest) else ([], s_rest sc)
      | Some ds, _ => (ds, s_rest sc)
      | None, [] => ([], [])
      end in
    match l', s_int sc ++ frac with
    | [], _ :: _ =>
        let mantissa :=
          inject_Z (digits_value (s_int sc ++ frac))
          * pow10 (- Z.of_nat (List.length frac)) in
        let e :=
          match s_exp sc with
          | Some (sg, ds) => if is_minus sg then (- digits_value ds)%Z else digits_value ds
          | None => 0%Z
          end in
        let v := Qred (mantissa * pow10 e) in
        Fin (if is_minus (s_sign sc) then - v else v)
    | _, _ => NaN
    end
  end.

(** [parseFloat(s)]: the number at the start of the text. *)
Definition parseFloat (s : string) : num :=
  match unit s with Some (number, _) => Number number | None => NaN end.

(** The text of a number: the integer part and at most twenty decimals. *)
Fixpoint decimals (n : nat) (r d : Z) : string :=
  match n with
  | O => ""
  | S n =>
      if (r =? 0)%Z then ""
      else pretty (10 * r / d)%Z +:+ decimals n ((10 * r) mod d)%Z d
  end.

Definition show_Q (q : Q) : string :=
  let a := Qabs q in
  let i := Qfloor a in
  let d := Z.pos (Qden a) in
  let r := (Qnum a - i * d)%Z in
  (if Qle_bool 0 q then "" else "-")
  +:+ pretty i
  +:+ (if (r =? 0)%Z then "" else "." +:+ decimals 20 r d).

Definition show (a : num) : string :=
  match a with
  | Fin q => show_Q q
  | NaN => "NaN"
  | Undef => "undefined"
  end.

(** The largest [r] with [r ^ k <= n], by bisection. *)
Fixpoint iroot_loop (steps : nat) (k : Z) (n lo hi : Z) : Z :=
  match steps with
  | O => lo
  | S steps =>
      let mid := ((lo + hi) / 2)%Z in
      if (mid ^ k <=? n)%Z then iroot_loop steps k n mid hi
      else iroot_loop steps k n lo mid
  end.
Definition iroot (k n : Z) : Z :=
  iroot_loop (Z.to_nat (Z.log2 n + 2)) k n 0 (n + 1).

Definition pow_scale : Z := (10 ^ 12)%Z.

(** [Math.pow(x, y)] for [x >= 0] and [y >= 0]; other arguments are [NaN]. *)
Definition pow (x y : num) : num :=
  match x, y with
  | Fin x, Fin y =>
      let y := Qred y in
      if Qle_bool 0 x && Qle_bool 0 y then
        let a := Qnum y in
        let b := Z.pos (Qden y) in
        let n := (Qnum x ^ a * pow_scale ^ b / Z.pos (Qden x) ^ a)%Z in
        Fin (Qred (inject_Z (iroot b n) / inject_Z pow_scale))
      else NaN
  | _, _ => NaN
  end.

Definition PI : num := Fin 3.141592653589793.

(** [parser.stringify(nodes)] *)
Fixpoint stringifyNode (node : Node) : string :=
  match node with
  | MkNode t_comment value _ => "/*" +:+ value +:+ "*/"
  | MkNode t_function value (Some children) =>
      value +:+ "(" +:+ fold_right (fun n acc => stringifyNode n +:+ acc) "" children +:+ ")"
  | MkNode _ value _ => value
  end.
Definition stringify (l : list Node) : string :=
  fold_right (fun n acc => stringifyNode n +:+ acc) "" l.

(** *** @csstools/convert-colors *)

Definition max3 (a b c : num) : num := JS.Math_max (JS.Math_max a b) c.
Definition min3 (a b c : num) : num := JS.Math_min (JS.Math_min a b) c.

Definition rgb2value := max3.
Definition rgb2whiteness := min3.

Definition rgb2hue (rgbR rgbG rgbB fallbackhue : num) : num :=
  let value := rgb2value rgbR rgbG rgbB in
  let whiteness := rgb2whiteness rgbR rgbG rgbB in
  let delta := JS.sub value whiteness in
  if JS.truthy delta then
    let segment :=
      if JS.strict_eq value rgbR then JS.div (JS.sub rgbG rgbB) delta
      else if JS.strict_eq value rgbG then JS.div (JS.sub rgbB rgbR) delta
      else JS.div (JS.sub rgbR rgbG) delta in
    let shift :=
      if JS.strict_eq value rgbR then
        (if JS.lt segment (Fin 0) then Fin 6 else Fin 0)
      else if JS.strict_eq value rgbG then Fin 2
      else Fin 4 in
    JS.mul (JS.add segment shift) (Fin 60)
  else fallbackhue.

Definition hue2rgb (t1 t2 hue : num) : num :=
  let rhue :=
    if JS.lt hue (Fin 0) then JS.add hue (Fin 360)
    else if JS.gt hue (Fin 360) then JS.sub hue (Fin 360)
    else hue in
  if JS.lt (JS.mul rhue (Fin 6)) (Fin 360)
  then JS.add t1 (JS.div (JS.mul (JS.sub t2 t1) rhue) (Fin 60))
  else if JS.lt (JS.mul rhue (Fin 2)) (Fin 360) then t2
  else if JS.lt (JS.mul rhue (Fin 3)) (Fin 720)
  then JS.add t1 (JS.div (JS.mul (JS.sub t2 t1) (JS.sub (Fin 240) rhue)) (Fin 60))
  else t1.

Definition rgb2hsl (rgbR rgbG rgbB fallbackhue : num) : num * num * num :=
  let hslH := rgb2hue rgbR rgbG rgbB fallbackhue in
  let hslV := rgb2value rgbR rgbG rgbB in
  let hslW := rgb2whiteness rgbR rgbG rgbB in
  let hslD := JS.sub hslV hslW in
  let hslL := JS.div (JS.add hslV hslW) (Fin 2) in
  let hslS :=
    if JS.strict_eq hslD (Fin 0) then Fin 0
    else JS.mul
           (JS.div hslD
              (JS.sub (Fin 100) (JS.Math_abs (JS.sub (JS.mul (Fin 2) hslL) (Fin 100)))))
           (Fin 100) in
  (hslH, hslS, hslL).

Definition hsl2rgb (hslH hslS hslL : num) : num * num * num :=
  let t2 :=
    if JS.le hslL (Fin 50)
    then JS.div (JS.mul hslL (JS.add hslS (Fin 100))) (Fin 100)
    else JS.sub (JS.add hslL hslS) (JS.div (JS.mul hslL hslS) (Fin 100)) in
  let t1 := JS.sub (JS.mul hslL (Fin 2)) t2 in
  (hue2rgb t1 t2 (JS.add hslH (Fin 120)),
   hue2rgb t1 t2 hslH,
   hue2rgb t1 t2 (JS.sub hslH (Fin 120))).

Definition rgb2hwb (rgbR rgbG rgbB fallbackhue : num) : num * num * num :=
  let hwbH := rgb2hue rgbR rgbG rgbB fallbackhue in
  let hwbW := rgb2whiteness rgbR rgbG rgbB in
  let hwbV := rgb2value rgbR rgbG rgbB in
  let hwbB := JS.sub (Fin 100) hwbV in
  (hwbH, hwbW, hwbB).

Definition hwb2rgb (hwbH hwbW hwbB : num) : num * num * num :=
  let '(r, g, b) := hsl2rgb hwbH (Fin 100) (Fin 50) in
  let f v :=
    JS.add (JS.div (JS.mul v (JS.sub (JS.sub (Fin 100) hwbW) hwbB)) (Fin 100)) hwbW in
  (f r, f g, f b).

Definition hsl2hwb (hslH hslS hslL : num) : num * num * num :=
  let '(r, g, b) := hsl2rgb hslH hslS hslL in
  let '(_, hwbW, hwbB) := rgb2hwb r g b (Fin 0) in
  (hslH, hwbW, hwbB).

Definition hwb2hsl (hwbH hwbW hwbB : num) : num * num * num :=
  let '(r, g, b) := hwb2rgb hwbH hwbW hwbB in
  rgb2hsl r g b hwbH.

End Reference.

Definition js : Runtime :=
  {| parser_unit := Reference.unit;
     parser_stringify := Reference.stringify;
     Number := Reference.Number;
     parseFloat := Reference.parseFloat;
     Math_pow := Reference.pow;
     Math_PI := Reference.PI;
     show := Reference.show;
     rgb2hue := Reference.rgb2hue;
     hsl2rgb := Reference.hsl2rgb;
     hwb2rgb := Reference.hwb2rgb;
     rgb2hsl := Reference.rgb2hsl;
     hwb2hsl := Reference.hwb2hsl;
     rgb2hwb := Reference.rgb2hwb;
     hsl2hwb := Reference.hsl2hwb |}.

(** The default options of the plugin: [unresolved: 'throw'], the legacy
    stringifier, [transformVars: true]. *)
Definition default_opts (rt : Runtime) (customProperties : gmap string (list Node)) : Opts :=
  {| unresolved := "throw";
     stringifier := Some (color2legacyString rt);
     transformVars := true;
     customProperties := customProperties |}.

Definition with_unresolved (opts : Opts) (policy : string) : Opts :=
  {| unresolved := policy; stringifier := stringifier opts;
     transformVars := transformVars opts;
     customProperties := customProperties opts |}.

(** Builders for token trees. *)
Definition w (value : string) : Node := MkNode t_word value None.
Definition sp : Node := MkNode t_space " " None.
Definition fn (value : string) (children : list Node) : Node :=
  MkNode t_function value (Some children).

(** ** Custom properties of a style sheet *)

(** A node of the PostCSS tree, with the fields that [getCustomProperties]
    reads: its [type]; the [selector] of a rule; the [prop] and the [value]
    of a declaration; the child [nodes] of a container. *)
#[warnings="-register-all"]
Inductive CssNode : Type :=
| MkCss (css_type css_selector css_prop css_value : string)
        (css_nodes : option (list CssNode)).

Definition css_type (n : CssNode) : string := let 'MkCss t _ _ _ _ := n in t.
Definition css_selector (n : CssNode) : string := let 'MkCss _ s _ _ _ := n in s.
Definition css_prop (n : CssNode) : string := let 'MkCss _ _ p _ _ := n in p.
Definition css_value (n : CssNode) : string := let 'MkCss _ _ _ v _ := n in v.
Definition css_nodes (n : CssNode) : option (list CssNode) :=
  let 'MkCss _ _ _ _ ns := n in ns.

(** The node with other children, as [remove] leaves its parent. *)
Definition set_css_nodes (n : CssNode) (children : list CssNode) : CssNode :=
  let 'MkCss t s p v _ := n in MkCss t s p v (Some children).

(** [rule.nodes.slice()] where the rule has been accepted. *)
Definition css_children (n : CssNode) : list CssNode :=
  match css_nodes n with Some children => children | None => [] end.

Definition htmlSelectorRegExp := one_of_i ["html"].
Definition rootSelectorRegExp := one_of_i [":root"].

(** [[A-z]]: the characters from [A] to [z], and [[\w-]]. *)
Definition is_A_to_z (c : ascii) : bool :=
  let n := nat_of_ascii c in (65 <=? n)%nat && (n <=? 122)%nat.
Definition is_word_or_dash (c : ascii) : bool :=
  let n := nat_of_ascii c in
  ((48 <=? n)%nat && (n <=? 57)%nat) || ((65 <=? n)%nat && (n <=? 90)%nat)
  || ((97 <=? n)%nat && (n <=? 122)%nat) || (n =? 95)%nat || (n =? 45)%nat.

(** [/^--[A-z][\w-]*$/.test(prop)] *)
Definition customPropertyRegExp (prop : string) : bool :=
  match prop with
  | String "-" (String "-" (String c rest)) =>
      is_A_to_z c && forallb is_word_or_dash (list_ascii_of_string rest)
  | _ => false
  end.

(** [Object(node.nodes).length] as a condition. *)
Definition has_children (n : CssNode) : bool :=
  match css_nodes n with Some (_ :: _) => true | _ => false end.

Definition isHtmlRule (n : CssNode) : bool :=
  String.eqb (css_type n) "rule" && htmlSelectorRegExp (css_selector n) && has_children n.
Definition isRootRule (n : CssNode) : bool :=
  String.eqb (css_type n) "rule" && rootSelectorRegExp (css_selector n) && has_children n.
Definition isCustomDecl (n : CssNode) : bool :=
  String.eqb (css_type n) "decl" && customPropertyRegExp (css_prop n).
Definition isEmptyParent (n : CssNode) : bool :=
  match css_nodes n with Some [] => true | _ => false end.

Section CustomProperties.

(** postcss-value-parser: the nodes of [parser(value)]. *)
Variable parser : string -> list Node.

(** The loop over the declarations of an accepted rule: the table with the
    custom properties of the rule written to it, and the declarations that
    stay in the rule. *)
Definition collectDecls (preserve : bool) (table : gmap string (list Node))
    (decls : list CssNode) : gmap string (list Node) * list CssNode :=
  fold_left
    (fun '(table, kept) decl =>
       if isCustomDecl decl then
         (<[css_prop decl := parser (css_value decl)]> table,
          if preserve then kept ++ [decl] else kept)
       else (table, kept ++ [decl]))
    decls (table, []).

(** [getCustomProperties(root, opts)] on the nodes of [root]: the table it
    returns and the nodes of [root] as it leaves them. *)
Definition getCustomProperties (root : list CssNode) (preserve : bool)
    : gmap string (list Node) * list CssNode :=
  let '(customPropertiesFromHtmlElement, customPropertiesFromRootPsuedo, kept) :=
    fold_left
      (fun '(fromHtml, fromRoot, kept) rule =>
         if isHtmlRule rule then
           let '(fromHtml, decls) := collectDecls preserve fromHtml (css_children rule) in
           let rule := if preserve then rule else set_css_nodes rule decls in
           (fromHtml, fromRoot,
            if negb preserve && isEmptyParent rule then kept else kept ++ [rule])
         else if isRootRule rule then
           let '(fromRoot, decls) := collectDecls preserve fromRoot (css_children rule) in
           let rule := if preserve then rule else set_css_nodes rule decls in
           (fromHtml, fromRoot,
            if negb preserve && isEmptyParent rule then kept else kept ++ [rule])
         else (fromHtml, fromRoot, kept ++ [rule]))
      root (∅, ∅, []) in
  (customPropertiesFromRootPsuedo ∪ customPropertiesFromHtmlElement, kept).

End CustomProperties.

(** * Definitions used by the statements *)

(** The channels, other than the hue, that a method of [Color] assigns. *)
Definition assigned_channels : list channel :=
  [ch_alpha; ch_red; ch_green; ch_blue; ch_saturation; ch_lightness;
   ch_whiteness; ch_blackness].

Definition black : Color := new_Color js (rgb_object (Fin 0) (Fin 0) (Fin 0) (Fin 100) "rgb").
Definition white : Color :=
  new_Color js (rgb_object (Fin 100) (Fin 100) (Fin 100) (Fin 100) "rgb").

(** The hue stored by [hue(args)] applied to the color [hsl(h 100% 50%)]. *)
Definition hue_after (h : Q) (args : list Node) : option num :=
  match
    transformHueAdjuster js
      (VColor (new_Color js (hsl_object (Fin h) (Fin 100) (Fin 50) (Fin 100))))
      (fn "hue" args) (default_opts js ∅) []
  with
  | (Ret (VColor c), _) => Some (hue c)
  | _ => None
  end.

(** [base] in the colorspace that [blend] works in. *)
Definition in_space (rt : Runtime) (colorspace : string) (c : Color) : Color :=
  if String.eqb colorspace "hsl" then color2hsl rt c
  else if String.eqb colorspace "hwb" then color2hwb rt c
  else color2rgb rt c.

(** The channels of that colorspace, alpha apart. *)
Definition space_channels (colorspace : string) : list channel :=
  if String.eqb colorspace "hsl" then [ch_hue; ch_saturation; ch_lightness]
  else if String.eqb colorspace "hwb" then [ch_hue; ch_whiteness; ch_blackness]
  else [ch_red; ch_green; ch_blue].

(** The expression that [blend] evaluates for a channel:
    [x1 * (1 - percentage / 100) + x2 * (percentage / 100)]. *)
Definition weighted (percentage x1 x2 : num) : num :=
  JS.add (JS.mul x1 (JS.sub (Fin 1) (JS.div percentage (Fin 100))))
         (JS.mul x2 (JS.div percentage (Fin 100))).


(** The alpha slot of the modern forms, and of the legacy forms. *)
Definition modern_alpha_slot (rt : Runtime) (a : num) : string :=
  if JS.strict_eq a (Fin 100) then ""
  else " / " +:+ rt.(show) (round10 a) +:+ "%".
Definition legacy_alpha_slot (rt : Runtime) (a : num) : string :=
  if JS.strict_eq a (Fin 100) then ""
  else ", " +:+ rt.(show) (round10 (JS.div a (Fin 100))).

Definition nearly_opaque : Color :=
  new_Color js (rgb_object (Fin 0) (Fin 0) (Fin 0) (Fin 100.000000000001) "rgb").

(** [m] returns [v] and leaves the warnings as they are. *)
Definition pure_at {A : Type} (m : M A) (v : A) : Prop :=
  forall s, m s = (Ret v, s).

(** [m] adds no warning and does not raise the error of [manageUnresolved]. *)
Definition quiet {A : Type} (m : M A) : Prop :=
  forall s, snd (m s) = s
            /\ match fst (m s) with Throw (DeclError _ _) => False | _ => True end.

(** [l.map((x, index) => g(index, x))], counting from [i]. *)
Fixpoint imap_from {A B : Type} (i : nat) (g : nat -> A -> B) (l : list A) : list B :=
  match l with
  | [] => []
  | x :: l => g i x :: imap_from (S i) g l
  end.

(** The specification of the matcher, for positions that act as functions:
    [ev f child] is what position [f] yields on [child] under
    [{ unresolved: 'ignore' }]. *)
Section MatcherSpec.

Variable ev : Param -> Node -> Val.

(** What a pattern yields, child by child: a child beyond the positions of
    the pattern yields [undefined]. *)
Definition pattern_values (children : list Node) (param : list Param) : list Val :=
  List.filter not_boolean
    (imap_from 0
       (fun index child =>
          match nth_error param index with
          | Some f => ev f child
          | None => undefined
          end)
       children).


End MatcherSpec.

(** The children the matcher looks at. *)
Definition matched_children (node : Node) : list Node :=
  List.filter not_space_or_comment (nodes_or_empty node).

(** [m] returns a value without touching the warnings. *)
Definition returns {A : Type} (m : M A) : Prop := exists v, pure_at m v.

(** What a position yields on a child under [{ unresolved: 'ignore' }]. *)
Definition eval_position (f : Param) (child : Node) : Val :=
  match fst (f child ignore_opts []) with
  | Ret v => v
  | _ => undefined
  end.

(** The positions that the patterns of [transform.js] are made of. *)
Inductive leaf_position (rt : Runtime) : Param -> Prop :=
| leaf_isComma : leaf_position rt (validator isComma)
| leaf_isSlash : leaf_position rt (validator isSlash)
| leaf_transformNode : leaf_position rt transformNode
| leaf_transformWord : leaf_position rt transformWord
| leaf_transformColorSpace : leaf_position rt transformColorSpace
| leaf_transformPercentage : leaf_position rt (transformPercentage rt)
| leaf_transformAlpha : leaf_position rt (transformAlpha rt)
| leaf_transformRGBNumber : leaf_position rt (transformRGBNumber rt)
| leaf_transformHue : leaf_position rt (transformHue rt)
| leaf_transformMinusPlusOperator : leaf_position rt transformMinusPlusOperator
| leaf_transformTimesOperator : leaf_position rt transformTimesOperator
| leaf_transformMinusPlusTimesOperator : leaf_position rt transformMinusPlusTimesOperator
| leaf_transformHexColor : leaf_position rt (transformHexColor rt).




Definition contrast_10_20 : Node := fn "contrast" [w "10%"; sp; w "20%"].
Definition contrast_10 : Node := fn "contrast" [w "10%"].

(** The channel an adjuster call works on, from the name of the call. *)
Definition adjuster_channel (name : string) : option channel :=
  channel_of_name (if alphaMatch (lower name) then "alpha" else lower name).
Definition blsw_channel (name : string) : option channel :=
  channel_of_name (longChannelName (lower name)).

Definition half_transparent_gray : Color :=
  new_Color js (rgb_object (Fin 50) (Fin 50) (Fin 50) (Fin 50) "rgb").

Definition not_a_color_site : Node := fn "color-mod" [w "not-a-color"].

Definition var_with_fallback : Node :=
  fn "var" [w "--missing"; MkNode t_div "," None; fn "a" [fn "b" [w "red"]]].

(** Whether the dispatch of [transformColorByAdjusters] recognises the node. *)
Definition known_adjuster (node : Node) : bool :=
  isAlphaBlueGreenRedAdjuster node || isRGBAdjuster node || isHueAdjuster node
  || isBlacknessLightnessSaturationWhitenessAdjuster node
  || isShadeTintAdjuster node || isBlendAdjuster node || isContrastAdjuster node.

Definition bogus_adjuster : Node := fn "bogus" [w "20%"].

(** The colorspace in which the method of [Color] named after a channel
    works; the alpha method works on the color as it is. *)
Definition channel_space (ch : channel) : string :=
  match ch with
  | ch_red | ch_green | ch_blue => "rgb"
  | ch_hue | ch_saturation | ch_lightness => "hsl"
  | ch_whiteness | ch_blackness => "hwb"
  | ch_alpha => ""
  end.

(** The three numbers are [x], up to the equality of rationals. *)
Definition gray_triple (x : Q) (rgb : num * num * num) : Prop :=
  let '(r, g, b) := rgb in
  JS.num_eq r (Fin x) /\ JS.num_eq g (Fin x) /\ JS.num_eq b (Fin x).

(** The luminance that [contrast] and [colors2contrast] compute for a color. *)
Definition luminance_of (rt : Runtime) (c : Color) : num :=
  let rgb := color2rgb rt c in
  rgb2luminance rt (red rgb) (green rgb) (blue rgb).

(** The texts [#rgb], [#rgba], [#rrggbb] and [#rrggbbaa]. *)
Definition hex3 (r g b : ascii) : string := String "#" (String r (String g (String b ""))).
Definition hex4 (r g b a : ascii) : string :=
  String "#" (String r (String g (String b (String a "")))).
Definition hex6 (r1 r0 g1 g0 b1 b0 : ascii) : string :=
  String "#" (String r1 (String r0 (String g1 (String g0 (String b1 (String b0 "")))))).
Definition hex8 (r1 r0 g1 g0 b1 b0 a1 a0 : ascii) : string :=
  String "#" (String r1 (String r0 (String g1 (String g0 (String b1 (String b0
    (String a1 (String a0 "")))))))).

(** The channels that a color literal gives. *)
Definition percentage_channels : list channel := [ch_red; ch_green; ch_blue; ch_alpha].

(** The entry of the table is a lowercase name with three bytes. *)
Definition well_formed_entry (entry : string * (Z * Z * Z)) : bool :=
  let '(name, (r, g, b)) := entry in
  String.eqb (lower name) name
  && (0 <=? r)%Z && (r <=? 255)%Z && (0 <=? g)%Z && (g <=? 255)%Z
  && (0 <=? b)%Z && (b <=? 255)%Z.

(** What a policy allows: a warning under "warn" only, the error of
    [manageUnresolved] under a policy that is neither "warn" nor "ignore". *)
Definition may_warn (policy : string) : bool := String.eqb "warn" policy.
Definition may_raise (policy : string) : bool :=
  negb (String.eqb "warn" policy) && negb (String.eqb "ignore" policy).

(** [m] keeps the warnings it is given, adds some only if the policy allows
    it, and raises the error of [manageUnresolved] only if the policy allows
    it. *)
Definition obeys (policy : string) {A : Type} (m : M A) : Prop :=
  forall s,
    (exists added,
        snd (m s) = s ++ added /\ (if may_warn policy then True else added = []))
    /\ match fst (m s) with
       | Throw (DeclError _ _) => may_raise policy = true
       | _ => True
       end.

(** The nesting of function nodes below a node. *)
Fixpoint height (n : Node) : nat :=
  match n with
  | MkNode _ _ (Some children) => S (list_max (List.map height children))
  | MkNode _ _ None => 0
  end.

(** No function node of the tree is a color-mod() call. *)
Fixpoint color_mod_free (n : Node) : bool :=
  negb (match n with MkNode t v _ => NodeType_eqb t t_function && colorModMatch v end)
  && match n with
     | MkNode _ _ (Some children) => forallb color_mod_free children
     | MkNode _ _ None => true
     end.

Definition gradient : Node := fn "linear-gradient" [w "red"; MkNode t_div "," None; w "blue"].

(** No function node of the tree is a var() call. *)
Fixpoint var_free (n : Node) : bool :=
  negb (match n with MkNode t v _ => NodeType_eqb t t_function && varMatch v end)
  && match n with
     | MkNode _ _ (Some children) => forallb var_free children
     | MkNode _ _ None => true
     end.

Definition blend_site : Node :=
  fn "color-mod" [w "red"; sp; fn "blend" [w "blue"; sp; w "50%"]].


(** The value that an operator of an adjuster computes. *)
Definition operate (operator : string) (existing adjustment : num) : num :=
  if String.eqb operator "+" then JS.add existing adjustment
  else if String.eqb operator "-" then JS.sub existing adjustment
  else JS.mul existing adjustment.

Definition lightness_plus_10 : Node := fn "lightness" [w "+"; sp; w "10%"].

Definition blend_in_HSL : Node := fn "blend" [w "white"; sp; w "50%"; sp; w "HSL"].
Definition named_white : Color :=
  new_Color js
    (rgb_object (byte_to_percent 255) (byte_to_percent 255) (byte_to_percent 255)
       (Fin 100) "rgb").

(** The two lists of children differ only where the pattern holds a
    validator. *)
Definition differ_at_validators (param : list Param) (children children' : list Node) : Prop :=
  List.length children = List.length children'
  /\ forall index child child',
       nth_error children index = Some child ->
       nth_error children' index = Some child' ->
       child = child' \/ exists f, nth_error param index = Some (validator f).

(** The custom declarations of the top-level rules that [accepts] holds of,
    in the order of the sheet. *)
Definition declared (accepts : CssNode -> bool) (root : list CssNode) : list CssNode :=
  List.filter isCustomDecl (List.concat (map css_children (List.filter accepts root))).

(** The value of the last declaration of [name]. *)
Definition last_value (name : string) (decls : list CssNode) : option string :=
  option_map css_value
    (List.find (fun decl => String.eqb (css_prop decl) name) (rev decls)).

(** What a declaration does to the table. *)
Definition write_decl (parser : string -> list Node)
    (table : gmap string (list Node)) (decl : CssNode)
    : gmap string (list Node) :=
  if isCustomDecl decl then <[css_prop decl := parser (css_value decl)]> table else table.

(** The rules the loop leaves in the sheet. *)
Definition left_in_sheet (preserve : bool) (rule : CssNode) : list CssNode :=
  if isHtmlRule rule || isRootRule rule then
    let rule' :=
      if preserve then rule
      else set_css_nodes rule
             (List.filter (fun decl => negb (isCustomDecl decl)) (css_children rule)) in
    if negb preserve && isEmptyParent rule' then [] else [rule']
  else [rule].

Definition rgb_50 : Node := fn "rgb" [w "50%"].
Definition hsl_120_50 : Node := fn "hsl" [w "120"; sp; w "50%"].

Definition rgb_plus_10_20_30 : Node :=
  fn "rgb" [w "+"; sp; w "10%"; sp; w "20%"; sp; w "30%"].

(** A computation that returns something else than a color has reported it:
    the policy is "warn" or "ignore", and under "warn" a warning has been
    added. *)
Definition reports (policy : string) (m : M Val) : Prop :=
  forall s v s',
    m s = (Ret v, s') ->
    is_color v = false ->
    may_raise policy = false
    /\ (may_warn policy = true -> exists added, s' = s ++ added /\ added <> []).

(** The node is none of the forms that [transformColorModFunction] accepts
    as its first argument: no hue, no rgb(), hsl(), hwb() or color-mod()
    call, no hex color, no named color, and no word that names a property
    inherited from [Object.prototype]. *)
Definition no_color_form (rt : Runtime) (node : Node) : bool :=
  negb (isHue rt node) && negb (isRGBFunction node) && negb (isHSLFunction node)
  && negb (isHWBFunction node) && negb (isColorModFunction node)
  && negb (isHexColor node)
  && (negb (is_type t_word node)
      || (match assoc (value node) names with Some _ => false | None => true end
          && negb (one_of object_prototype_keys (value node)))).

(** One step of the [reduce] of [transformColorByAdjusters]. *)
Definition adjust (rt : Runtime) (opts : Opts) (fuel : nat) (transformColor : Param)
    (base : Val) (node : Node) : M Val :=
  if isAlphaBlueGreenRedAdjuster node then
    transformAlphaBlueGreenRedAdjuster rt base node opts
  else if isRGBAdjuster node then transformRGBAdjuster rt base node opts
  else if isHueAdjuster node then transformHueAdjuster rt base node opts
  else if isBlacknessLightnessSaturationWhitenessAdjuster node then
    transformBlacknessLightnessSaturationWhitenessAdjuster rt base node opts
  else if isShadeTintAdjuster node then transformShadeTintAdjuster rt base node opts
  else if isBlendAdjuster node then
    transformBlendAdjuster rt transformColor base node (String.eqb (value node) "blenda") opts
  else if isContrastAdjuster node then transformContrastAdjuster rt fuel base node opts
  else
    let* _ := manageUnresolved node opts (value node) "Expected a valid color adjuster" in
    ret base.

Definition constructor_site : Node := fn "color-mod" [w "constructor"].

(** * Properties *)

(** ** Numbers *)

Lemma clamp_between (q : Q) : 0 <= Qmin (Qmax q 0) 100 /\ Qmin (Qmax q 0) 100 <= 100.
Proof.
  split.
  - apply Q.min_glb; [apply Q.le_max_r | discriminate].
  - apply Q.le_min_r.
Qed.

Lemma clamp_above (q : Q) : 100 < q -> Qmin (Qmax q 0) 100 = 100.
Proof.
  intros H. unfold Qmin, GenericMinMax.gmin.
  destruct (Qmax q 0 ?= 100) eqn:E; try reflexivity.
  - apply Qeq_alt in E. pose proof (Q.le_max_l q 0). lra.
  - apply Qlt_alt in E. pose proof (Q.le_max_l q 0). lra.
Qed.

Lemma clamp_below (q : Q) : q < 0 -> Qmin (Qmax q 0) 100 = 0.
Proof.
  intros H. unfold Qmax, GenericMinMax.gmax.
  destruct (q ?= 0) eqn:E.
  - apply Qeq_alt in E. lra.
  - reflexivity.
  - apply Qgt_alt in E. lra.
Qed.

Lemma clamp_inside (q : Q) : 0 <= q -> q <= 100 -> Qmin (Qmax q 0) 100 == q.
Proof.
  intros H0 H1. rewrite Q.max_l by assumption. apply Q.min_l. assumption.
Qed.

(** ** The color model *)

Section ColorProperties.

Variable rt : Runtime.

Lemma normalize_clamps (q : Q) (ch : channel) :
  channel_eqb ch ch_hue = false ->
  normalize (Fin q) ch = Fin (Qmin (Qmax q 0) 100).
Proof. intros H. unfold normalize. rewrite H. reflexivity. Qed.

Lemma normalize_hue (q : Q) :
  normalize (Fin q) ch_hue = Fin (Qmin (Qmax (JS.Qrem q 360) 0) 360).
Proof. reflexivity. Qed.

Lemma get_set_channel (c : Color) (ch : channel) (v : num) :
  get_channel (set_channel c ch v) ch = v.
Proof. destruct ch; reflexivity. Qed.

Lemma get_set_channel_other (c : Color) (ch ch' : channel) (v : num) :
  channel_eqb ch ch' = false ->
  get_channel (set_channel c ch v) ch' = get_channel c ch'.
Proof. destruct ch, ch'; simpl; intros H; try discriminate H; reflexivity. Qed.

(** The constructor touches the colorspace tag and the hue only. *)
Lemma new_Color_channel (c : Color) (ch : channel) :
  channel_eqb ch_hue ch = false ->
  get_channel (new_Color rt c) ch = get_channel c ch.
Proof.
  intros H. unfold new_Color.
  match goal with |- context [set_colorspace c ?s] => generalize s end.
  intros s. destruct (String.eqb (colorspace (set_colorspace c s)) "rgb").
  - rewrite get_set_channel_other by assumption. destruct ch; reflexivity.
  - destruct ch; reflexivity.
Qed.

(** One step of [assign], read at a channel other than the hue. *)
Lemma assign_channel_get (base color : Color) (ch ch' : channel) (v : num) :
  channel_eqb ch_hue ch' = false ->
  get_channel (assign_channel rt base color ch v) ch'
  = if channel_eqb ch ch' then normalize v ch else get_channel color ch'.
Proof.
  intros H. unfold assign_channel.
  destruct (negb (channel_eqb ch ch_hue) && blueGreenRedMatch ch).
  - rewrite get_set_channel_other by assumption.
    destruct (channel_eqb ch ch') eqn:E.
    + replace ch' with ch by (destruct ch, ch'; try discriminate E; reflexivity).
      apply get_set_channel.
    + apply get_set_channel_other. assumption.
  - destruct (channel_eqb ch ch') eqn:E.
    + replace ch' with ch by (destruct ch, ch'; try discriminate E; reflexivity).
      apply get_set_channel.
    + apply get_set_channel_other. assumption.
Qed.

Lemma assign_one (base : Color) (ch : channel) (v : num) :
  channel_eqb ch_hue ch = false ->
  get_channel (assign rt base [(ch, v)]) ch = normalize v ch.
Proof.
  intros H. change (assign rt base [(ch, v)]) with (assign_channel rt base base ch v).
  rewrite assign_channel_get by assumption.
  replace (channel_eqb ch ch) with true by (destruct ch; reflexivity). reflexivity.
Qed.

Lemma Color_set_channel (this : Color) (ch : channel) (v : num) :
  channel_eqb ch_hue ch = false ->
  get_channel (Color_set rt this ch v) ch = normalize v ch.
Proof.
  intros H.
  destruct ch; try discriminate H;
    unfold Color_set, Color_alpha, Color_red, Color_green, Color_blue,
      Color_saturation, Color_lightness, Color_whiteness, Color_blackness;
    (etransitivity; [apply (new_Color_channel _ _ H) | apply (assign_one _ _ _ H)]).
Qed.

Lemma Color_rgb_channels (this : Color) (r g b : num) :
  red (Color_rgb rt this r g b) = normalize r ch_red
  /\ green (Color_rgb rt this r g b) = normalize g ch_green
  /\ blue (Color_rgb rt this r g b) = normalize b ch_blue.
Proof.
  unfold Color_rgb.
  set (base := color2rgb rt this).
  change (assign rt base [(ch_red, r); (ch_green, g); (ch_blue, b)])
    with (assign_channel rt base
            (assign_channel rt base (assign_channel rt base base ch_red r) ch_green g)
            ch_blue b).
  set (c := assign_channel rt base
              (assign_channel rt base (assign_channel rt base base ch_red r) ch_green g)
              ch_blue b).
  assert (H : forall ch, channel_eqb ch_hue ch = false ->
            get_channel (new_Color rt c) ch = get_channel c ch)
    by (intros; apply new_Color_channel; assumption).
  assert (G : forall ch, channel_eqb ch_hue ch = false ->
            get_channel c ch
            = if channel_eqb ch_blue ch then normalize b ch_blue
              else if channel_eqb ch_green ch then normalize g ch_green
              else if channel_eqb ch_red ch then normalize r ch_red
              else get_channel base ch).
  { intros ch Hch. unfold c. rewrite !assign_channel_get by assumption. reflexivity. }
  split; [| split].
  - exact (eq_trans (H ch_red eq_refl) (G ch_red eq_refl)).
  - exact (eq_trans (H ch_green eq_refl) (G ch_green eq_refl)).
  - exact (eq_trans (H ch_blue eq_refl) (G ch_blue eq_refl)).
Qed.

End ColorProperties.

(** C2, as amended: a channel other than the hue that alpha, red, green, blue,
    saturation, lightness, whiteness, blackness or rgb assigns from a number
    is that number clamped to [0,100]: it lies in [0,100], a value above 100
    gives 100 and a value below 0 gives 0.  (Constructors and the blend
    family do not clamp.) *)
Theorem C2_assigned_channel_is_clamped :
  forall (rt : Runtime) (this : Color) (q g b : Q),
    let clamp x := Fin (Qmin (Qmax x 0) 100) in
    Forall (fun ch => get_channel (Color_set rt this ch (Fin q)) ch = clamp q
                      /\ JS.between 0 100 (get_channel (Color_set rt this ch (Fin q)) ch))
           assigned_channels
    /\ red (Color_rgb rt this (Fin q) (Fin g) (Fin b)) = clamp q
    /\ green (Color_rgb rt this (Fin q) (Fin g) (Fin b)) = clamp g
    /\ blue (Color_rgb rt this (Fin q) (Fin g) (Fin b)) = clamp b
    /\ (if Qle_bool q 100 then True else clamp q = Fin 100)
    /\ (if Qle_bool 0 q then True else clamp q = Fin 0).
Proof.
  intros rt this q g b clamp.
  assert (Hset : forall ch, channel_eqb ch_hue ch = false ->
            get_channel (Color_set rt this ch (Fin q)) ch = clamp q
            /\ JS.between 0 100 (get_channel (Color_set rt this ch (Fin q)) ch)).
  { intros ch H. rewrite Color_set_channel by assumption.
    rewrite normalize_clamps by (destruct ch; try reflexivity; discriminate H).
    split; [reflexivity | apply clamp_between]. }
  split; [| split; [| split; [| split; [| split]]]].
  - unfold assigned_channels.
    repeat (apply List.Forall_cons; [apply Hset; reflexivity |]). apply List.Forall_nil.
  - apply (Color_rgb_channels rt this (Fin q) (Fin g) (Fin b)).
  - apply (Color_rgb_channels rt this (Fin q) (Fin g) (Fin b)).
  - apply (Color_rgb_channels rt this (Fin q) (Fin g) (Fin b)).
  - destruct (Qle_bool q 100) eqn:E; [exact I |].
    unfold clamp. f_equal. apply clamp_above.
    apply Qnot_le_lt. intros H. apply Qle_bool_iff in H. congruence.
  - destruct (Qle_bool 0 q) eqn:E; [exact I |].
    unfold clamp. f_equal. apply clamp_below.
    apply Qnot_le_lt. intros H. apply Qle_bool_iff in H. congruence.
Qed.

(** C2, the claim as stated fails: blending black toward white by 200% gives
    a red channel of 200, outside [0,100]. *)
Lemma C2_blend_leaves_range :
  JS.num_eq (red (Color_blend js black white (Fin 200) "rgb")) (Fin 200)
  /\ JS.le (red (Color_blend js black white (Fin 200) "rgb")) (Fin 100) = false
  /\ transformAST js 0 3
       [fn "color-mod" [w "black"; sp; fn "blend" [w "white"; sp; w "200%"]]]
       (with_unresolved (default_opts js ∅) "throw") []
     = (Ret [w "rgb(510, 510, 510)"], []).
Proof. repeat split; vm_compute; reflexivity. Qed.

(** ** Hue adjustments (C3) *)

(** C3: [hue(+ 400deg)] on hue 0 and [hue] with [* 2] on hue 200 both store 40, as
    claimed; but [hue(- 10deg)] on hue 0 computes -10, whose remainder by 360
    is -10, and the lower bound of [normalize] then stores 0: the code clamps
    a negative hue where the claim says it wraps (to 350). *)
Theorem C3_negative_hue_is_clamped :
  hue_after 0 [w "+"; sp; w "400deg"] = Some (Fin 40)
  /\ hue_after 200 [w "*"; sp; w "2"] = Some (Fin 40)
  /\ hue_after 0 [w "-"; sp; w "10deg"] = Some (Fin 0)
  /\ normalize (Fin (-10)) ch_hue = Fin 0.
Proof. repeat split; vm_compute; reflexivity. Qed.

(** ** Blending (C7) *)

Lemma alpha_color2rgb (rt : Runtime) (c : Color) : alpha (color2rgb rt c) = alpha c.
Proof. unfold color2rgb. destruct (if _ : bool then _ else _) as [[? ?] ?]. reflexivity. Qed.
Lemma alpha_color2hsl (rt : Runtime) (c : Color) : alpha (color2hsl rt c) = alpha c.
Proof. unfold color2hsl. destruct (if _ : bool then _ else _) as [[? ?] ?]. reflexivity. Qed.
Lemma alpha_color2hwb (rt : Runtime) (c : Color) : alpha (color2hwb rt c) = alpha c.
Proof. unfold color2hwb. destruct (if _ : bool then _ else _) as [[? ?] ?]. reflexivity. Qed.

Lemma blend_channel (rt : Runtime) (base other : Color) (percentage : num)
    (colorspace : string) (isBlendingAlpha : bool) (ch : channel) :
  In ch (space_channels colorspace) ->
  get_channel (blend rt base other percentage colorspace isBlendingAlpha) ch
  = weighted percentage (get_channel (in_space rt colorspace base) ch)
                        (get_channel (in_space rt colorspace other) ch).
Proof.
  unfold space_channels, in_space, blend, weighted.
  destruct (String.eqb colorspace "hsl"); [| destruct (String.eqb colorspace "hwb")];
    intros Hin; simpl in Hin;
    repeat (destruct Hin as [<- | Hin]; [reflexivity |]);
    destruct Hin.
Qed.

Lemma blend_alpha (rt : Runtime) (base other : Color) (p : num) (colorspace : string)
    (isBlendingAlpha : bool) :
  alpha (blend rt base other p colorspace isBlendingAlpha)
  = if isBlendingAlpha then weighted p (alpha base) (alpha other) else alpha base.
Proof.
  unfold blend, weighted.
  destruct (String.eqb colorspace "hsl"); [| destruct (String.eqb colorspace "hwb")];
    simpl; rewrite ?alpha_color2rgb, ?alpha_color2hsl, ?alpha_color2hwb; reflexivity.
Qed.







(** ** Stringifiers (C8) *)

(** [round10] gives a multiple of 1e-10 within half of 1e-10 of its argument. *)
Lemma round10_spec (x : Q) :
  exists k : Z,
    round10 (Fin x) = Fin (inject_Z k / 10000000000)
    /\ x - (1 # 20000000000) < inject_Z k / 10000000000
    /\ inject_Z k / 10000000000 <= x + (1 # 20000000000).
Proof.
  exists (Qfloor (x * 10000000000 + 0.5)). split; [reflexivity |].
  pose proof (Qfloor_le (x * 10000000000 + 0.5)) as Hle.
  pose proof (Qlt_floor (x * 10000000000 + 0.5)) as Hlt.
  rewrite inject_Z_plus in Hlt.
  set (k := inject_Z (Qfloor (x * 10000000000 + 0.5))) in *.
  change (inject_Z 1) with 1 in Hlt.
  split.
  - apply Qlt_shift_div_l; [reflexivity |]. lra.
  - apply Qle_shift_div_r; [reflexivity |]. lra.
Qed.

(** C8, as amended: the modern stringifiers round saturation, lightness,
    whiteness, blackness, the rgb channels and alpha to ten decimals and print
    the hue as it is; the legacy rgb form rounds its channels to whole numbers
    out of 255; and each stringifier omits the alpha slot (the legacy forms
    then use the name without the final a) exactly when the alpha is the
    number 100 itself, before any rounding. *)
Theorem C8_alpha_slot_omitted_iff_alpha_is_100 :
  forall (rt : Runtime) (c : Color),
    let show := rt.(show) in
    let opaque := JS.strict_eq (alpha c) (Fin 100) in
    let to255 x := JS.Math_round (JS.div (JS.mul x (Fin 255)) (Fin 100)) in
    color2rgbString rt c
    = "rgb(" +:+ show (round10 (red (color2rgb rt c))) +:+ "% "
        +:+ show (round10 (green (color2rgb rt c))) +:+ "% "
        +:+ show (round10 (blue (color2rgb rt c))) +:+ "%"
        +:+ modern_alpha_slot rt (alpha c) +:+ ")"
    /\ color2hslString rt c
    = "hsl(" +:+ show (hue (color2hsl rt c)) +:+ " "
        +:+ show (round10 (saturation (color2hsl rt c))) +:+ "% "
        +:+ show (round10 (lightness (color2hsl rt c))) +:+ "%"
        +:+ modern_alpha_slot rt (alpha c) +:+ ")"
    /\ color2hwbString rt c
    = "hwb(" +:+ show (hue (color2hwb rt c)) +:+ " "
        +:+ show (round10 (whiteness (color2hwb rt c))) +:+ "% "
        +:+ show (round10 (blackness (color2hwb rt c))) +:+ "%"
        +:+ modern_alpha_slot rt (alpha c) +:+ ")"
    /\ color2rgbLegacyString rt c
    = (if opaque then "rgb" else "rgba") +:+ "("
        +:+ show (to255 (red (color2rgb rt c))) +:+ ", "
        +:+ show (to255 (green (color2rgb rt c))) +:+ ", "
        +:+ show (to255 (blue (color2rgb rt c)))
        +:+ legacy_alpha_slot rt (alpha c) +:+ ")"
    /\ color2hslLegacyString rt c
    = (if opaque then "hsl" else "hsla") +:+ "("
        +:+ show (hue (color2hsl rt c)) +:+ ", "
        +:+ show (round10 (saturation (color2hsl rt c))) +:+ "%, "
        +:+ show (round10 (lightness (color2hsl rt c))) +:+ "%"
        +:+ legacy_alpha_slot rt (alpha c) +:+ ")".
Proof.
  intros rt c.
  unfold color2rgbString, color2hslString, color2hwbString, color2rgbLegacyString,
    color2hslLegacyString, modern_alpha_slot, legacy_alpha_slot.
  rewrite alpha_color2rgb, alpha_color2hsl, alpha_color2hwb.
  repeat split.
Qed.

(** C8, the claim as stated fails: an alpha of 100.000000000001 rounds to
    exactly 100, yet the alpha slot is printed, and the legacy form uses the
    name rgba. *)
Lemma C8_alpha_rounding_to_100_is_printed :
  JS.strict_eq (round10 (alpha nearly_opaque)) (Fin 100) = true
  /\ color2rgbString js nearly_opaque = "rgb(0% 0% 0% / 100%)"
  /\ color2rgbLegacyString js nearly_opaque = "rgba(0, 0, 0, 1)".
Proof. repeat split; vm_compute; reflexivity. Qed.

(** ** Contrast (C4) *)

Section ContrastProperties.

Variable rt : Runtime.

Lemma within_100 (x y : Q) :
  0 <= x -> x <= 100 -> 0 <= y -> y <= 100 ->
  JS.gt (JS.Math_abs (JS.sub (Fin x) (Fin y))) (Fin 100) = false.
Proof.
  intros. unfold JS.gt, JS.lt, JS.cmp2, JS.Math_abs, JS.sub, JS.lift1, JS.lift2, JS.Qltb.
  apply negb_false_iff. apply Qle_bool_iff.
  apply Qabs_Qle_condition. split; lra.
Qed.

(** With whiteness and blackness in [0,100] on both sides the bisection does
    not iterate: the loop returns the color it started from, whatever the
    fuel. *)
Lemma contrastRatioLoop_no_iteration (fuel : nat) (hwb modifiedHWB : Color)
    (minW minB maxW maxB : Q) :
  0 <= minW -> minW <= 100 -> 0 <= minB -> minB <= 100 ->
  0 <= maxW -> maxW <= 100 -> 0 <= maxB -> maxB <= 100 ->
  contrastRatioLoop rt fuel hwb modifiedHWB (Fin minW) (Fin minB) (Fin maxW) (Fin maxB)
  = Some modifiedHWB.
Proof.
  intros. destruct fuel; cbn [contrastRatioLoop];
    rewrite !within_100 by assumption; reflexivity.
Qed.

Lemma color2hwb_shape (c : Color) :
  exists h wh bl, color2hwb rt c = hwb_object h wh bl (alpha c).
Proof.
  unfold color2hwb. destruct (if _ : bool then _ else _) as [[h wh] bl].
  exists h, wh, bl. reflexivity.
Qed.

Lemma color2hwb_idempotent (c : Color) : color2hwb rt (color2hwb rt c) = color2hwb rt c.
Proof. destruct (color2hwb_shape c) as (h & wh & bl & ->). reflexivity. Qed.

End ContrastProperties.

(** C4: when whiteness and blackness of the base color lie in [0,100] and
    the chosen extreme has a contrast ratio above 4.5, the search returns the
    base color itself as the minimum-contrast color, so that [contrast] at
    100% gives back the hue, whiteness and blackness of the base color: a
    color whose contrast ratio against the base is 1, not one above 4.5. *)
Theorem C4_contrast_at_100_returns_the_base :
  forall (rt : Runtime) (fuel : nat) (color : Color) (h wh bl : Q),
    hue (color2hwb rt color) = Fin h ->
    whiteness (color2hwb rt color) = Fin wh ->
    blackness (color2hwb rt color) = Fin bl ->
    0 <= wh -> wh <= 100 -> 0 <= bl -> bl <= 100 ->
    let rgb := color2rgb rt color in
    let luminance := rgb2luminance rt (red rgb) (green rgb) (blue rgb) in
    JS.gt (colors2contrast rt color (maxContrastColorOf luminance (color2hwb rt color)))
          (Fin 4.5) = true ->
    exists result,
      contrast rt fuel color (Fin 100) = Some result
      /\ colorspace result = "hwb"
      /\ JS.num_eq (hue result) (Fin h)
      /\ JS.num_eq (whiteness result) (Fin wh)
      /\ JS.num_eq (blackness result) (Fin bl).
Proof.
  intros rt fuel color h wh bl Hh Hw Hb Hw0 Hw1 Hb0 Hb1 rgb luminance Hratio.
  unfold contrast. fold rgb. fold luminance. rewrite Hratio.
  unfold colors2contrastRatioColor. rewrite Hw, Hb.
  assert (Hloop : contrastRatioLoop rt fuel (color2hwb rt color) (color2hwb rt color)
            (Fin wh) (Fin bl)
            (whiteness (maxContrastColorOf luminance (color2hwb rt color)))
            (blackness (maxContrastColorOf luminance (color2hwb rt color)))
          = Some (color2hwb rt color)).
  { unfold maxContrastColorOf. destruct (JS.lt luminance (Fin 0.5)); simpl;
      apply contrastRatioLoop_no_iteration; try assumption; lra. }
  rewrite Hloop. eexists. split; [reflexivity |].
  unfold blend. cbn [String.eqb Ascii.eqb Bool.eqb].
  pose proof (color2hwb_idempotent rt color) as Hhwb.
  assert (Hmax : color2hwb rt (maxContrastColorOf luminance (color2hwb rt color))
                 = maxContrastColorOf luminance (color2hwb rt color)).
  { unfold maxContrastColorOf. destruct (JS.lt luminance (Fin 0.5)); reflexivity. }
  rewrite Hhwb, Hmax. rewrite Hh, Hw, Hb.
  unfold maxContrastColorOf. rewrite Hh.
  destruct (JS.lt luminance (Fin 0.5)); simpl; repeat split; field.
Qed.

(** A run of C4: black against the reference runtime.  The extreme is white,
    its ratio is above 4.5, and [contrast] at 100% is black again, whose
    contrast ratio against black is 1. *)
Lemma C4_witness :
  hue (color2hwb js black) = Fin 0
  /\ whiteness (color2hwb js black) = Fin 0
  /\ blackness (color2hwb js black) = Fin 100
  /\ JS.gt (colors2contrast js black
              (maxContrastColorOf
                 (rgb2luminance js (red (color2rgb js black)) (green (color2rgb js black))
                    (blue (color2rgb js black)))
                 (color2hwb js black)))
           (Fin 4.5) = true
  /\ (exists result,
        contrast js 0 black (Fin 100) = Some result
        /\ colorspace result = "hwb"
        /\ JS.num_eq (hue result) (Fin 0)
        /\ JS.num_eq (whiteness result) (Fin 0)
        /\ JS.num_eq (blackness result) (Fin 100))
  /\ option_map (fun result => JS.strict_eq (colors2contrast js result black) (Fin 1))
       (contrast js 0 black (Fin 100)) = Some true.
Proof.
  assert (Hh : hue (color2hwb js black) = Fin 0) by (vm_compute; reflexivity).
  assert (Hw : whiteness (color2hwb js black) = Fin 0) by (vm_compute; reflexivity).
  assert (Hb : blackness (color2hwb js black) = Fin 100) by (vm_compute; reflexivity).
  assert (Hr : JS.gt (colors2contrast js black
              (maxContrastColorOf
                 (rgb2luminance js (red (color2rgb js black)) (green (color2rgb js black))
                    (blue (color2rgb js black)))
                 (color2hwb js black)))
           (Fin 4.5) = true) by (vm_compute; reflexivity).
  repeat (split; [assumption |]).
  split.
  - apply (C4_contrast_at_100_returns_the_base js 0 black 0 0 100 Hh Hw Hb);
      [discriminate | discriminate | discriminate | discriminate | exact Hr].
  - vm_compute. reflexivity.
Defined.

(** ** Computations in [M] *)

Lemma pure_ret {A : Type} (a : A) : pure_at (ret a) a.
Proof. intros s. reflexivity. Qed.

Lemma pure_bind {A B : Type} (m : M A) (k : A -> M B) (a : A) (b : B) :
  pure_at m a -> pure_at (k a) b -> pure_at (bind m k) b.
Proof. intros Hm Hk s. unfold bind. rewrite Hm. apply Hk. Qed.

Lemma pure_quiet {A : Type} (m : M A) (a : A) : pure_at m a -> quiet m.
Proof. intros H s. rewrite H. split; [reflexivity | exact I]. Qed.

Lemma quiet_ret {A : Type} (a : A) : quiet (ret a).
Proof. apply (pure_quiet _ a), pure_ret. Qed.

Lemma quiet_throw_TypeError {A : Type} (what : string) : quiet (@throw A (TypeError what)).
Proof. intros s. split; [reflexivity | exact I]. Qed.

Lemma quiet_out_of_fuel {A : Type} : quiet (@out_of_fuel A).
Proof. intros s. split; [reflexivity | exact I]. Qed.

Lemma quiet_bind {A B : Type} (m : M A) (k : A -> M B) :
  quiet m -> (forall a, quiet (k a)) -> quiet (bind m k).
Proof.
  intros Hm Hk s. unfold bind. specialize (Hm s).
  destruct (m s) as [[a | e |] s']; simpl in Hm; destruct Hm as [-> He].
  - apply Hk.
  - split; [reflexivity | exact He].
  - split; [reflexivity | exact I].
Qed.

Lemma quiet_mapM {A B : Type} (f : A -> M B) (l : list A) :
  (forall x, In x l -> quiet (f x)) -> quiet (mapM f l).
Proof.
  induction l as [| x l IH]; intros H; simpl.
  - apply quiet_ret.
  - apply quiet_bind; [apply H; left; reflexivity |].
    intros y. apply quiet_bind; [apply IH; intros; apply H; right; assumption |].
    intros ys. apply quiet_ret.
Qed.

Lemma quiet_imapM_from {A B : Type} (f : nat -> A -> M B) (l : list A) (i : nat) :
  (forall i x, quiet (f i x)) -> quiet (imapM_from i f l).
Proof.
  intros H. revert i. induction l as [| x l IH]; intros i; simpl.
  - apply quiet_ret.
  - apply quiet_bind; [apply H |].
    intros y. apply quiet_bind; [apply IH |]. intros ys. apply quiet_ret.
Qed.

Lemma quiet_foldM {A B : Type} (f : B -> A -> M B) (l : list A) (init : B) :
  (forall b x, quiet (f b x)) -> quiet (foldM f init l).
Proof.
  intros H. revert init. induction l as [| x l IH]; intros init; simpl.
  - apply quiet_ret.
  - apply quiet_bind; [apply H | intros; apply IH].
Qed.

Lemma pure_mapM {A B : Type} (f : A -> M B) (g : A -> B) (l : list A) :
  (forall x, In x l -> pure_at (f x) (g x)) -> pure_at (mapM f l) (map g l).
Proof.
  induction l as [| x l IH]; intros H; simpl.
  - apply pure_ret.
  - eapply pure_bind; [apply H; left; reflexivity |].
    eapply pure_bind; [apply IH; intros; apply H; right; assumption |].
    apply pure_ret.
Qed.

Lemma pure_imapM_from {A B : Type} (f : nat -> A -> M B) (g : nat -> A -> B)
    (l : list A) (i : nat) :
  (forall j x, nth_error l j = Some x -> pure_at (f (i + j)%nat x) (g (i + j)%nat x)) ->
  pure_at (imapM_from i f l) (imap_from i g l).
Proof.
  revert i. induction l as [| x l IH]; intros i H; simpl.
  - apply pure_ret.
  - eapply pure_bind.
    { specialize (H 0%nat x eq_refl). rewrite Nat.add_0_r in H. exact H. }
    eapply pure_bind; [| apply pure_ret].
    apply IH. intros j y Hj. specialize (H (S j) y Hj).
    rewrite Nat.add_succ_r in H. exact H.
Qed.

Lemma manageUnresolved_ignore (node : Node) (opts : Opts) (word message : string) :
  unresolved opts = "ignore" ->
  pure_at (manageUnresolved node opts word message) undefined.
Proof. intros H s. unfold manageUnresolved. rewrite H. reflexivity. Qed.

(** ** The argument matcher (C5, C6) *)

Lemma paramResults_pure (ev : Param -> Node -> Val) (children : list Node)
    (param : list Param) :
  (forall index f child,
      nth_error param index = Some f -> nth_error children index = Some child ->
      pure_at (f child ignore_opts) (ev f child)) ->
  pure_at (paramResults children param) (pattern_values ev children param).
Proof.
  intros H. unfold paramResults, pattern_values, imapM.
  eapply pure_bind; [| apply pure_ret].
  apply pure_imapM_from with
    (g := fun index child =>
            match nth_error param index with
            | Some f => ev f child
            | None => undefined
            end).
  intros j x Hj. simpl.
  destruct (nth_error param j) as [f |] eqn:E; [apply (H j); assumption | apply pure_ret].
Qed.

(** The matcher refines the specification. *)
Lemma transformArgsByParams_pure (ev : Param -> Node -> Val) (node : Node)
    (params : list (list Param)) :
  (forall param index f child,
      In param params ->
      nth_error param index = Some f ->
      nth_error (matched_children node) index = Some child ->
      pure_at (f child ignore_opts) (ev f child)) ->
  pure_at (transformArgsByParams node params)
    (hd [] (List.filter (forallb defined)
              (map (pattern_values ev (matched_children node)) params))).
Proof.
  intros H. unfold transformArgsByParams. fold (matched_children node).
  eapply pure_bind; [| apply pure_ret].
  apply pure_mapM. intros param Hin. apply paramResults_pure.
  intros index f child. apply H. assumption.
Qed.



(** Quietness of the matcher, from the quietness of the positions. *)
Lemma quiet_transformArgsByParams (node : Node) (params : list (list Param)) :
  (forall param f child, In param params -> In f param -> quiet (f child ignore_opts)) ->
  quiet (transformArgsByParams node params).
Proof.
  intros H. unfold transformArgsByParams.
  apply quiet_bind; [| intros; apply quiet_ret].
  apply quiet_mapM. intros param Hin. unfold paramResults.
  apply quiet_bind; [| intros; apply quiet_ret].
  apply quiet_imapM_from. intros i x.
  destruct (nth_error param i) as [f |] eqn:E; [| apply quiet_ret].
  apply (H param); [assumption |]. eapply nth_error_In. exact E.
Qed.

(** *** The positions of the source are quiet under the ignore policy *)

Ltac quiet_step :=
  lazymatch goal with
  | |- quiet (ret _) => apply quiet_ret
  | |- quiet (throw (TypeError _)) => apply quiet_throw_TypeError
  | |- quiet out_of_fuel => apply quiet_out_of_fuel
  | |- quiet (manageUnresolved _ _ _ _) =>
      eapply pure_quiet, manageUnresolved_ignore; first [assumption | reflexivity]
  | |- quiet (bind _ _) => apply quiet_bind; [| intros ?]
  | |- quiet (match ?x with _ => _ end) => destruct x
  end.

Ltac quiet_positions :=
  let Hp := fresh "Hp" in
  let Hf := fresh "Hf" in
  intros ? ? ? Hp Hf; simpl in Hp;
  repeat (destruct Hp as [<- | Hp];
          [simpl in Hf;
           repeat (destruct Hf as [<- | Hf]; [solve [auto] |]); destruct Hf |]);
  destruct Hp.

Section Quiet.

Variable rt : Runtime.
Variable opts : Opts.
Hypothesis Hignore : unresolved opts = "ignore".

Lemma quiet_validator (f : Node -> bool) (node : Node) (o : Opts) :
  quiet (validator f node o).
Proof. apply quiet_ret. Qed.

Lemma quiet_transformColorSpace (node : Node) : quiet (transformColorSpace node opts).
Proof. unfold transformColorSpace. repeat quiet_step. Qed.

Lemma quiet_transformPercentage (node : Node) : quiet (transformPercentage rt node opts).
Proof. unfold transformPercentage. repeat quiet_step. Qed.

Lemma quiet_transformAlpha (node : Node) : quiet (transformAlpha rt node opts).
Proof. unfold transformAlpha, transformPercentage. repeat quiet_step. Qed.

Lemma quiet_transformRGBNumber (node : Node) : quiet (transformRGBNumber rt node opts).
Proof. unfold transformRGBNumber. repeat quiet_step. Qed.

Lemma quiet_transformHue (node : Node) : quiet (transformHue rt node opts).
Proof. unfold transformHue. repeat quiet_step. Qed.

Lemma quiet_transformMinusPlusOperator (node : Node) :
  quiet (transformMinusPlusOperator node opts).
Proof. unfold transformMinusPlusOperator. repeat quiet_step. Qed.

Lemma quiet_transformTimesOperator (node : Node) :
  quiet (transformTimesOperator node opts).
Proof. unfold transformTimesOperator. repeat quiet_step. Qed.

Lemma quiet_transformMinusPlusTimesOperator (node : Node) :
  quiet (transformMinusPlusTimesOperator node opts).
Proof. unfold transformMinusPlusTimesOperator. repeat quiet_step. Qed.

Lemma quiet_transformWord (node : Node) : quiet (transformWord node opts).
Proof. unfold transformWord. repeat quiet_step. Qed.

Lemma quiet_transformNode (node : Node) (o : Opts) : quiet (transformNode node o).
Proof. apply quiet_ret. Qed.

Lemma quiet_transformHexColor (node : Node) : quiet (transformHexColor rt node opts).
Proof. unfold transformHexColor. repeat quiet_step. Qed.

Lemma quiet_convertNtoRGB (name : string) : quiet (convertNtoRGB name).
Proof. unfold convertNtoRGB. repeat quiet_step. Qed.

Lemma quiet_isNamedColor (node : Node) : quiet (isNamedColor node).
Proof.
  unfold isNamedColor. destruct (is_type t_word node); [| apply quiet_ret].
  apply quiet_bind; [apply quiet_convertNtoRGB | intros; apply quiet_ret].
Qed.

Lemma quiet_transformNamedColor (node : Node) : quiet (transformNamedColor rt node opts).
Proof.
  unfold transformNamedColor.
  apply quiet_bind; [apply quiet_isNamedColor | intros named].
  destruct named; [| repeat quiet_step].
  apply quiet_bind; [apply quiet_convertNtoRGB | intros rgb]. repeat quiet_step.
Qed.

End Quiet.

#[local] Hint Resolve quiet_validator quiet_transformNode : core.
#[local] Hint Extern 1 (quiet (transformColorSpace _ ignore_opts)) =>
  apply quiet_transformColorSpace; reflexivity : core.
#[local] Hint Extern 1 (quiet (transformPercentage _ _ ignore_opts)) =>
  apply quiet_transformPercentage; reflexivity : core.
#[local] Hint Extern 1 (quiet (transformAlpha _ _ ignore_opts)) =>
  apply quiet_transformAlpha; reflexivity : core.
#[local] Hint Extern 1 (quiet (transformRGBNumber _ _ ignore_opts)) =>
  apply quiet_transformRGBNumber; reflexivity : core.
#[local] Hint Extern 1 (quiet (transformHue _ _ ignore_opts)) =>
  apply quiet_transformHue; reflexivity : core.
#[local] Hint Extern 1 (quiet (transformMinusPlusOperator _ ignore_opts)) =>
  apply quiet_transformMinusPlusOperator; reflexivity : core.
#[local] Hint Extern 1 (quiet (transformTimesOperator _ ignore_opts)) =>
  apply quiet_transformTimesOperator; reflexivity : core.
#[local] Hint Extern 1 (quiet (transformMinusPlusTimesOperator _ ignore_opts)) =>
  apply quiet_transformMinusPlusTimesOperator; reflexivity : core.
#[local] Hint Extern 1 (quiet (transformWord _ ignore_opts)) =>
  apply quiet_transformWord; reflexivity : core.
#[local] Hint Extern 1 (quiet (transformHexColor _ _ ignore_opts)) =>
  apply quiet_transformHexColor; reflexivity : core.

Section QuietColors.

Variable rt : Runtime.
Variable opts : Opts.
Hypothesis Hignore : unresolved opts = "ignore".

Lemma quiet_transformRGBFunction (node : Node) : quiet (transformRGBFunction rt node opts).
Proof.
  unfold transformRGBFunction.
  apply quiet_bind; [apply quiet_transformArgsByParams; quiet_positions | intros args].
  repeat quiet_step.
Qed.

Lemma quiet_transformHSLFunction (node : Node) : quiet (transformHSLFunction rt node opts).
Proof.
  unfold transformHSLFunction.
  apply quiet_bind; [apply quiet_transformArgsByParams; quiet_positions | intros args].
  repeat quiet_step.
Qed.

Lemma quiet_transformHWBFunction (node : Node) : quiet (transformHWBFunction rt node opts).
Proof.
  unfold transformHWBFunction.
  apply quiet_bind; [apply quiet_transformArgsByParams; quiet_positions | intros args].
  repeat quiet_step.
Qed.

Lemma quiet_call_getter (base : Val) (name : string) : quiet (call_getter rt base name).
Proof. unfold call_getter. repeat quiet_step. Qed.

Lemma quiet_call_setter (base : Val) (name : string) (v : num) :
  quiet (call_setter rt base name v).
Proof. unfold call_setter. repeat quiet_step. Qed.

Lemma quiet_base_color (base : Val) : quiet (base_color base).
Proof. unfold base_color. repeat quiet_step. Qed.

Lemma quiet_transformAlphaBlueGreenRedAdjuster (base : Val) (node : Node) :
  quiet (transformAlphaBlueGreenRedAdjuster rt base node opts).
Proof.
  unfold transformAlphaBlueGreenRedAdjuster.
  apply quiet_bind.
  { apply quiet_transformArgsByParams. destruct (alphaMatch (value node)); quiet_positions. }
  intros args. destruct (defined (nth_val 0 args)); [| repeat quiet_step].
  apply quiet_bind; [apply quiet_call_getter | intros; apply quiet_call_setter].
Qed.

Lemma quiet_transformRGBAdjuster (base : Val) (node : Node) :
  quiet (transformRGBAdjuster rt base node opts).
Proof.
  unfold transformRGBAdjuster.
  apply quiet_bind; [apply quiet_transformArgsByParams; quiet_positions | intros args].
  destruct (nth_val 1 args);
    repeat first
      [ apply quiet_bind; [apply quiet_base_color | intros ?]
      | quiet_step ].
Qed.

Lemma quiet_transformHueAdjuster (base : Val) (node : Node) :
  quiet (transformHueAdjuster rt base node opts).
Proof.
  unfold transformHueAdjuster.
  apply quiet_bind; [apply quiet_transformArgsByParams; quiet_positions | intros args].
  destruct (defined (nth_val 0 args)); [| repeat quiet_step].
  apply quiet_bind; [apply quiet_call_getter | intros; apply quiet_call_setter].
Qed.

Lemma quiet_transformBlacknessLightnessSaturationWhitenessAdjuster (base : Val) (node : Node) :
  quiet (transformBlacknessLightnessSaturationWhitenessAdjuster rt base node opts).
Proof.
  unfold transformBlacknessLightnessSaturationWhitenessAdjuster.
  apply quiet_bind; [apply quiet_transformArgsByParams; quiet_positions | intros args].
  destruct (defined (nth_val 0 args)); [| repeat quiet_step].
  apply quiet_bind; [apply quiet_call_getter | intros; apply quiet_call_setter].
Qed.

Lemma quiet_transformShadeTintAdjuster (base : Val) (node : Node) :
  quiet (transformShadeTintAdjuster rt base node opts).
Proof.
  unfold transformShadeTintAdjuster.
  apply quiet_bind; [apply quiet_transformArgsByParams; quiet_positions | intros args].
  destruct (defined (nth_val 0 args)); [| repeat quiet_step].
  apply quiet_bind; [apply quiet_base_color | intros ?]. repeat quiet_step.
Qed.

Section QuietRecursive.

Variable fuel : nat.
Variable transformColor : Param.
Hypothesis quiet_transformColor :
  forall node o, unresolved o = "ignore" -> quiet (transformColor node o).

Lemma quiet_transformBlendAdjuster (base : Val) (node : Node) (isAlphaBlend : bool) :
  quiet (transformBlendAdjuster rt transformColor base node isAlphaBlend opts).
Proof.
  unfold transformBlendAdjuster.
  apply quiet_bind.
  { apply quiet_transformArgsByParams. intros param f child Hp Hf.
    destruct Hp as [<- | []]. simpl in Hf.
    destruct Hf as [<- | [<- | [<- | []]]]; auto. }
  intros args. destruct (defined (nth_val 1 args)); [| repeat quiet_step].
  apply quiet_bind; [apply quiet_base_color | intros ?]. repeat quiet_step.
Qed.

Lemma quiet_transformContrastAdjuster (base : Val) (node : Node) :
  quiet (transformContrastAdjuster rt fuel base node opts).
Proof.
  unfold transformContrastAdjuster.
  apply quiet_bind; [apply quiet_transformArgsByParams; quiet_positions | intros args].
  destruct (defined (nth_val 0 args)); [| repeat quiet_step].
  apply quiet_bind; [apply quiet_base_color | intros ?]. repeat quiet_step.
Qed.

Lemma quiet_transformColorByAdjusters (color : Val) (adjusterNodes : list Node) :
  quiet (transformColorByAdjusters rt fuel transformColor color adjusterNodes opts).
Proof.
  unfold transformColorByAdjusters. apply quiet_foldM. intros base node.
  repeat lazymatch goal with
         | |- quiet (if ?b then _ else _) => destruct b
         end;
    auto using quiet_transformAlphaBlueGreenRedAdjuster, quiet_transformRGBAdjuster,
      quiet_transformHueAdjuster,
      quiet_transformBlacknessLightnessSaturationWhitenessAdjuster,
      quiet_transformShadeTintAdjuster, quiet_transformBlendAdjuster,
      quiet_transformContrastAdjuster.
  repeat quiet_step.
Qed.

Lemma quiet_transformColorModFunction (node : Node) :
  quiet (transformColorModFunction rt fuel transformColor node opts).
Proof.
  unfold transformColorModFunction.
  destruct (nodes_or_empty node) as [| colorOrHueNode adjusterNodes]; [repeat quiet_step |].
  apply quiet_bind.
  - destruct (isHue rt colorOrHueNode).
    + apply quiet_bind; [apply quiet_transformHue; assumption | intros; apply quiet_ret].
    + apply quiet_transformColor. assumption.
  - intros color. destruct (is_color color);
      [apply quiet_transformColorByAdjusters | repeat quiet_step].
Qed.

Lemma quiet_transformColor_body (node : Node) :
  quiet (transformColor_body rt fuel transformColor node opts).
Proof.
  unfold transformColor_body.
  repeat lazymatch goal with
         | |- quiet (if ?b then _ else _) => destruct b
         end;
    auto using quiet_transformRGBFunction, quiet_transformHSLFunction,
      quiet_transformHWBFunction, quiet_transformColorModFunction,
      quiet_transformHexColor.
  apply quiet_bind; [apply quiet_isNamedColor | intros named].
  destruct named; [apply quiet_transformNamedColor; assumption | repeat quiet_step].
Qed.

End QuietRecursive.

End QuietColors.

Lemma quiet_transformColor (rt : Runtime) (fuel depth : nat) (node : Node) (opts : Opts) :
  unresolved opts = "ignore" -> quiet (transformColor rt fuel depth node opts).
Proof.
  revert node opts. induction depth as [| depth IH]; intros node opts H; simpl.
  - apply quiet_out_of_fuel.
  - apply quiet_transformColor_body; assumption.
Qed.

(** *** Positions that return *)

Lemma returns_ret {A : Type} (a : A) : returns (ret a).
Proof. exists a. apply pure_ret. Qed.

Lemma returns_manageUnresolved (node : Node) (opts : Opts) (word message : string) :
  unresolved opts = "ignore" -> returns (manageUnresolved node opts word message).
Proof. intros H. exists undefined. apply manageUnresolved_ignore. assumption. Qed.

Ltac returns_step :=
  lazymatch goal with
  | |- returns (ret _) => apply returns_ret
  | |- returns (manageUnresolved _ _ _ _) => apply returns_manageUnresolved; reflexivity
  | |- returns (match ?x with _ => _ end) => destruct x
  end.

Lemma returns_eval_position (f : Param) (child : Node) :
  returns (f child ignore_opts) -> pure_at (f child ignore_opts) (eval_position f child).
Proof.
  intros [v Hv]. unfold eval_position. rewrite Hv. exact Hv.
Qed.

Lemma leaf_position_returns (rt : Runtime) (f : Param) (child : Node) :
  leaf_position rt f -> returns (f child ignore_opts).
Proof.
  intros []; unfold validator, transformNode, transformWord, transformColorSpace,
    transformPercentage, transformAlpha, transformPercentage, transformRGBNumber,
    transformHue, transformMinusPlusOperator, transformTimesOperator,
    transformMinusPlusTimesOperator, transformHexColor;
    repeat returns_step.
Qed.






(** *** Children beyond the positions of a pattern (C6) *)

Lemma imapM_from_undefined (param : list Param) (children : list Node) (i : nat)
    (s s' : list Warning) (r : list Val) :
  children <> [] ->
  (List.length param < i + List.length children)%nat ->
  imapM_from i
    (fun index childNode =>
       match nth_error param index with
       | Some f => f childNode ignore_opts
       | None => ret undefined
       end) children s = (Ret r, s') ->
  In undefined r.
Proof.
  revert i s r. induction children as [| x children IH]; intros i s r Hne Hlen H;
    [congruence |].
  simpl in H. unfold bind in H.
  destruct (match nth_error param i with
            | Some f => f x ignore_opts
            | None => ret undefined
            end s) as [[y | e |] s1] eqn:E1; try discriminate H.
  destruct (imapM_from (S i) _ children s1) as [[ys | e |] s2] eqn:E2; try discriminate H.
  unfold ret in H. injection H as <- <-.
  destruct children as [| x' children'].
  - left. simpl in Hlen.
    assert (Hnone : nth_error param i = None) by (apply nth_error_None; lia).
    rewrite Hnone in E1. unfold ret in E1. congruence.
  - right. apply (IH (S i) s1 ys); [discriminate | simpl in *; lia | exact E2].
Qed.

Lemma imapM_from_take (param : list Param) (children : list Node) (i n : nat)
    (s : list Warning) :
  (i + List.length children <= n)%nat ->
  imapM_from i
    (fun index childNode =>
       match nth_error param index with
       | Some f => f childNode ignore_opts
       | None => ret undefined
       end) children s
  = imapM_from i
      (fun index childNode =>
         match nth_error (take n param) index with
         | Some f => f childNode ignore_opts
         | None => ret undefined
         end) children s.
Proof.
  revert i s. induction children as [| x children IH]; intros i s Hlen; [reflexivity |].
  simpl in *. unfold bind.
  assert (Hnth : nth_error (take n param) i = nth_error param i).
  { rewrite nth_error_firstn.
    destruct (i <? n)%nat eqn:E; [reflexivity |]. apply Nat.ltb_ge in E. lia. }
  rewrite Hnth.
  destruct (match nth_error param i with
            | Some f => f x ignore_opts
            | None => ret undefined
            end s) as [[y | e |] s1]; try reflexivity.
  rewrite (IH (S i) s1) by lia. reflexivity.
Qed.

(** C6, as amended: the children beyond the positions of a pattern are
    consulted, and make the pattern fail: a pattern with fewer positions than
    the call has children (spaces and comments apart) yields [undefined] for
    the children in excess and is never the one returned; and a pattern with
    at least as many positions as there are children is applied through its
    first positions only, one per child. *)
Theorem C6_children_in_excess_fail_the_pattern :
  forall (node : Node) (param : list Param),
    ((List.length param < List.length (matched_children node))%nat ->
     forall s r s',
       (paramResults (matched_children node) param s = (Ret r, s') ->
        forallb defined r = false)
       /\ (transformArgsByParams node [param] s = (Ret r, s') -> r = []))
    /\ (forall s,
          paramResults (matched_children node) param s
          = paramResults (matched_children node)
              (take (List.length (matched_children node)) param) s).
Proof.
  intros node param. split.
  - intros Hlen s r s'.
    assert (Hres : forall r0 s0,
              paramResults (matched_children node) param s = (Ret r0, s0) ->
              forallb defined r0 = false).
    { intros r0 s0 H. unfold paramResults, imapM, bind in H.
      destruct (imapM_from 0 _ (matched_children node) s) as [[rs | e |] s1] eqn:E;
        try discriminate H.
      unfold ret in H. injection H as <- <-.
      assert (Hin : In undefined rs).
      { apply (imapM_from_undefined param (matched_children node) 0 s s1 rs);
          [| simpl; lia | exact E].
        intros Hnil. rewrite Hnil in Hlen. simpl in Hlen. lia. }
      apply not_true_is_false. intros Hall.
      rewrite forallb_forall in Hall.
      specialize (Hall undefined). simpl in Hall.
      assert (Hf : In undefined (List.filter not_boolean rs))
        by (apply filter_In; split; [exact Hin | reflexivity]).
      specialize (Hall Hf). discriminate Hall. }
    split; [apply Hres |].
    intros H. unfold transformArgsByParams in H. fold (matched_children node) in H.
    simpl in H. unfold bind in H.
    destruct (paramResults (matched_children node) param s) as [[r0 | e |] s0] eqn:E;
      try discriminate H.
    simpl in H. unfold ret in H. injection H as <- <-.
    rewrite (Hres r0 s0 eq_refl). reflexivity.
  - intros s. unfold paramResults, imapM, bind.
    rewrite (imapM_from_take param (matched_children node) 0
               (List.length (matched_children node)) s) by (simpl; lia).
    reflexivity.
Qed.

(** C6, the claim as stated fails: the one-position pattern of [contrast]
    matches [contrast(10%)] and not [contrast(10% 20%)], whose first child is
    the same. *)
Lemma C6_second_child_fails_one_position_pattern :
  transformArgsByParams contrast_10 [[transformPercentage js]] []
  = (Ret [VNum (Fin 10)], [])
  /\ transformArgsByParams contrast_10_20 [[transformPercentage js]] [] = (Ret [], [])
  /\ take 1 (matched_children contrast_10_20) = take 1 (matched_children contrast_10).
Proof. repeat split; vm_compute; reflexivity. Qed.

(** A run of C6 on [contrast(10% 20%)] and the one-position pattern. *)
Lemma C6_witness :
  (List.length [transformPercentage js] < List.length (matched_children contrast_10_20))%nat
  /\ (forall s r s',
        (paramResults (matched_children contrast_10_20) [transformPercentage js] s
         = (Ret r, s') -> forallb defined r = false)
        /\ (transformArgsByParams contrast_10_20 [[transformPercentage js]] s = (Ret r, s') ->
            r = []))
  /\ (forall s,
        paramResults (matched_children contrast_10_20) [transformPercentage js] s
        = paramResults (matched_children contrast_10_20)
            (take (List.length (matched_children contrast_10_20)) [transformPercentage js]) s).
Proof.
  assert (Hlen : (List.length [transformPercentage js]
                  < List.length (matched_children contrast_10_20))%nat)
    by (vm_compute; lia).
  destruct (C6_children_in_excess_fail_the_pattern contrast_10_20 [transformPercentage js])
    as [Hfail Htake].
  split; [exact Hlen | split; [exact (Hfail Hlen) | exact Htake]].
Defined.

(** ** Times adjusters (C10) *)

Section TimesAdjusters.

Variable rt : Runtime.
Variables (node star pct : Node) (p : Q).
Hypothesis Hchildren : matched_children node = [star; pct].
Hypothesis Hstar_type : type star = t_word.
Hypothesis Hstar_value : value star = "*".
Hypothesis Hpct : isPercentage rt pct = true.
Hypothesis Hnumber : rt.(Number) (unit_number rt pct) = Fin p.












End TimesAdjusters.



(** ** The fallback of a variable (C9) *)

Section Fallback.

Variable rt : Runtime.
Variable opts : Opts.
Variable walk_rec : list Node -> M (list Node).
Variables (name prop : string) (fallback first inner : Node) (rest : list Node).

Let child : Node :=
  fn name [MkNode t_word prop None; MkNode t_div "," None; fallback].

Hypothesis Hname : varMatch name = true.
Hypothesis Habsent : customProperties opts !! prop = None.
Hypothesis Hproto : one_of object_prototype_keys prop = false.
Hypothesis Hkept : not_space_or_comment fallback = true.
Hypothesis Hfallback : nodes fallback = Some [first].
Hypothesis Hfirst : nodes first = Some (inner :: rest).

Lemma var_arguments :
  pure_at
    (transformArgsByParams child [ [transformWord; validator isComma; transformNode] ])
    [VStr prop; VNode fallback].
Proof.
  intros s. unfold transformArgsByParams, child.
  cbn [nodes_or_empty nodes fn List.filter not_space_or_comment type NodeType_eqb
       negb andb].
  rewrite Hkept. reflexivity.
Qed.

Lemma fallback_raises (array : list Node) (index : nat) (s : list Warning) :
  walk_callback rt opts walk_rec array index child s
  = match walk_rec [first] s with
    | (Ret _, s') => (Throw (TypeError "spread of a value that is not iterable"), s')
    | (Throw e, s') => (Throw e, s')
    | (OutOfFuel, s') => (OutOfFuel, s')
    end.
Proof.
  unfold walk_callback.
  assert (Hvar : isVariable child = true) by (unfold isVariable; simpl; exact Hname).
  rewrite Hvar. unfold bind at 1. rewrite var_arguments.
  cbn [nth_val nth property_key]. rewrite Habsent, Hproto, Hfallback, Hfirst.
  unfold bind. destruct (walk_rec [first] s) as [[expanded | e |] s']; reflexivity.
Qed.

End Fallback.

(** C9: for a [var()] call whose property is absent from the table and whose
    fallback is a function with a single child that has children of its own,
    the resolver expands the fallback and then spreads a node, which is not
    iterable: the callback raises a TypeError (or whatever the expansion
    raised) and never returns an array in which the call is replaced. *)
Theorem C9_fallback_is_never_substituted :
  forall (rt : Runtime) (opts : Opts) (walk_rec : list Node -> M (list Node))
         (name prop : string) (fallback first inner : Node) (rest array : list Node)
         (index : nat) (s : list Warning),
    varMatch name = true ->
    customProperties opts !! prop = None ->
    one_of object_prototype_keys prop = false ->
    not_space_or_comment fallback = true ->
    nodes fallback = Some [first] ->
    nodes first = Some (inner :: rest) ->
    walk_callback rt opts walk_rec array index
      (fn name [MkNode t_word prop None; MkNode t_div "," None; fallback]) s
    = match walk_rec [first] s with
      | (Ret _, s') => (Throw (TypeError "spread of a value that is not iterable"), s')
      | (Throw e, s') => (Throw e, s')
      | (OutOfFuel, s') => (OutOfFuel, s')
      end.
Proof.
  intros. eapply fallback_raises; eassumption.
Qed.

(** A run of C9: [color-mod(var(--missing, a(b(red))))] with an empty table. *)
Lemma C9_witness :
  varMatch "var" = true
  /\ customProperties (default_opts js ∅) !! "--missing" = None
  /\ one_of object_prototype_keys "--missing" = false
  /\ not_space_or_comment (fn "a" [fn "b" [w "red"]]) = true
  /\ nodes (fn "a" [fn "b" [w "red"]]) = Some [fn "b" [w "red"]]
  /\ nodes (fn "b" [w "red"]) = Some [w "red"]
  /\ walk_callback js (default_opts js ∅) (walk_variables js 1 (default_opts js ∅))
       [var_with_fallback] 0 var_with_fallback []
     = match walk_variables js 1 (default_opts js ∅) [fn "b" [w "red"]] [] with
       | (Ret _, s') => (Throw (TypeError "spread of a value that is not iterable"), s')
       | (Throw e, s') => (Throw e, s')
       | (OutOfFuel, s') => (OutOfFuel, s')
       end
  /\ transformAST js 0 4 [fn "color-mod" [var_with_fallback]] (default_opts js ∅) []
     = (Throw (TypeError "spread of a value that is not iterable"), []).
Proof.
  assert (H1 : varMatch "var" = true) by reflexivity.
  assert (H2 : customProperties (default_opts js ∅) !! "--missing" = None) by reflexivity.
  assert (H3 : one_of object_prototype_keys "--missing" = false) by reflexivity.
  assert (H4 : not_space_or_comment (fn "a" [fn "b" [w "red"]]) = true) by reflexivity.
  assert (H5 : nodes (fn "a" [fn "b" [w "red"]]) = Some [fn "b" [w "red"]]) by reflexivity.
  assert (H6 : nodes (fn "b" [w "red"]) = Some [w "red"]) by reflexivity.
  repeat (split; [assumption |]).
  split.
  - exact (C9_fallback_is_never_substituted js (default_opts js ∅)
             (walk_variables js 1 (default_opts js ∅)) "var" "--missing"
             (fn "a" [fn "b" [w "red"]]) (fn "b" [w "red"]) (w "red") []
             [var_with_fallback] 0 [] H1 H2 H3 H4 H5 H6).
  - vm_compute. reflexivity.
Defined.

(** The same resolver on a fallback that is a plain word, as in
    [var(--missing, red)]: the test of the fallback reads the length of the
    children of a word, which has none. *)
Lemma word_fallback_raises :
  transformAST js 0 4
    [fn "color-mod" [fn "var" [w "--missing"; MkNode t_div "," None; w "red"]]]
    (default_opts js ∅) []
  = (Throw (TypeError "cannot read properties of undefined (reading 'length')"), []).
Proof. vm_compute. reflexivity. Qed.

(** ** The range of the hue *)

Lemma Qrem_360_bounds (x : Q) :
  JS.Qrem x 360 < 360 /\ (0 <= x -> 0 <= JS.Qrem x 360) /\ (x <= 0 -> JS.Qrem x 360 <= 0).
Proof.
  destruct x as [n d]. unfold JS.Qrem, JS.Qtrunc.
  change (Qnum ((n # d) / 360)) with (n * 1)%Z.
  change (Qden ((n # d) / 360)) with (d * 360)%positive.
  pose proof (Z.quot_rem' (n * 1) (Z.pos (d * 360))) as Hqr.
  assert (Hpos : (0 <= n -> 0 <= Z.rem (n * 1) (Z.pos (d * 360)) < Z.pos (d * 360))%Z)
    by (intros; apply Z.rem_bound_pos; lia).
  assert (Hneg : (n <= 0 -> - Z.pos (d * 360) < Z.rem (n * 1) (Z.pos (d * 360)) <= 0)%Z)
    by (intros; apply Z.rem_bound_pos_neg; lia).
  set (k := Z.quot (n * 1) (Z.pos (d * 360))) in *.
  set (r := Z.rem (n * 1) (Z.pos (d * 360))) in *.
  unfold Qlt, Qle, Qminus, Qplus, Qopp, Qmult, inject_Z. simpl.
  rewrite Pos2Z.inj_mul in *. repeat split; intros; lia.
Qed.

Lemma Qtrunc_floor (x : Q) : 0 <= x -> JS.Qtrunc x = Qfloor x.
Proof.
  destruct x as [n d]. unfold Qle, JS.Qtrunc, Qfloor. simpl. intros H.
  apply Z.quot_div_nonneg; lia.
Qed.

Lemma hue_of_Color_hue (rt : Runtime) (this : Color) (v : num) :
  hue (Color_hue rt this v) = normalize v ch_hue.
Proof.
  unfold Color_hue.
  destruct (color2hsl rt this) as [cs r g b h sa l wh bl a] eqn:E.
  assert (Hcs : cs = "hsl").
  { change cs with (colorspace {| colorspace := cs; red := r; green := g; blue := b;
      hue := h; saturation := sa; lightness := l; whiteness := wh; blackness := bl;
      alpha := a |}).
    rewrite <- E. unfold color2hsl.
    destruct (if _ : bool then _ else _) as [[? ?] ?]. reflexivity. }
  subst cs. reflexivity.
Qed.

(** The hue that the hue setter stores lies in [0,360); for a value that is
    not negative it is the value less 360 times the whole part of
    value / 360. *)
Theorem hue_setter_wraps_non_negative_values :
  forall (rt : Runtime) (this : Color) (q : Q),
    exists h,
      hue (Color_hue rt this (Fin q)) = Fin h
      /\ 0 <= h /\ h < 360
      /\ (0 <= q -> h == q - 360 * inject_Z (Qfloor (q / 360))).
Proof.
  intros rt this q. rewrite hue_of_Color_hue, normalize_hue.
  eexists. split; [reflexivity |].
  destruct (Qrem_360_bounds q) as (Hlt & Hpos & _).
  split; [| split].
  - apply Q.min_glb; [apply Q.le_max_r | discriminate].
  - apply Q.min_lt_iff. left. apply Q.max_lub_lt; [exact Hlt | reflexivity].
  - intros Hq. specialize (Hpos Hq).
    rewrite Q.max_l by exact Hpos.
    rewrite Q.min_l by (apply Qlt_le_weak; exact Hlt).
    unfold JS.Qrem. rewrite Qtrunc_floor; [reflexivity |].
    apply Qle_shift_div_l; [reflexivity | lra].
Qed.

(** ** Further properties of the interpreter *)

(** An adjuster call that the dispatch does not recognise is reported through
    the policy with "Expected a valid color adjuster", and the fold goes on
    with the color it had. *)
Theorem unknown_adjuster_keeps_the_color :
  forall (rt : Runtime) (fuel : nat) (transformColor : Param) (base : Val)
         (node : Node) (opts : Opts) (s : list Warning),
    not_space_or_comment node = true ->
    known_adjuster node = false ->
    transformColorByAdjusters rt fuel transformColor base [node]
      (with_unresolved opts "warn") s
    = (Ret base,
       s ++ [ {| w_message := "Expected a valid color adjuster"; w_word := value node |} ])
    /\ transformColorByAdjusters rt fuel transformColor base [node]
         (with_unresolved opts "ignore") s
       = (Ret base, s)
    /\ transformColorByAdjusters rt fuel transformColor base [node]
         (with_unresolved opts "throw") s
       = (Throw (DeclError "Expected a valid color adjuster" (value node)), s).
Proof.
  intros rt fuel tc base node opts s Hkept Hunknown.
  unfold known_adjuster in Hunknown.
  repeat (apply orb_false_iff in Hunknown; destruct Hunknown as [Hunknown ?]).
  unfold transformColorByAdjusters. cbn [List.filter]. rewrite Hkept.
  cbn [foldM].
  repeat match goal with H : _ = false |- _ => rewrite H; clear H end.
  repeat split.
Qed.

(** A run on [bogus(20%)]. *)
Lemma unknown_adjuster_witness :
  not_space_or_comment bogus_adjuster = true
  /\ known_adjuster bogus_adjuster = false
  /\ transformColorByAdjusters js 0 (transformColor js 0 1) (VColor black) [bogus_adjuster]
       (with_unresolved (default_opts js ∅) "warn") []
     = (Ret (VColor black),
        [] ++ [ {| w_message := "Expected a valid color adjuster";
                   w_word := value bogus_adjuster |} ])
  /\ transformColorByAdjusters js 0 (transformColor js 0 1) (VColor black) [bogus_adjuster]
       (with_unresolved (default_opts js ∅) "ignore") []
     = (Ret (VColor black), [])
  /\ transformColorByAdjusters js 0 (transformColor js 0 1) (VColor black) [bogus_adjuster]
       (with_unresolved (default_opts js ∅) "throw") []
     = (Throw (DeclError "Expected a valid color adjuster" (value bogus_adjuster)), []).
Proof.
  assert (H1 : not_space_or_comment bogus_adjuster = true) by reflexivity.
  assert (H2 : known_adjuster bogus_adjuster = false) by reflexivity.
  repeat (split; [assumption |]).
  exact (unknown_adjuster_keeps_the_color js 0 (transformColor js 0 1) (VColor black)
           bogus_adjuster (default_opts js ∅) [] H1 H2).
Defined.

(** ** Further properties of the color model *)

Lemma Qfloor_unit (x : Q) : 0 <= x -> x < 1 -> Qfloor x = 0%Z.
Proof.
  intros H0 H1.
  pose proof (Qfloor_le x) as Hle. pose proof (Qlt_floor x) as Hlt.
  assert (A : (Qfloor x < 1)%Z) by (rewrite Zlt_Qlt; change (inject_Z 1) with 1; lra).
  assert (B : (0 < Qfloor x + 1)%Z) by (rewrite Zlt_Qlt; change (inject_Z 0) with 0; lra).
  lia.
Qed.

Lemma Qrem_small (h : Q) : 0 <= h -> h < 360 -> JS.Qrem h 360 == h.
Proof.
  intros H0 H1. unfold JS.Qrem.
  rewrite Qtrunc_floor by (apply Qle_shift_div_l; [reflexivity | lra]).
  rewrite Qfloor_unit; [unfold inject_Z; lra | |].
  - apply Qle_shift_div_l; [reflexivity | lra].
  - apply Qlt_shift_div_r; [reflexivity | lra].
Qed.

(** [normalize] is idempotent: a value it has produced is left as it is by a
    second application, for the hue as for the other channels (and [NaN]
    stays [NaN]). *)
Theorem normalize_is_idempotent :
  forall (v : num) (ch : channel),
    JS.num_eq (normalize (normalize v ch) ch) (normalize v ch).
Proof.
  intros v ch. destruct (channel_eqb ch ch_hue) eqn:E.
  - replace ch with ch_hue by (destruct ch; try discriminate E; reflexivity).
    destruct v as [| | q]; try exact I.
    rewrite normalize_hue. rewrite normalize_hue. simpl.
    destruct (Qrem_360_bounds q) as (Hlt & _ & _).
    set (h := Qmin (Qmax (JS.Qrem q 360) 0) 360).
    assert (H0 : 0 <= h) by (apply Q.min_glb; [apply Q.le_max_r | discriminate]).
    assert (H1 : h < 360).
    { apply Q.min_lt_iff. left. apply Q.max_lub_lt; [exact Hlt | reflexivity]. }
    rewrite (Qrem_small h H0 H1).
    rewrite Q.max_l by exact H0. apply Q.min_l. apply Qlt_le_weak. exact H1.
  - destruct v as [| | q]; try (unfold normalize; rewrite E; exact I).
    rewrite !normalize_clamps by exact E. simpl.
    destruct (clamp_between q). apply clamp_inside; assumption.
Qed.

Lemma color2rgb_shape (rt : Runtime) (c : Color) :
  exists r g b,
    color2rgb rt c
    = {| colorspace := "rgb"; red := r; green := g; blue := b; hue := hue c;
         saturation := Undef; lightness := Undef; whiteness := Undef;
         blackness := Undef; alpha := alpha c |}.
Proof.
  unfold color2rgb. destruct (if _ : bool then _ else _) as [[r g] b].
  exists r, g, b. reflexivity.
Qed.

Lemma color2hsl_shape (rt : Runtime) (c : Color) :
  exists h s l, color2hsl rt c = hsl_object h s l (alpha c).
Proof.
  unfold color2hsl. destruct (if _ : bool then _ else _) as [[h s] l].
  exists h, s, l. reflexivity.
Qed.

(** A setter of [Color] called with a value other than [undefined] (with
    [undefined] the method is the getter) and followed by the getter of the
    same channel gives the normalized value; the getters of the other
    channels of the same colorspace give what they gave before; and a setter
    other than alpha keeps the alpha and leaves the color in the colorspace
    of its channel. *)
Theorem setter_leaves_the_other_channels :
  forall (rt : Runtime) (this : Color) (ch ch' : channel) (v : num),
    v <> Undef ->
    Color_get rt (Color_set rt this ch v) ch = normalize v ch
    /\ (channel_eqb ch ch' = false ->
        channel_space ch = channel_space ch' ->
        Color_get rt (Color_set rt this ch v) ch' = Color_get rt this ch')
    /\ (channel_eqb ch ch_alpha = false ->
        Color_get rt (Color_set rt this ch v) ch_alpha = Color_get rt this ch_alpha
        /\ colorspace (Color_set rt this ch v) = channel_space ch).
Proof.
  intros rt this ch ch' v _.
  destruct (color2rgb_shape rt this) as (r & g & b & Hrgb).
  destruct (color2hsl_shape rt this) as (h & sa & l & Hhsl).
  destruct (color2hwb_shape rt this) as (h' & wh & bl & Hhwb).
  unfold Color_get, Color_set, Color_alpha, Color_red, Color_green, Color_blue, Color_hue,
    Color_saturation, Color_lightness, Color_whiteness, Color_blackness,
    Color_get_alpha, Color_get_red, Color_get_green, Color_get_blue, Color_get_hue,
    Color_get_saturation, Color_get_lightness, Color_get_whiteness, Color_get_blackness.
  split; [| split].
  - destruct ch; rewrite ?Hrgb, ?Hhsl, ?Hhwb; try reflexivity.
    exact (Color_set_channel rt this ch_alpha v eq_refl).
  - intros Hne Hspace.
    destruct ch, ch'; try discriminate Hne; try discriminate Hspace;
      rewrite ?Hrgb, ?Hhsl, ?Hhwb; reflexivity.
  - intros Hne.
    destruct ch; try discriminate Hne; rewrite ?Hrgb, ?Hhsl, ?Hhwb; split; reflexivity.
Qed.

(** A run on the red channel of a gray, set to 150. *)
Lemma setter_witness :
  Fin 150 <> Undef
  /\ Color_get js (Color_set js half_transparent_gray ch_red (Fin 150)) ch_red
     = normalize (Fin 150) ch_red
  /\ Color_get js (Color_set js half_transparent_gray ch_red (Fin 150)) ch_green
     = Color_get js half_transparent_gray ch_green
  /\ colorspace (Color_set js half_transparent_gray ch_red (Fin 150)) = "rgb".
Proof.
  assert (H : Fin 150 <> Undef) by discriminate.
  split; [exact H |].
  destruct (setter_leaves_the_other_channels js half_transparent_gray ch_red ch_green
              (Fin 150) H) as (H1 & H2 & H3).
  split; [exact H1 |]. split; [exact (H2 eq_refl eq_refl) |].
  exact (proj2 (H3 eq_refl)).
Defined.

Lemma num_eq_Fin (a : num) (x : Q) : JS.num_eq a (Fin x) -> exists y, a = Fin y /\ y == x.
Proof. destruct a as [| | y]; simpl; intros H; try contradiction. exists y. split; [reflexivity | exact H]. Qed.

Lemma alpha_new_Color (rt : Runtime) (c : Color) : alpha (new_Color rt c) = alpha c.
Proof. exact (new_Color_channel rt c ch_alpha eq_refl). Qed.

Section ShadeTint.

Variable rt : Runtime.
Variables (target : Color) (x : Q).
Hypothesis Htarget :
  gray_triple x (rt.(hwb2rgb) (hue target) (whiteness target) (blackness target)).
Hypothesis Hspace : colorspace target = "hwb".

Lemma blend_toward_gray (this : Color) (ch : channel) (p c : Q) :
  In ch [ch_red; ch_green; ch_blue] ->
  get_channel (color2rgb rt (color2hwb rt this)) ch = Fin c ->
  JS.num_eq
    (get_channel (new_Color rt (blend rt (color2hwb rt this) target (Fin p) "rgb" false)) ch)
    (weighted (Fin p) (Fin c) (Fin x)).
Proof.
  intros Hin Hc.
  assert (Ht : exists y, get_channel (color2rgb rt target) ch = Fin y /\ y == x).
  { unfold color2rgb. rewrite Hspace. cbn [String.eqb Ascii.eqb Bool.eqb].
    unfold gray_triple in Htarget.
    destruct (hwb2rgb rt (hue target) (whiteness target) (blackness target)) as [[r g] b].
    destruct Htarget as (Hr & Hg & Hb).
    simpl in Hin. destruct Hin as [<- | [<- | [<- | []]]]; simpl; apply num_eq_Fin; assumption. }
  destruct Ht as (y & Hy & Hyx).
  rewrite new_Color_channel
    by (simpl in Hin; destruct Hin as [<- | [<- | [<- | []]]]; reflexivity).
  rewrite (blend_channel rt (color2hwb rt this) target (Fin p) "rgb" false ch Hin).
  change (in_space rt "rgb" (color2hwb rt this)) with (color2rgb rt (color2hwb rt this)).
  change (in_space rt "rgb" target) with (color2rgb rt target).
  rewrite Hc, Hy. simpl. rewrite Hyx. reflexivity.
Qed.

End ShadeTint.

(** When the conversion library maps hwb(0 0% 100%) to black and
    hwb(0 100% 0%) to white, [shade(p)] gives every rgb channel [c] of the
    color (as obtained through hwb) the value of [c * (1 - p / 100)], and
    [tint(p)] the value of [c * (1 - p / 100) + 100 * (p / 100)]; both keep
    the alpha and give an rgb color. *)
Theorem shade_and_tint_mix_with_black_and_white :
  forall (rt : Runtime) (this : Color) (ch : channel) (p c : Q),
    gray_triple 0 (rt.(hwb2rgb) (Fin 0) (Fin 0) (Fin 100)) ->
    gray_triple 100 (rt.(hwb2rgb) (Fin 0) (Fin 100) (Fin 0)) ->
    In ch [ch_red; ch_green; ch_blue] ->
    get_channel (color2rgb rt (color2hwb rt this)) ch = Fin c ->
    JS.num_eq (get_channel (Color_shade rt this (Fin p)) ch)
      (JS.mul (Fin c) (JS.sub (Fin 1) (JS.div (Fin p) (Fin 100))))
    /\ JS.num_eq (get_channel (Color_tint rt this (Fin p)) ch)
         (weighted (Fin p) (Fin c) (Fin 100))
    /\ alpha (Color_shade rt this (Fin p)) = alpha this
    /\ alpha (Color_tint rt this (Fin p)) = alpha this
    /\ colorspace (Color_shade rt this (Fin p)) = "rgb"
    /\ colorspace (Color_tint rt this (Fin p)) = "rgb".
Proof.
  intros rt this ch p c Hblack Hwhite Hin Hc.
  pose proof (blend_toward_gray rt shade_target 0 Hblack eq_refl this ch p c Hin Hc) as Hs.
  pose proof (blend_toward_gray rt tint_target 100 Hwhite eq_refl this ch p c Hin Hc) as Ht.
  unfold Color_shade, Color_tint.
  split; [| split; [| split; [| split; [| split]]]].
  - destruct (num_eq_Fin _ _ Hs) as (y & -> & Hy). simpl. rewrite Hy. ring.
  - exact Ht.
  - rewrite alpha_new_Color, blend_alpha. apply alpha_color2hwb.
  - rewrite alpha_new_Color, blend_alpha. apply alpha_color2hwb.
  - reflexivity.
  - reflexivity.
Qed.

(** A run on a gray of 50% with [p = 50]. *)
Lemma shade_and_tint_witness :
  gray_triple 0 (js.(hwb2rgb) (Fin 0) (Fin 0) (Fin 100))
  /\ gray_triple 100 (js.(hwb2rgb) (Fin 0) (Fin 100) (Fin 0))
  /\ In ch_red [ch_red; ch_green; ch_blue]
  /\ get_channel (color2rgb js (color2hwb js half_transparent_gray)) ch_red = Fin 50.0000
  /\ JS.num_eq (get_channel (Color_shade js half_transparent_gray (Fin 50)) ch_red) (Fin 25)
  /\ JS.num_eq (get_channel (Color_tint js half_transparent_gray (Fin 50)) ch_red) (Fin 75).
Proof.
  assert (H1 : gray_triple 0 (js.(hwb2rgb) (Fin 0) (Fin 0) (Fin 100)))
    by (vm_compute; repeat split; reflexivity).
  assert (H2 : gray_triple 100 (js.(hwb2rgb) (Fin 0) (Fin 100) (Fin 0)))
    by (vm_compute; repeat split; reflexivity).
  assert (H3 : In ch_red [ch_red; ch_green; ch_blue]) by (left; reflexivity).
  assert (H4 : get_channel (color2rgb js (color2hwb js half_transparent_gray)) ch_red = Fin 50.0000).
  { vm_compute. reflexivity. }
  repeat (split; [assumption |]).
  destruct (shade_and_tint_mix_with_black_and_white js half_transparent_gray ch_red 50 50.0000
              H1 H2 H3 H4) as (Hs & Ht & _).
  destruct (num_eq_Fin _ _ Hs) as (y & Ey & Hy).
  destruct (num_eq_Fin _ _ Ht) as (z & Ez & Hz).
  rewrite Ey, Ez. simpl. split.
  - rewrite Hy. reflexivity.
  - rewrite Hz. reflexivity.
Defined.

Lemma num_eq_refl (a : num) : JS.num_eq a a.
Proof. destruct a; simpl; [exact I | exact I | reflexivity]. Qed.

Lemma gt_irrefl_sym (a b : num) :
  JS.gt a b = false -> JS.gt b a = false ->
  JS.num_eq (JS.div (JS.add b (Fin 0.05)) (JS.add a (Fin 0.05)))
            (JS.div (JS.add a (Fin 0.05)) (JS.add b (Fin 0.05))).
Proof.
  destruct a as [| | x], b as [| | y]; simpl; try (intros; exact I).
  unfold JS.gt, JS.lt, JS.cmp2, JS.Qltb. intros H1 H2.
  apply negb_false_iff, Qle_bool_iff in H1.
  apply negb_false_iff, Qle_bool_iff in H2.
  assert (Hxy : x == y) by (apply Qle_antisym; assumption).
  destruct (Qeq_bool (x + 0.05) 0) eqn:Ex, (Qeq_bool (y + 0.05) 0) eqn:Ey; simpl.
  - exact I.
  - apply Qeq_bool_iff in Ex. apply Qeq_bool_neq in Ey. exfalso. apply Ey. rewrite <- Hxy. exact Ex.
  - apply Qeq_bool_iff in Ey. apply Qeq_bool_neq in Ex. exfalso. apply Ex. rewrite Hxy. exact Ey.
  - rewrite Hxy. reflexivity.
Qed.

Lemma ratio_at_least_one (a b : Q) :
  0 < b -> b <= a -> 1 <= a / b /\ (a == b -> a / b == 1).
Proof.
  intros Hb Hab. split.
  - apply Qle_shift_div_l; [exact Hb | lra].
  - intros H. rewrite H. field. lra.
Qed.

(** The contrast ratio does not depend on the order of the two colors; for
    luminances that are not negative it is at least 1, and it is 1 when the
    luminances are equal. *)
Theorem contrast_ratio_is_symmetric :
  forall (rt : Runtime) (color1 color2 : Color),
    JS.num_eq (colors2contrast rt color1 color2) (colors2contrast rt color2 color1)
    /\ (forall l1 l2 : Q,
          luminance_of rt color1 = Fin l1 ->
          luminance_of rt color2 = Fin l2 ->
          0 <= l1 -> 0 <= l2 ->
          exists ratio,
            colors2contrast rt color1 color2 = Fin ratio
            /\ 1 <= ratio
            /\ (l1 == l2 -> ratio == 1)).
Proof.
  intros rt color1 color2. unfold colors2contrast, luminance_of.
  set (l1 := rgb2luminance rt _ _ _). set (l2 := rgb2luminance rt _ _ _).
  split.
  - destruct (JS.gt l1 l2) eqn:E12, (JS.gt l2 l1) eqn:E21.
    + exfalso. destruct l1 as [| | x], l2 as [| | y]; try discriminate E12.
      unfold JS.gt, JS.lt, JS.cmp2, JS.Qltb in *.
      apply negb_true_iff in E12, E21.
      assert (A : ~ x <= y) by (intros A; apply Qle_bool_iff in A; congruence).
      assert (B : ~ y <= x) by (intros B; apply Qle_bool_iff in B; congruence).
      lra.
    + apply num_eq_refl.
    + apply num_eq_refl.
    + apply gt_irrefl_sym; assumption.
  - intros x y Hl1 Hl2 Hx Hy. rewrite Hl1, Hl2.
    unfold JS.gt, JS.lt, JS.cmp2, JS.Qltb, JS.add, JS.div, JS.lift2.
    assert (Hx' : Qeq_bool (x + 0.05) 0 = false).
    { destruct (Qeq_bool (x + 0.05) 0) eqn:E; [| reflexivity].
      apply Qeq_bool_iff in E. lra. }
    assert (Hy' : Qeq_bool (y + 0.05) 0 = false).
    { destruct (Qeq_bool (y + 0.05) 0) eqn:E; [| reflexivity].
      apply Qeq_bool_iff in E. lra. }
    destruct (Qle_bool x y) eqn:E; simpl; rewrite ?Hx', ?Hy'.
    + apply Qle_bool_iff in E. eexists. split; [reflexivity |].
      destruct (ratio_at_least_one (y + 0.05) (x + 0.05)) as [H1 H2]; [lra | lra |].
      split; [exact H1 |]. intros H. apply H2. lra.
    + assert (Hlt : y < x).
      { apply Qnot_le_lt. intros H. apply Qle_bool_iff in H. congruence. }
      eexists. split; [reflexivity |].
      destruct (ratio_at_least_one (x + 0.05) (y + 0.05)) as [H1 H2]; [lra | lra |].
      split; [exact H1 |]. intros H. apply H2. lra.
Qed.

(** With whiteness and blackness of the base color in [0,100], [contrast] at
    0% returns the maximum-contrast color: the hue and alpha of the base
    color with whiteness 100 and blackness 0 when the luminance is below 0.5,
    and with whiteness 0 and blackness 100 otherwise; this for any fuel. *)
Theorem contrast_at_0_is_the_extreme :
  forall (rt : Runtime) (fuel : nat) (color : Color) (h wh bl : Q),
    hue (color2hwb rt color) = Fin h ->
    whiteness (color2hwb rt color) = Fin wh ->
    blackness (color2hwb rt color) = Fin bl ->
    0 <= wh -> wh <= 100 -> 0 <= bl -> bl <= 100 ->
    exists result,
      contrast rt fuel color (Fin 0) = Some result
      /\ colorspace result = "hwb"
      /\ JS.num_eq (hue result) (Fin h)
      /\ alpha result = alpha color
      /\ (if JS.lt (luminance_of rt color) (Fin 0.5)
          then JS.num_eq (whiteness result) (Fin 100) /\ JS.num_eq (blackness result) (Fin 0)
          else JS.num_eq (whiteness result) (Fin 0) /\ JS.num_eq (blackness result) (Fin 100)).
Proof.
  intros rt fuel color h wh bl Hh Hw Hb Hw0 Hw1 Hb0 Hb1.
  unfold contrast, luminance_of.
  set (luminance := rgb2luminance rt _ _ _).
  set (extreme := maxContrastColorOf luminance (color2hwb rt color)).
  assert (Hmax : color2hwb rt extreme = extreme).
  { unfold extreme, maxContrastColorOf. destruct (JS.lt luminance (Fin 0.5)); reflexivity. }
  assert (Hloop : colors2contrastRatioColor rt fuel (color2hwb rt color) extreme
                  = Some (color2hwb rt color)).
  { unfold colors2contrastRatioColor. rewrite Hw, Hb.
    unfold extreme, maxContrastColorOf. destruct (JS.lt luminance (Fin 0.5)); simpl;
      apply contrastRatioLoop_no_iteration; try assumption; lra. }
  assert (Hblend : forall other,
            color2hwb rt other = other \/ other = color2hwb rt color ->
            (exists h' wh' bl', hue other = Fin h' /\ whiteness other = Fin wh'
                                /\ blackness other = Fin bl') ->
            let result := blend rt extreme other (Fin 0) "hwb" false in
            colorspace result = "hwb"
            /\ JS.num_eq (hue result) (Fin h)
            /\ alpha result = alpha color
            /\ (if JS.lt luminance (Fin 0.5)
                then JS.num_eq (whiteness result) (Fin 100)
                     /\ JS.num_eq (blackness result) (Fin 0)
                else JS.num_eq (whiteness result) (Fin 0)
                     /\ JS.num_eq (blackness result) (Fin 100))).
  { intros other Hother (h' & wh' & bl' & Hh' & Hw' & Hb').
    assert (Hother' : color2hwb rt other = other).
    { destruct Hother as [H | ->]; [exact H | apply color2hwb_idempotent]. }
    unfold blend. cbn [String.eqb Ascii.eqb Bool.eqb].
    rewrite Hmax, Hother', Hh', Hw', Hb'.
    unfold extreme, maxContrastColorOf. rewrite Hh.
    destruct (JS.lt luminance (Fin 0.5)); simpl;
      (repeat split; try field); apply alpha_color2hwb. }
  destruct (JS.gt (colors2contrast rt color extreme) (Fin 4.5)).
  - rewrite Hloop. eexists. split; [reflexivity |].
    apply Hblend; [right; reflexivity |]. exists h, wh, bl. auto.
  - eexists. split; [reflexivity |].
    apply Hblend; [left; exact Hmax |].
    unfold extreme, maxContrastColorOf. rewrite Hh.
    destruct (JS.lt luminance (Fin 0.5)); simpl;
      eexists _, _, _; repeat split; reflexivity.
Qed.

(** A run on black. *)
Lemma contrast_at_0_witness :
  hue (color2hwb js black) = Fin 0
  /\ whiteness (color2hwb js black) = Fin 0
  /\ blackness (color2hwb js black) = Fin 100
  /\ exists result,
      contrast js 0 black (Fin 0) = Some result
      /\ colorspace result = "hwb"
      /\ JS.num_eq (hue result) (Fin 0)
      /\ alpha result = alpha black
      /\ (if JS.lt (luminance_of js black) (Fin 0.5)
          then JS.num_eq (whiteness result) (Fin 100) /\ JS.num_eq (blackness result) (Fin 0)
          else JS.num_eq (whiteness result) (Fin 0) /\ JS.num_eq (blackness result) (Fin 100)).
Proof.
  assert (Hh : hue (color2hwb js black) = Fin 0) by (vm_compute; reflexivity).
  assert (Hw : whiteness (color2hwb js black) = Fin 0) by (vm_compute; reflexivity).
  assert (Hb : blackness (color2hwb js black) = Fin 100) by (vm_compute; reflexivity).
  repeat (split; [assumption |]).
  apply (contrast_at_0_is_the_extreme js 0 black 0 0 100 Hh Hw Hb); discriminate.
Defined.

(** ** Color literals *)

Lemma hex_digit_lower (c : ascii) : hex_digit (lower_ascii c) = hex_digit c.
Proof.
  destruct c as [[] [] [] [] [] [] [] []]; vm_compute; reflexivity.
Qed.

Lemma lower_ascii_hash (c : ascii) :
  Ascii.eqb (lower_ascii c) "#" = Ascii.eqb c "#".
Proof.
  destruct c as [[] [] [] [] [] [] [] []]; vm_compute; reflexivity.
Qed.

Lemma map_hex_digit_lower (s : string) :
  map hex_digit (list_ascii_of_string (lower s)) = map hex_digit (list_ascii_of_string s).
Proof.
  induction s as [| c s IH]; simpl; [reflexivity |].
  rewrite hex_digit_lower, IH. reflexivity.
Qed.

Lemma hexColorGroups_hash (c : ascii) (rest : string) :
  hexColorGroups (String c rest)
  = if Ascii.eqb c "#" then hexColorGroups (String "#" rest) else None.
Proof.
  destruct (Ascii.eqb_spec c "#") as [-> | Hne]; [reflexivity |].
  destruct c as [[] [] [] [] [] [] [] []]; try reflexivity. congruence.
Qed.

Lemma hexColorGroups_lower (v : string) : hexColorGroups (lower v) = hexColorGroups v.
Proof.
  destruct v as [| c rest]; [reflexivity |].
  cbn [lower]. rewrite (hexColorGroups_hash (lower_ascii c)), (hexColorGroups_hash c).
  rewrite lower_ascii_hash. destruct (Ascii.eqb c "#"); [| reflexivity].
  unfold hexColorGroups. rewrite map_hex_digit_lower. reflexivity.
Qed.

(** A three- or four-digit hex color denotes the color of the six- or
    eight-digit text in which every digit is doubled, and the case of the
    digits does not matter. *)
Theorem hex_color_notations_agree :
  (forall r g b : ascii,
      convertHtoRGB (hex3 r g b) = convertHtoRGB (hex6 r r g g b b))
  /\ (forall r g b a : ascii,
        convertHtoRGB (hex4 r g b a) = convertHtoRGB (hex8 r r g g b b a a))
  /\ (forall v : string, convertHtoRGB (lower v) = convertHtoRGB v).
Proof.
  split; [| split].
  - intros r g b. unfold convertHtoRGB, hex3, hex6, hexColorGroups.
    cbn [list_ascii_of_string map].
    destruct (hex_digit r) as [x |], (hex_digit g) as [y |], (hex_digit b) as [z |];
      try reflexivity.
    replace (16 * x + x)%Z with (17 * x)%Z by lia.
    replace (16 * y + y)%Z with (17 * y)%Z by lia.
    replace (16 * z + z)%Z with (17 * z)%Z by lia.
    reflexivity.
  - intros r g b a. unfold convertHtoRGB, hex4, hex8, hexColorGroups.
    cbn [list_ascii_of_string map].
    destruct (hex_digit r) as [x |], (hex_digit g) as [y |], (hex_digit b) as [z |],
      (hex_digit a) as [t |]; try reflexivity.
    replace (16 * x + x)%Z with (17 * x)%Z by lia.
    replace (16 * y + y)%Z with (17 * y)%Z by lia.
    replace (16 * z + z)%Z with (17 * z)%Z by lia.
    replace (16 * t + t)%Z with (17 * t)%Z by lia.
    reflexivity.
  - intros v. unfold convertHtoRGB. rewrite hexColorGroups_lower. reflexivity.
Qed.

Lemma hex_digit_range (c : ascii) (d : Z) : hex_digit c = Some d -> (0 <= d <= 15)%Z.
Proof.
  unfold hex_digit. set (n := Z.of_nat (nat_of_ascii c)).
  destruct ((48 <=? n)%Z && (n <=? 57)%Z) eqn:E1;
    [| destruct ((97 <=? n)%Z && (n <=? 102)%Z) eqn:E2;
       [| destruct ((65 <=? n)%Z && (n <=? 70)%Z) eqn:E3]];
    intros H; try discriminate H; injection H as <-;
    match goal with E : _ = true |- _ => apply andb_true_iff in E; destruct E end; lia.
Qed.

Lemma byte_to_percent_range (z : Z) :
  (0 <= z <= 255)%Z -> JS.between 0 100 (byte_to_percent z).
Proof.
  intros [H0 H1]. unfold byte_to_percent. simpl.
  rewrite Zle_Qle in H0, H1. change (inject_Z 0) with 0 in H0.
  change (inject_Z 255) with 255 in H1.
  split.
  - apply Qle_shift_div_l; [reflexivity | lra].
  - apply Qle_shift_div_r; [reflexivity | lra].
Qed.

Lemma hexColorGroups_range (v : string) (groups : HexGroups) :
  hexColorGroups v = Some groups ->
  match groups with
  | Short r g b a =>
      (0 <= r <= 15 /\ 0 <= g <= 15 /\ 0 <= b <= 15)%Z
      /\ match a with
         | Some a => (0 <= a <= 15)%Z /\ String.length v = 5%nat
         | None => String.length v = 4%nat
         end
  | Long rr gg bb aa =>
      (0 <= rr <= 255 /\ 0 <= gg <= 255 /\ 0 <= bb <= 255)%Z
      /\ match aa with
         | Some aa => (0 <= aa <= 255)%Z /\ String.length v = 9%nat
         | None => String.length v = 7%nat
         end
  end.
Proof.
  destruct v as [| c rest]; [discriminate |].
  rewrite hexColorGroups_hash.
  destruct (Ascii.eqb_spec c "#") as [-> | Hne]; [| discriminate].
  unfold hexColorGroups.
  destruct rest as [| c1 [| c2 [| c3 [| c4 [| c5 [| c6 [| c7 [| c8 rest]]]]]]]];
    cbn [list_ascii_of_string map];
    repeat match goal with
           | |- context [hex_digit ?c] =>
               let E := fresh "E" in
               let d := fresh "d" in
               destruct (hex_digit c) as [d |] eqn:E;
               [apply hex_digit_range in E |]
           end;
    try discriminate;
    try (destruct rest; discriminate);
    intros H; try (destruct rest; try discriminate H);
    injection H as <-; simpl; repeat split; lia.
Qed.

Lemma byte_to_percent_Fin (z : Z) : byte_to_percent z = Fin (inject_Z z / 2.55).
Proof. reflexivity. Qed.

(** On a text that [hexColorMatch] accepts, [transformHexColor] returns,
    without a warning, an rgb color whose red, green, blue and alpha lie in
    [0,100], the alpha being 100 when the text has three or six digits; on any
    other text it hands the node to [manageUnresolved]. *)
Theorem hex_color_is_in_range :
  forall (rt : Runtime) (node : Node) (opts : Opts),
    if hexColorMatch (value node) then
      exists c,
        pure_at (transformHexColor rt node opts) (VColor c)
        /\ colorspace c = "rgb"
        /\ Forall (fun ch => JS.between 0 100 (get_channel c ch)) percentage_channels
        /\ (String.length (value node) = 4%nat \/ String.length (value node) = 7%nat ->
            JS.num_eq (alpha c) (Fin 100))
    else
      forall s,
        transformHexColor rt node opts s
        = manageUnresolved node opts (value node) "Expected a valid hex color" s.
Proof.
  intros rt node opts. unfold hexColorMatch, transformHexColor, convertHtoRGB.
  destruct (hexColorGroups (value node)) as [groups |] eqn:E; [| reflexivity].
  apply hexColorGroups_range in E.
  assert (Hshape : forall r g b a : Z,
            (0 <= r <= 255)%Z -> (0 <= g <= 255)%Z -> (0 <= b <= 255)%Z ->
            (0 <= a <= 255)%Z ->
            let c := new_Color rt (rgb_object (byte_to_percent r) (byte_to_percent g)
                                     (byte_to_percent b) (byte_to_percent a) "") in
            colorspace c = "rgb"
            /\ Forall (fun ch => JS.between 0 100 (get_channel c ch)) percentage_channels
            /\ alpha c = byte_to_percent a).
  { intros r g b a Hr Hg Hb Ha c. split; [reflexivity |]. split; [| reflexivity].
    unfold percentage_channels.
    repeat (apply List.Forall_cons;
            [unfold c; rewrite new_Color_channel by reflexivity;
             apply byte_to_percent_range; assumption |]).
    apply List.Forall_nil. }
  destruct groups as [r g b a | rr gg bb aa].
  - destruct E as ((Hr & Hg & Hb) & Ha).
    eexists. split; [apply pure_ret |].
    destruct (Hshape (17 * r)%Z (17 * g)%Z (17 * b)%Z
                (match a with Some a => 17 * a | None => 255 end)%Z) as (H1 & H2 & H3);
      try lia.
    { destruct a; lia. }
    split; [exact H1 |]. split; [exact H2 |].
    intros Hlen. rewrite H3. destruct a as [a |].
    + destruct Ha as [_ Ha]. exfalso. destruct Hlen; congruence.
    + simpl. reflexivity.
  - destruct E as ((Hr & Hg & Hb) & Ha).
    eexists. split; [apply pure_ret |].
    destruct (Hshape rr gg bb (match aa with Some aa => aa | None => 255 end)%Z)
      as (H1 & H2 & H3); try lia.
    { destruct aa; lia. }
    split; [exact H1 |]. split; [exact H2 |].
    intros Hlen. rewrite H3. destruct aa as [aa |].
    + destruct Ha as [_ Ha]. exfalso. destruct Hlen; congruence.
    + simpl. reflexivity.
Qed.

Lemma names_well_formed : forallb well_formed_entry names = true.
Proof. vm_compute. reflexivity. Qed.

Lemma assoc_In {A : Type} (k : string) (l : list (string * A)) (a : A) :
  assoc k l = Some a -> In (k, a) l.
Proof.
  induction l as [| [k' a'] l IH]; simpl; [discriminate |].
  destruct (String.eqb_spec k k') as [-> | Hne].
  - intros H. injection H as ->. left. reflexivity.
  - intros H. right. apply IH. exact H.
Qed.

Lemma names_entry (name : string) (r g b : Z) :
  assoc name names = Some (r, g, b) ->
  lower name = name /\ (0 <= r <= 255)%Z /\ (0 <= g <= 255)%Z /\ (0 <= b <= 255)%Z.
Proof.
  intros H. apply assoc_In in H.
  pose proof names_well_formed as Hall. rewrite forallb_forall in Hall.
  specialize (Hall _ H). unfold well_formed_entry in Hall.
  repeat (apply andb_true_iff in Hall; destruct Hall as [Hall ?]).
  apply String.eqb_eq in Hall. repeat split; try assumption; lia.
Qed.

(** A word that is a key of the table of names gives, without a warning, the
    rgb color of its three bytes with alpha 100; and whenever
    [transformNamedColor] returns a color the node is a word in lowercase, the
    color is rgb, its alpha is 100 and its channels lie in [0,100]. *)
Theorem named_color_is_in_range :
  forall (rt : Runtime) (node : Node) (opts : Opts),
    (forall r g b,
        type node = t_word ->
        assoc (value node) names = Some (r, g, b) ->
        pure_at (transformNamedColor rt node opts)
          (VColor (new_Color rt
             (rgb_object (byte_to_percent r) (byte_to_percent g) (byte_to_percent b)
                (Fin 100) "rgb"))))
    /\ (forall s c s',
          transformNamedColor rt node opts s = (Ret (VColor c), s') ->
          s' = s
          /\ type node = t_word
          /\ lower (value node) = value node
          /\ colorspace c = "rgb"
          /\ alpha c = Fin 100
          /\ Forall (fun ch => JS.between 0 100 (get_channel c ch)) percentage_channels).
Proof.
  intros rt node opts. split.
  - intros r g b Htype Hname s.
    unfold transformNamedColor, isNamedColor, is_type, convertNtoRGB, bind.
    rewrite Htype, Hname. reflexivity.
  - intros s c s'.
    unfold transformNamedColor, isNamedColor, is_type, convertNtoRGB.
    destruct (NodeType_eqb (type node) t_word) eqn:Etype.
    + destruct (assoc (value node) names) as [[[r g] b] |] eqn:Ename.
      * unfold bind, ret. intros H. injection H as <- <-.
        destruct (names_entry _ _ _ _ Ename) as (Hl & Hr & Hg & Hb).
        split; [reflexivity |].
        split; [destruct (type node); try discriminate Etype; reflexivity |].
        split; [exact Hl |]. split; [reflexivity |]. split; [reflexivity |].
        unfold percentage_channels.
        repeat (apply List.Forall_cons;
                [rewrite new_Color_channel by reflexivity; simpl;
                 first [apply byte_to_percent_range; assumption | split; discriminate] |]).
        apply List.Forall_nil.
      * destruct (one_of object_prototype_keys (value node)).
        -- unfold bind, throw. discriminate.
        -- unfold bind, ret, manageUnresolved, push_warning, throw.
           destruct (String.eqb "warn" (unresolved opts));
             [| destruct (negb (String.eqb "ignore" (unresolved opts)))];
             discriminate.
    + unfold bind, ret, manageUnresolved, push_warning, throw.
      destruct (String.eqb "warn" (unresolved opts));
        [| destruct (negb (String.eqb "ignore" (unresolved opts)))];
        discriminate.
Qed.

(** A run on [rebeccapurple]. *)
Lemma named_color_witness :
  type (w "rebeccapurple") = t_word
  /\ assoc (value (w "rebeccapurple")) names = Some (102, 51, 153)%Z
  /\ pure_at (transformNamedColor js (w "rebeccapurple") (default_opts js ∅))
       (VColor (new_Color js
          (rgb_object (byte_to_percent 102) (byte_to_percent 51) (byte_to_percent 153)
             (Fin 100) "rgb")))
  /\ lower (value (w "rebeccapurple")) = value (w "rebeccapurple").
Proof.
  assert (H1 : type (w "rebeccapurple") = t_word) by reflexivity.
  assert (H2 : assoc (value (w "rebeccapurple")) names = Some (102, 51, 153)%Z)
    by (vm_compute; reflexivity).
  repeat (split; [assumption |]).
  destruct (named_color_is_in_range js (w "rebeccapurple") (default_opts js ∅))
    as [Hpos Hneg].
  pose proof (Hpos _ _ _ H1 H2) as Hrun.
  split; [exact Hrun |].
  exact (proj1 (proj2 (proj2 (Hneg [] _ [] (Hrun [])))) ).
Defined.

Lemma round_of_integer (z : Z) (x : Q) : x == inject_Z z -> JS.Qround x = inject_Z z.
Proof.
  intros H. unfold JS.Qround. f_equal. rewrite H.
  pose proof (Qfloor_le (inject_Z z + 0.5)) as Hle.
  pose proof (Qlt_floor (inject_Z z + 0.5)) as Hlt.
  assert (A : (Qfloor (inject_Z z + 0.5) <= z)%Z).
  { apply Z.lt_succ_r. rewrite Zlt_Qlt. unfold Z.succ. rewrite inject_Z_plus.
    change (inject_Z 1) with 1. lra. }
  assert (B : (z < Qfloor (inject_Z z + 0.5) + 1)%Z).
  { rewrite Zlt_Qlt. lra. }
  lia.
Qed.

Lemma legacy_byte_round_trip (z : Z) :
  JS.Math_round (JS.div (JS.mul (byte_to_percent z) (Fin 255)) (Fin 100))
  = Fin (inject_Z z).
Proof.
  change (JS.Math_round (JS.div (JS.mul (byte_to_percent z) (Fin 255)) (Fin 100)))
    with (Fin (JS.Qround (inject_Z z / 2.55 * 255 / 100))).
  f_equal. apply round_of_integer. field.
Qed.

Lemma legacy_string_of_bytes (rt : Runtime) (r g b : Z) (a : num) (space : string) :
  space = "rgb" \/ space = "" ->
  JS.strict_eq a (Fin 100) = true ->
  color2legacyString rt
    (new_Color rt
       (rgb_object (byte_to_percent r) (byte_to_percent g) (byte_to_percent b) a space))
  = "rgb(" +:+ rt.(show) (Fin (inject_Z r)) +:+ ", " +:+ rt.(show) (Fin (inject_Z g))
      +:+ ", " +:+ rt.(show) (Fin (inject_Z b)) +:+ ")".
Proof.
  intros Hspace Hopaque.
  rewrite <- (legacy_byte_round_trip r), <- (legacy_byte_round_trip g),
    <- (legacy_byte_round_trip b).
  change (byte_to_percent r) with (Fin (inject_Z r / 2.55)).
  change (byte_to_percent g) with (Fin (inject_Z g / 2.55)).
  change (byte_to_percent b) with (Fin (inject_Z b / 2.55)).
  destruct Hspace as [-> | ->];
    unfold color2legacyString, color2rgbLegacyString;
    cbn [new_Color rgb_object colorspace String.eqb Ascii.eqb Bool.eqb negb has get_channel
         andb set_colorspace set_channel channel_eqb color2rgb red green blue alpha];
    rewrite Hopaque; reflexivity.
Qed.

(** The legacy stringifier prints back the bytes of a color literal: the
    color of a named color or of a six-digit hex color with bytes [r], [g]
    and [b] is printed as rgb(r, g, b). *)
Theorem literal_bytes_are_printed_back :
  forall (rt : Runtime) (r g b : Z),
    let text :=
      "rgb(" +:+ rt.(show) (Fin (inject_Z r)) +:+ ", " +:+ rt.(show) (Fin (inject_Z g))
        +:+ ", " +:+ rt.(show) (Fin (inject_Z b)) +:+ ")" in
    color2legacyString rt
      (new_Color rt
         (rgb_object (byte_to_percent r) (byte_to_percent g) (byte_to_percent b)
            (Fin 100) "rgb"))
    = text
    /\ color2legacyString rt
         (new_Color rt
            (rgb_object (byte_to_percent r) (byte_to_percent g) (byte_to_percent b)
               (byte_to_percent 255) ""))
       = text.
Proof.
  intros rt r g b text. unfold text. split.
  - apply legacy_string_of_bytes; [left; reflexivity | reflexivity].
  - apply legacy_string_of_bytes; [right; reflexivity | reflexivity].
Qed.

(** ** Units of the hue *)

Lemma Qrem_360_lower (x : Q) : -360 < JS.Qrem x 360.
Proof.
  destruct x as [n d]. unfold JS.Qrem, JS.Qtrunc.
  change (Qnum ((n # d) / 360)) with (n * 1)%Z.
  change (Qden ((n # d) / 360)) with (d * 360)%positive.
  pose proof (Z.quot_rem' (n * 1) (Z.pos (d * 360))) as Hqr.
  assert (Hpos : (0 <= n -> 0 <= Z.rem (n * 1) (Z.pos (d * 360)) < Z.pos (d * 360))%Z)
    by (intros; apply Z.rem_bound_pos; lia).
  assert (Hneg : (n <= 0 -> - Z.pos (d * 360) < Z.rem (n * 1) (Z.pos (d * 360)) <= 0)%Z)
    by (intros; apply Z.rem_bound_pos_neg; lia).
  set (k := Z.quot (n * 1) (Z.pos (d * 360))) in *.
  set (r := Z.rem (n * 1) (Z.pos (d * 360))) in *.
  unfold Qlt, Qle, Qminus, Qplus, Qopp, Qmult, inject_Z. simpl.
  rewrite Pos2Z.inj_mul in *. lia.
Qed.

Lemma rem_360_within (x : num) (d : Q) :
  JS.rem x (Fin 360) = Fin d ->
  exists q, x = Fin q /\ -360 < d /\ d < 360 /\ (0 <= q -> 0 <= d) /\ (q <= 0 -> d <= 0).
Proof.
  destruct x as [| | q]; try discriminate. simpl. intros H. injection H as <-.
  exists q. destruct (Qrem_360_bounds q) as (Hlt & Hpos & Hneg).
  repeat split; try assumption. apply Qrem_360_lower.
Qed.

(** A hue given in degrees, gradians, radians or turns is converted to a
    number of degrees strictly between -360 and 360 that never has the sign
    opposite to the one of the hue given: a negative angle stays negative
    and is not wrapped into [0,360). *)
Theorem hue_conversions_stay_within_a_turn :
  forall (rt : Runtime) (x pi d : Q),
    rt.(Math_PI) = Fin pi ->
    0 < pi ->
    convertDtoD (Fin x) = Fin d \/ convertGtoD (Fin x) = Fin d
    \/ convertRtoD rt (Fin x) = Fin d \/ convertTtoD (Fin x) = Fin d ->
    -360 < d /\ d < 360 /\ (0 <= x -> 0 <= d) /\ (x <= 0 -> d <= 0).
Proof.
  intros rt x pi d Hpi Hpos H.
  unfold convertDtoD, convertGtoD, convertRtoD, convertTtoD in H. rewrite Hpi in H.
  destruct H as [H | [H | [H | H]]];
    apply rem_360_within in H; destruct H as (q & Hq & Hlo & Hhi & Hp & Hn).
  - injection Hq as <-. repeat split; assumption.
  - simpl in Hq. injection Hq as <-.
    repeat split; try assumption; intros; [apply Hp | apply Hn]; nra.
  - simpl in Hq. destruct (Qeq_bool pi 0) eqn:E; [discriminate Hq |].
    injection Hq as <-.
    assert (Hinv : 0 < / pi) by (apply Qinv_lt_0_compat; exact Hpos).
    repeat split; try assumption; intros; [apply Hp | apply Hn]; unfold Qdiv; nra.
  - simpl in Hq. injection Hq as <-.
    repeat split; try assumption; intros; [apply Hp | apply Hn]; nra.
Qed.

(** A run on -90 degrees. *)
Lemma hue_conversions_witness :
  js.(Math_PI) = Fin 3.141592653589793
  /\ 0 < 3.141592653589793
  /\ convertDtoD (Fin (-90)) = Fin (-90)
  /\ (-360 < -90 /\ -90 < 360 /\ (0 <= -90 -> 0 <= -90) /\ (-90 <= 0 -> -90 <= 0)).
Proof.
  assert (H1 : js.(Math_PI) = Fin 3.141592653589793) by reflexivity.
  assert (H2 : 0 < 3.141592653589793) by reflexivity.
  assert (H3 : convertDtoD (Fin (-90)) = Fin (-90)) by (vm_compute; reflexivity).
  split; [exact H1 |]. split; [exact H2 |]. split; [exact H3 |].
  exact (hue_conversions_stay_within_a_turn js (-90) 3.141592653589793 (-90) H1 H2
           (or_introl H3)).
Defined.

(** ** The unresolved policy over the whole transform *)

Lemma quiet_obeys (policy : string) {A : Type} (m : M A) : quiet m -> obeys policy m.
Proof.
  intros H s. destruct (H s) as [Hs He]. split.
  - exists []. rewrite app_nil_r. split; [exact Hs |].
    destruct (may_warn policy); [exact I | reflexivity].
  - destruct (fst (m s)) as [a | [message word | what] |]; try exact I. contradiction.
Qed.

Lemma obeys_bind (policy : string) {A B : Type} (m : M A) (k : A -> M B) :
  obeys policy m -> (forall a, obeys policy (k a)) -> obeys policy (bind m k).
Proof.
  intros Hm Hk s. unfold bind. specialize (Hm s).
  destruct (m s) as [[a | e |] s1]; cbn [fst snd] in Hm;
    destruct Hm as [(a1 & -> & H1) He].
  - specialize (Hk a (s ++ a1)). destruct Hk as [(a2 & Hs2 & H2) He2].
    split; [| exact He2].
    exists (a1 ++ a2). rewrite Hs2, app_assoc. split; [reflexivity |].
    destruct (may_warn policy); [exact I | subst; reflexivity].
  - split; [exists a1; split; [reflexivity | exact H1] | exact He].
  - split; [exists a1; split; [reflexivity | exact H1] | exact I].
Qed.

Lemma obeys_mapM (policy : string) {A B : Type} (f : A -> M B) (l : list A) :
  (forall x, obeys policy (f x)) -> obeys policy (mapM f l).
Proof.
  intros H. induction l as [| x l IH]; simpl.
  - apply quiet_obeys, quiet_ret.
  - apply obeys_bind; [apply H |]. intros y.
    apply obeys_bind; [apply IH |]. intros ys. apply quiet_obeys, quiet_ret.
Qed.

Lemma obeys_foldM (policy : string) {A B : Type} (f : B -> A -> M B) (l : list A)
    (init : B) :
  (forall b x, obeys policy (f b x)) -> obeys policy (foldM f init l).
Proof.
  intros H. revert init. induction l as [| x l IH]; intros init; simpl.
  - apply quiet_obeys, quiet_ret.
  - apply obeys_bind; [apply H | intros; apply IH].
Qed.

Lemma obeys_manageUnresolved (node : Node) (opts : Opts) (word message : string) :
  obeys (unresolved opts) (manageUnresolved node opts word message).
Proof.
  intros s. unfold manageUnresolved, bind, push_warning, ret, throw, may_warn, may_raise.
  destruct (String.eqb "warn" (unresolved opts)) eqn:Ew; cbn [fst snd negb andb].
  - split; [| exact I]. eexists. split; [reflexivity | exact I].
  - destruct (String.eqb "ignore" (unresolved opts)) eqn:Ei; cbn [fst snd negb andb].
    + split; [| exact I]. exists []. rewrite app_nil_r. split; reflexivity.
    + split; [| reflexivity]. exists []. rewrite app_nil_r. split; reflexivity.
Qed.

Ltac obeys_step :=
  lazymatch goal with
  | |- obeys _ (ret _) => apply quiet_obeys, quiet_ret
  | |- obeys _ (throw (TypeError _)) => apply quiet_obeys, quiet_throw_TypeError
  | |- obeys _ out_of_fuel => apply quiet_obeys, quiet_out_of_fuel
  | |- obeys _ (manageUnresolved _ _ _ _) => apply obeys_manageUnresolved
  | |- obeys _ (transformArgsByParams _ _) =>
      apply quiet_obeys, quiet_transformArgsByParams; quiet_positions
  | |- obeys _ (call_getter _ _ _) => apply quiet_obeys, quiet_call_getter
  | |- obeys _ (call_setter _ _ _ _) => apply quiet_obeys, quiet_call_setter
  | |- obeys _ (base_color _) => apply quiet_obeys, quiet_base_color
  | |- obeys _ (convertNtoRGB _) => apply quiet_obeys, quiet_convertNtoRGB
  | |- obeys _ (isNamedColor _) => apply quiet_obeys, quiet_isNamedColor
  | |- obeys _ (bind _ _) => apply obeys_bind; [| intros ?]
  | |- obeys _ (match ?x with _ => _ end) => destruct x
  end.

Section Obeys.

Variable rt : Runtime.
Variable opts : Opts.

Lemma obeys_transformHue (node : Node) :
  obeys (unresolved opts) (transformHue rt node opts).
Proof. unfold transformHue. repeat obeys_step. Qed.

Lemma obeys_transformRGBFunction (node : Node) :
  obeys (unresolved opts) (transformRGBFunction rt node opts).
Proof. unfold transformRGBFunction. repeat obeys_step. Qed.

Lemma obeys_transformHSLFunction (node : Node) :
  obeys (unresolved opts) (transformHSLFunction rt node opts).
Proof. unfold transformHSLFunction. repeat obeys_step. Qed.

Lemma obeys_transformHWBFunction (node : Node) :
  obeys (unresolved opts) (transformHWBFunction rt node opts).
Proof. unfold transformHWBFunction. repeat obeys_step. Qed.

Lemma obeys_transformHexColor (node : Node) :
  obeys (unresolved opts) (transformHexColor rt node opts).
Proof. unfold transformHexColor. repeat obeys_step. Qed.

Lemma obeys_transformNamedColor (node : Node) :
  obeys (unresolved opts) (transformNamedColor rt node opts).
Proof. unfold transformNamedColor. repeat obeys_step. Qed.

Lemma obeys_transformAlphaBlueGreenRedAdjuster (base : Val) (node : Node) :
  obeys (unresolved opts) (transformAlphaBlueGreenRedAdjuster rt base node opts).
Proof.
  unfold transformAlphaBlueGreenRedAdjuster.
  apply obeys_bind.
  { apply quiet_obeys, quiet_transformArgsByParams.
    destruct (alphaMatch (value node)); quiet_positions. }
  intros args. repeat obeys_step.
Qed.

Lemma obeys_transformRGBAdjuster (base : Val) (node : Node) :
  obeys (unresolved opts) (transformRGBAdjuster rt base node opts).
Proof. unfold transformRGBAdjuster. repeat obeys_step. Qed.

Lemma obeys_transformHueAdjuster (base : Val) (node : Node) :
  obeys (unresolved opts) (transformHueAdjuster rt base node opts).
Proof. unfold transformHueAdjuster. repeat obeys_step. Qed.

Lemma obeys_transformBlacknessLightnessSaturationWhitenessAdjuster (base : Val) (node : Node) :
  obeys (unresolved opts)
    (transformBlacknessLightnessSaturationWhitenessAdjuster rt base node opts).
Proof.
  unfold transformBlacknessLightnessSaturationWhitenessAdjuster. repeat obeys_step.
Qed.

Lemma obeys_transformShadeTintAdjuster (base : Val) (node : Node) :
  obeys (unresolved opts) (transformShadeTintAdjuster rt base node opts).
Proof. unfold transformShadeTintAdjuster. repeat obeys_step. Qed.

Section ObeysRecursive.

Variable fuel : nat.
Variable transformColor : Param.
Hypothesis quiet_transformColor :
  forall node o, unresolved o = "ignore" -> quiet (transformColor node o).
Hypothesis obeys_transformColor :
  forall node, obeys (unresolved opts) (transformColor node opts).

Lemma obeys_transformBlendAdjuster (base : Val) (node : Node) (isAlphaBlend : bool) :
  obeys (unresolved opts) (transformBlendAdjuster rt transformColor base node isAlphaBlend opts).
Proof.
  unfold transformBlendAdjuster.
  apply obeys_bind.
  { apply quiet_obeys, quiet_transformArgsByParams. intros param f child Hp Hf.
    destruct Hp as [<- | []]. simpl in Hf.
    destruct Hf as [<- | [<- | [<- | []]]]; auto. }
  intros args. repeat obeys_step.
Qed.

Lemma obeys_transformContrastAdjuster (base : Val) (node : Node) :
  obeys (unresolved opts) (transformContrastAdjuster rt fuel base node opts).
Proof. unfold transformContrastAdjuster. repeat obeys_step. Qed.

Lemma obeys_transformColorByAdjusters (color : Val) (adjusterNodes : list Node) :
  obeys (unresolved opts)
    (transformColorByAdjusters rt fuel transformColor color adjusterNodes opts).
Proof.
  unfold transformColorByAdjusters. apply obeys_foldM. intros base node.
  repeat lazymatch goal with
         | |- obeys _ (if ?b then _ else _) => destruct b
         end;
    auto using obeys_transformAlphaBlueGreenRedAdjuster, obeys_transformRGBAdjuster,
      obeys_transformHueAdjuster,
      obeys_transformBlacknessLightnessSaturationWhitenessAdjuster,
      obeys_transformShadeTintAdjuster, obeys_transformBlendAdjuster,
      obeys_transformContrastAdjuster.
  repeat obeys_step.
Qed.

Lemma obeys_transformColorModFunction (node : Node) :
  obeys (unresolved opts) (transformColorModFunction rt fuel transformColor node opts).
Proof.
  unfold transformColorModFunction.
  destruct (nodes_or_empty node) as [| colorOrHueNode adjusterNodes]; [repeat obeys_step |].
  apply obeys_bind.
  - destruct (isHue rt colorOrHueNode).
    + apply obeys_bind; [apply obeys_transformHue | intros; obeys_step].
    + apply obeys_transformColor.
  - intros color. destruct (is_color color);
      [apply obeys_transformColorByAdjusters | repeat obeys_step].
Qed.

Lemma obeys_transformColor_body (node : Node) :
  obeys (unresolved opts) (transformColor_body rt fuel transformColor node opts).
Proof.
  unfold transformColor_body.
  repeat lazymatch goal with
         | |- obeys _ (if ?b then _ else _) => destruct b
         end;
    auto using obeys_transformRGBFunction, obeys_transformHSLFunction,
      obeys_transformHWBFunction, obeys_transformColorModFunction,
      obeys_transformHexColor.
  apply obeys_bind; [obeys_step | intros named].
  destruct named; [apply obeys_transformNamedColor | repeat obeys_step].
Qed.

End ObeysRecursive.

Lemma obeys_transformColor (fuel depth : nat) (node : Node) :
  obeys (unresolved opts) (transformColor rt fuel depth node opts).
Proof.
  revert node. induction depth as [| depth IH]; intros node; simpl.
  - obeys_step.
  - apply obeys_transformColor_body; [| exact IH].
    intros n o Ho. apply quiet_transformColor. exact Ho.
Qed.

(** The walk of [transformVariables] is quiet: it never calls
    [manageUnresolved] outside the matcher. *)
Section QuietWalk.

Variable walk_rec : list Node -> M (list Node).
Hypothesis quiet_walk_rec : forall array, quiet (walk_rec array).

Lemma quiet_descend (array : list Node) (index : nat) (node : Node) (attached : bool) :
  quiet (descend walk_rec array index node attached).
Proof.
  unfold descend. destruct (type node); try apply quiet_ret.
  destruct (nodes node); [| apply quiet_ret].
  apply quiet_bind; [apply quiet_walk_rec | intros; apply quiet_ret].
Qed.

Lemma quiet_walk_callback (array : list Node) (index : nat) (child : Node) :
  quiet (walk_callback rt opts walk_rec array index child).
Proof.
  unfold walk_callback.
  destruct (isVariable child); [| apply quiet_descend].
  apply quiet_bind; [apply quiet_transformArgsByParams; quiet_positions | intros args].
  destruct (customProperties opts !! property_key (nth_val 0 args)) as [value |].
  - apply quiet_bind.
    + destruct (looseVarMatch _); [apply quiet_walk_rec | apply quiet_ret].
    + intros. apply quiet_descend.
  - destruct (one_of object_prototype_keys _); [apply quiet_throw_TypeError |].
    destruct (nth_val 1 args) as [| | | | fallback]; try apply quiet_descend.
    destruct (nodes fallback) as [[| first [|]] |];
      try apply quiet_descend; try apply quiet_throw_TypeError.
    destruct (nodes first) as [[|] |];
      try apply quiet_descend; try apply quiet_throw_TypeError.
    apply quiet_bind; [apply quiet_walk_rec | intros expanded].
    apply quiet_bind; [apply quiet_throw_TypeError | intros; apply quiet_ret].
Qed.

Lemma quiet_walk_loop (steps i : nat) (array : list Node) :
  quiet (walk_loop rt opts walk_rec steps i array).
Proof.
  revert i array. induction steps as [| steps IH]; intros i array; simpl.
  - apply quiet_ret.
  - apply quiet_bind; [| intros; apply IH].
    unfold walk_step. destruct (array !! i);
      [apply quiet_walk_callback | apply quiet_throw_TypeError].
Qed.

End QuietWalk.

Lemma quiet_walk_variables (depth : nat) (array : list Node) :
  quiet (walk_variables rt depth opts array).
Proof.
  revert array. induction depth as [| depth IH]; intros array; simpl.
  - apply quiet_out_of_fuel.
  - unfold walk. apply quiet_walk_loop. exact IH.
Qed.

Lemma quiet_transformVariables (depth : nat) (node : Node) :
  quiet (transformVariables rt depth node opts).
Proof.
  unfold transformVariables. destruct (nodes node); [| apply quiet_throw_TypeError].
  apply quiet_bind; [apply quiet_walk_variables | intros; apply quiet_ret].
Qed.

End Obeys.

(** Whatever the tree, [transformAST] keeps the warnings it is given; it adds
    warnings only under "warn"; and it raises the error of [manageUnresolved]
    only under a policy that is neither "warn" nor "ignore". *)
Theorem transform_obeys_the_unresolved_policy :
  forall (rt : Runtime) (fuel depth : nat) (children : list Node) (opts : Opts),
    obeys (unresolved opts) (transformAST rt fuel depth children opts).
Proof.
  intros rt fuel depth. induction depth as [| depth IH]; intros children opts.
  - simpl. apply quiet_obeys, quiet_out_of_fuel.
  - cbn [transformAST]. apply obeys_mapM. intros child.
    destruct (isColorModFunction child).
    + apply obeys_bind.
      { destruct (transformVars opts);
          [apply quiet_obeys, quiet_transformVariables | apply quiet_obeys, quiet_ret]. }
      intros child'. apply obeys_bind.
      { apply obeys_transformColorModFunction;
          [intros n o Ho; apply quiet_transformColor; exact Ho
          | apply obeys_transformColor]. }
      intros color. repeat obeys_step.
    + destruct (nodes child) as [[| g gs] |]; try (apply quiet_obeys, quiet_ret).
      apply obeys_bind; [apply IH | intros; apply quiet_obeys, quiet_ret].
Qed.

(** ** What the transform leaves alone *)

Lemma mapM_app {A B : Type} (f : A -> M B) (l1 l2 : list A) (s : list Warning) :
  mapM f (l1 ++ l2) s
  = (let* a := mapM f l1 in let* b := mapM f l2 in ret (a ++ b)) s.
Proof.
  revert s. induction l1 as [| x l1 IH]; intros s; simpl.
  - unfold bind, ret. destruct (mapM f l2 s) as [[b | e |] s']; reflexivity.
  - unfold bind. destruct (f x s) as [[y | e |] s1]; try reflexivity.
    rewrite IH. unfold bind, ret.
    destruct (mapM f l1 s1) as [[a | e |] s2]; try reflexivity.
    cbv beta iota.
    destruct (mapM f l2 s2) as [[b | e |] s3]; reflexivity.
Qed.

Lemma mapM_id {A : Type} (f : A -> M A) (l : list A) :
  (forall x, In x l -> pure_at (f x) x) -> pure_at (mapM f l) l.
Proof.
  intros H. rewrite <- (map_id l) at 2. apply pure_mapM. exact H.
Qed.

Lemma list_max_lt (l : list nat) (n : nat) :
  (list_max l < S n)%nat -> Forall (fun k => (k < S n)%nat) l.
Proof.
  intros H. apply List.Forall_forall. intros k Hk.
  assert (Hle : (list_max l <= n)%nat) by lia.
  rewrite list_max_le in Hle. rewrite List.Forall_forall in Hle.
  specialize (Hle k Hk). lia.
Qed.

Lemma transformAST_untouched (rt : Runtime) (fuel depth : nat) (opts : Opts) :
  forall children,
    forallb color_mod_free children = true ->
    (list_max (List.map height children) < depth)%nat ->
    pure_at (transformAST rt fuel depth children opts) children.
Proof.
  induction depth as [| depth IH]; intros children Hfree Hheight; [lia |].
  cbn [transformAST]. apply mapM_id. intros child Hin.
  rewrite forallb_forall in Hfree. specialize (Hfree child Hin).
  apply list_max_lt in Hheight. rewrite List.Forall_forall in Hheight.
  specialize (Hheight (height child) (in_map height _ _ Hin)).
  destruct child as [t v [[| g gs] |]]; cbn [color_mod_free] in Hfree;
    apply andb_true_iff in Hfree; destruct Hfree as [Hsite Hsub];
    apply negb_true_iff in Hsite;
    unfold isColorModFunction, is_type; cbn [type value nodes]; rewrite Hsite;
    try apply pure_ret.
  apply (pure_bind _ _ (g :: gs)); [| apply pure_ret].
  apply IH; [exact Hsub |]. cbn [height] in Hheight. lia.
Qed.

Lemma transformAST_app (rt : Runtime) (fuel depth : nat) (opts : Opts)
    (l1 l2 : list Node) (s : list Warning) :
  transformAST rt fuel depth (l1 ++ l2) opts s
  = (let* a := transformAST rt fuel depth l1 opts in
     let* b := transformAST rt fuel depth l2 opts in
     ret (a ++ b)) s.
Proof.
  destruct depth as [| depth]; [reflexivity |].
  cbn [transformAST]. apply mapM_app.
Qed.

(** Nodes that hold no color-mod() call are returned as they are, without a
    warning; and a node between such nodes is transformed as it would be
    alone, its neighbours staying in place. *)
Theorem only_call_sites_are_rewritten :
  forall (rt : Runtime) (fuel depth : nat) (opts : Opts) (before after : list Node)
         (site : Node) (s : list Warning),
    forallb color_mod_free (before ++ after) = true ->
    (list_max (List.map height (before ++ after)) < depth)%nat ->
    transformAST rt fuel depth (before ++ after) opts s = (Ret (before ++ after), s)
    /\ transformAST rt fuel depth (before ++ site :: after) opts s
       = (let* rewritten := transformAST rt fuel depth [site] opts in
          ret (before ++ rewritten ++ after)) s.
Proof.
  intros rt fuel depth opts before after site s Hfree Hheight.
  split; [apply transformAST_untouched; assumption |].
  rewrite forallb_app in Hfree. apply andb_true_iff in Hfree. destruct Hfree as [Hb Ha].
  rewrite List.map_app, list_max_app in Hheight.
  assert (Hbefore : pure_at (transformAST rt fuel depth before opts) before)
    by (apply transformAST_untouched; [exact Hb | lia]).
  assert (Hafter : pure_at (transformAST rt fuel depth after opts) after)
    by (apply transformAST_untouched; [exact Ha | lia]).
  change (before ++ site :: after) with (before ++ [site] ++ after).
  rewrite transformAST_app. unfold bind at 1. rewrite Hbefore. cbv beta iota.
  unfold bind at 1. rewrite transformAST_app. unfold bind.
  destruct (transformAST rt fuel depth [site] opts s) as [[r | e |] s1]; try reflexivity.
  rewrite Hafter. reflexivity.
Qed.

(** A run on [linear-gradient(red, blue) color-mod(red) solid]. *)
Lemma only_call_sites_witness :
  forallb color_mod_free ([gradient] ++ [w "solid"]) = true
  /\ (list_max (List.map height ([gradient] ++ [w "solid"])) < 2)%nat
  /\ transformAST js 0 2 ([gradient] ++ [w "solid"]) (default_opts js ∅) []
     = (Ret ([gradient] ++ [w "solid"]), [])
  /\ transformAST js 0 2 ([gradient] ++ fn "color-mod" [w "red"] :: [w "solid"])
       (default_opts js ∅) []
     = (Ret [gradient; w "rgb(255, 0, 0)"; w "solid"], []).
Proof.
  assert (H1 : forallb color_mod_free ([gradient] ++ [w "solid"]) = true) by reflexivity.
  assert (H2 : (list_max (List.map height ([gradient] ++ [w "solid"])) < 2)%nat)
    by (vm_compute; lia).
  repeat (split; [assumption |]).
  destruct (only_call_sites_are_rewritten js 0 2 (default_opts js ∅) [gradient] [w "solid"]
              (fn "color-mod" [w "red"]) [] H1 H2) as [Hsame Hsite].
  split; [exact Hsame |]. rewrite Hsite. vm_compute. reflexivity.
Defined.

(** ** Variables *)

Section WalkShift.

Variable rt : Runtime.
Variable opts : Opts.
Variable walk_rec : list Node -> M (list Node).

Lemma descend_cons (x : Node) (array : list Node) (index : nat) (node : Node)
    (attached : bool) (s : list Warning) :
  descend walk_rec (x :: array) (S index) node attached s
  = (let* r := descend walk_rec array index node attached in ret (x :: r)) s.
Proof.
  unfold descend. destruct (type node); try reflexivity.
  destruct (nodes node) as [children |]; [| reflexivity].
  unfold bind. destruct (walk_rec children s) as [[r | e |] s1]; try reflexivity.
  destruct attached; reflexivity.
Qed.

Lemma splice_cons (x : Node) (array : list Node) (index count : nat) (items : list Node) :
  splice (x :: array) (S index) count items = x :: splice array index count items.
Proof. reflexivity. Qed.

Lemma walk_callback_cons (x : Node) (array : list Node) (index : nat) (child : Node)
    (s : list Warning) :
  walk_callback rt opts walk_rec (x :: array) (S index) child s
  = (let* r := walk_callback rt opts walk_rec array index child in ret (x :: r)) s.
Proof.
  unfold walk_callback, descend, bind, ret, throw, spread_node.
  repeat first
    [ reflexivity
    | match goal with
      | |- context [if ?b then _ else _] => destruct b
      | |- context [match ?t with _ => _ end] => destruct t
      end ].
Qed.

Lemma walk_loop_cons (x : Node) (steps : nat) :
  forall (i : nat) (array : list Node) (s : list Warning),
    walk_loop rt opts walk_rec steps (S i) (x :: array) s
    = (let* r := walk_loop rt opts walk_rec steps i array in ret (x :: r)) s.
Proof.
  induction steps as [| steps IH]; intros i array s; [reflexivity |].
  cbn [walk_loop]. unfold walk_step.
  change ((x :: array) !! S i) with (array !! i).
  unfold bind at 1 2 3. destruct (array !! i) as [node |]; [| reflexivity].
  rewrite walk_callback_cons. unfold bind at 1.
  destruct (walk_callback rt opts walk_rec array i node s) as [[r | e |] s1];
    try reflexivity.
  unfold ret at 1. cbv beta iota. rewrite IH. reflexivity.
Qed.

Lemma walk_cons (x : Node) (array : list Node) (s : list Warning) :
  walk rt opts walk_rec (x :: array) s
  = (let* first := walk_step rt opts walk_rec (x :: array) 0 in
     walk_loop rt opts walk_rec (List.length array) 1 first) s.
Proof. reflexivity. Qed.

End WalkShift.

Section WalkIdentity.

Variable rt : Runtime.
Variable opts : Opts.
Variable walk_rec : list Node -> M (list Node).

Lemma var_free_not_variable (node : Node) : var_free node = true -> isVariable node = false.
Proof.
  destruct node as [t v ns]. cbn [var_free]. intros H.
  apply andb_true_iff in H. destruct H as [H _]. apply negb_true_iff in H. exact H.
Qed.

Lemma descend_untouched (array : list Node) (index : nat) (node : Node) :
  array !! index = Some node ->
  (forall children, nodes node = Some children -> pure_at (walk_rec children) children) ->
  pure_at (descend walk_rec array index node true) array.
Proof.
  intros Hlookup Hrec. unfold descend.
  destruct (type node) eqn:Etype; try apply pure_ret.
  destruct (nodes node) as [children |] eqn:Enodes; [| apply pure_ret].
  apply (pure_bind _ _ children); [apply Hrec; reflexivity |].
  intros s. unfold ret. f_equal. f_equal.
  apply list_insert_id. rewrite Hlookup. f_equal.
  destruct node as [t v ns]. simpl in *. subst. reflexivity.
Qed.

Lemma walk_untouched_by (array : list Node) :
  forallb var_free array = true ->
  (forall node children,
      In node array -> nodes node = Some children ->
      pure_at (walk_rec children) children) ->
  pure_at (walk rt opts walk_rec array) array.
Proof.
  induction array as [| x array IH]; intros Hfree Hrec; [apply pure_ret |].
  cbn [forallb] in Hfree. apply andb_true_iff in Hfree. destruct Hfree as [Hx Hfree].
  intros s. rewrite walk_cons. unfold bind, walk_step. cbn [lookup list_lookup].
  unfold walk_callback. rewrite (var_free_not_variable x Hx).
  rewrite (descend_untouched (x :: array) 0 x eq_refl)
    by (intros children Hc; apply (Hrec x); [left; reflexivity | exact Hc]).
  rewrite walk_loop_cons. unfold bind.
  change (walk_loop rt opts walk_rec (List.length array) 0 array)
    with (walk rt opts walk_rec array).
  rewrite IH; [reflexivity | exact Hfree |].
  intros node children Hin. apply Hrec. right. exact Hin.
Qed.

End WalkIdentity.

Lemma walk_variables_untouched (rt : Runtime) (opts : Opts) (depth : nat) :
  forall array,
    forallb var_free array = true ->
    (list_max (List.map height array) < depth)%nat ->
    pure_at (walk_variables rt depth opts array) array.
Proof.
  induction depth as [| depth IH]; intros array Hfree Hheight; [lia |].
  cbn [walk_variables]. apply walk_untouched_by; [exact Hfree |].
  intros node children Hin Hnodes.
  rewrite forallb_forall in Hfree. specialize (Hfree node Hin).
  apply list_max_lt in Hheight. rewrite List.Forall_forall in Hheight.
  specialize (Hheight (height node) (in_map height _ _ Hin)).
  destruct node as [t v ns]. cbn [nodes] in Hnodes. subst ns.
  cbn [var_free] in Hfree. apply andb_true_iff in Hfree. destruct Hfree as [_ Hsub].
  cbn [height] in Hheight. apply IH; [exact Hsub | lia].
Qed.

(** [transformVariables] returns a call that holds no var() as it is,
    without a warning, whatever the table of custom properties. *)
Theorem call_without_variables_is_untouched :
  forall (rt : Runtime) (opts : Opts) (depth : nat) (node : Node) (children : list Node),
    nodes node = Some children ->
    var_free node = true ->
    (height node <= depth)%nat ->
    pure_at (transformVariables rt depth node opts) node.
Proof.
  intros rt opts depth node children Hnodes Hfree Hheight.
  unfold transformVariables. rewrite Hnodes.
  destruct node as [t v ns]. cbn [nodes] in Hnodes. subst ns.
  cbn [var_free] in Hfree. apply andb_true_iff in Hfree. destruct Hfree as [_ Hsub].
  cbn [height] in Hheight.
  apply (pure_bind _ _ children); [| apply pure_ret].
  apply walk_variables_untouched; [exact Hsub | lia].
Qed.

(** A run on [color-mod(red blend(blue 50%))]. *)
Lemma call_without_variables_witness :
  nodes blend_site = Some [w "red"; sp; fn "blend" [w "blue"; sp; w "50%"]]
  /\ var_free blend_site = true
  /\ (height blend_site <= 2)%nat
  /\ pure_at (transformVariables js 2 blend_site (default_opts js {[ "--x" := [w "red"] ]}))
       blend_site.
Proof.
  assert (H1 : nodes blend_site = Some [w "red"; sp; fn "blend" [w "blue"; sp; w "50%"]])
    by reflexivity.
  assert (H2 : var_free blend_site = true) by reflexivity.
  assert (H3 : (height blend_site <= 2)%nat) by (vm_compute; lia).
  repeat (split; [assumption |]).
  exact (call_without_variables_is_untouched js _ 2 blend_site _ H1 H2 H3).
Defined.

Section Substitution.

Variable rt : Runtime.
Variable opts : Opts.
Variables (vname p : string).
Hypothesis Hvar : varMatch vname = true.

Let call : Node := fn vname [w p].

Lemma variable_arguments : pure_at
    (transformArgsByParams call [ [transformWord; validator isComma; transformNode] ])
    [VStr p].
Proof. intros s. reflexivity. Qed.

Lemma call_is_variable : isVariable call = true.
Proof. unfold isVariable, call. simpl. exact Hvar. Qed.


Lemma unknown_variable_step (depth : nat) (rest : list Node) (s : list Warning) :
  customProperties opts !! p = None ->
  one_of object_prototype_keys p = false ->
  walk_step rt opts (walk_variables rt (S depth) opts) (call :: rest) 0 s
  = (Ret (call :: rest), s).
Proof.
  intros Hunknown Hproto. unfold walk_step. cbn [lookup list_lookup].
  unfold walk_callback. rewrite call_is_variable.
  unfold bind at 1. rewrite variable_arguments. cbn [nth_val nth property_key].
  rewrite Hunknown, Hproto. reflexivity.
Qed.

End Substitution.

Lemma transformVariables_fn (rt : Runtime) (opts : Opts) (depth : nat) (name : string)
    (children : list Node) (s : list Warning) :
  transformVariables rt (S depth) (fn name children) opts s
  = (let* children' := walk rt opts (walk_variables rt depth opts) children in
     ret (fn name children')) s.
Proof. reflexivity. Qed.


(** A [var(--p)] without fallback whose property is not in the table stays in
    place, and the walk goes on with the siblings that follow. *)
Theorem unknown_variable_is_left_in_place :
  forall (rt : Runtime) (opts : Opts) (depth : nat) (name vname p : string)
         (rest : list Node) (s : list Warning),
    varMatch vname = true ->
    customProperties opts !! p = None ->
    one_of object_prototype_keys p = false ->
    transformVariables rt (S (S depth)) (fn name (fn vname [w p] :: rest)) opts s
    = (let* rest' := walk_variables rt (S (S depth)) opts rest in
       ret (fn name (fn vname [w p] :: rest'))) s.
Proof.
  intros rt opts depth name vname p rest s Hvar Hunknown Hproto.
  rewrite transformVariables_fn.
  unfold bind. rewrite walk_cons. unfold bind.
  rewrite (unknown_variable_step rt opts vname p Hvar depth rest s Hunknown Hproto).
  rewrite walk_loop_cons. unfold bind.
  cbn [walk_variables]. unfold walk.
  match goal with
  | |- context [walk_loop ?a1 ?a2 ?a3 ?a4 ?a5 ?a6 ?a7] =>
      destruct (walk_loop a1 a2 a3 a4 a5 a6 a7) as [[r | e |] s1]
  end; reflexivity.
Qed.


(** A run on [color-mod(var(--missing))]: the var() is kept, and is then no
    color. *)
Lemma unknown_variable_witness :
  varMatch "var" = true
  /\ customProperties (default_opts js ∅) !! "--missing" = None
  /\ one_of object_prototype_keys "--missing" = false
  /\ transformVariables js 2 (fn "color-mod" (fn "var" [w "--missing"] :: [])) (default_opts js ∅) []
     = (Ret (fn "color-mod" [fn "var" [w "--missing"]]), [])
  /\ transformAST js 0 3 [fn "color-mod" [fn "var" [w "--missing"]]] (default_opts js ∅) []
     = (Throw (DeclError "Expected a color" "var"), []).
Proof.
  assert (H1 : varMatch "var" = true) by reflexivity.
  assert (H2 : customProperties (default_opts js ∅) !! "--missing" = None) by reflexivity.
  assert (H3 : one_of object_prototype_keys "--missing" = false) by reflexivity.
  repeat (split; [assumption |]).
  split.
  - rewrite (unknown_variable_is_left_in_place js (default_opts js ∅) 0 "color-mod" "var"
               "--missing" [] [] H1 H2 H3). reflexivity.
  - vm_compute. reflexivity.
Defined.

(** ** The unresolved policy at a call site (C1) *)

Lemma reports_color (policy : string) (c : Color) : reports policy (ret (VColor c)).
Proof. intros s v s' H Hv. injection H as <- <-. discriminate Hv. Qed.

Lemma reports_throw (policy : string) (e : Exn) : reports policy (throw e).
Proof. intros s v s' H. discriminate H. Qed.

Lemma reports_out_of_fuel (policy : string) : reports policy out_of_fuel.
Proof. intros s v s' H. discriminate H. Qed.

Lemma reports_manageUnresolved (node : Node) (opts : Opts) (word message : string) :
  reports (unresolved opts) (manageUnresolved node opts word message).
Proof.
  intros s v s'. unfold manageUnresolved, bind, push_warning, ret, throw, may_warn, may_raise.
  destruct (String.eqb "warn" (unresolved opts)) eqn:Ew; cbn [negb andb].
  - intros H _. injection H as <- <-. split; [reflexivity |].
    intros _. eexists. split; [reflexivity | discriminate].
  - destruct (String.eqb "ignore" (unresolved opts)) eqn:Ei; cbn [negb andb].
    + intros H _. split; [reflexivity | discriminate].
    + intros H. discriminate H.
Qed.

Lemma reports_bind (policy : string) {A : Type} (m : M A) (k : A -> M Val) :
  obeys policy m -> (forall a, reports policy (k a)) -> reports policy (bind m k).
Proof.
  intros Hm Hk s v s'. unfold bind. specialize (Hm s).
  destruct (m s) as [[a | e |] s1]; try discriminate.
  cbn [fst snd] in Hm. destruct Hm as [(a1 & -> & _) _].
  intros H Hv. destruct (Hk a _ _ _ H Hv) as [Hraise Hwarn].
  split; [exact Hraise |]. intros Hw. destruct (Hwarn Hw) as (a2 & -> & Hne).
  exists (a1 ++ a2). rewrite app_assoc. split; [reflexivity |].
  intros E. apply app_eq_nil in E. destruct E as [_ E]. contradiction.
Qed.

Lemma reports_call_setter (rt : Runtime) (policy : string) (base : Val) (name : string)
    (v : num) :
  reports policy (call_setter rt base name v).
Proof.
  unfold call_setter.
  destruct base; try apply reports_throw.
  destruct (channel_of_name name); [apply reports_color | apply reports_throw].
Qed.

Ltac reports_step :=
  lazymatch goal with
  | |- reports _ (ret (VColor _)) => apply reports_color
  | |- reports _ (throw _) => apply reports_throw
  | |- reports _ out_of_fuel => apply reports_out_of_fuel
  | |- reports _ (manageUnresolved _ _ _ _) => apply reports_manageUnresolved
  | |- reports _ (call_setter _ _ _ _) => apply reports_call_setter
  | |- reports _ (bind _ _) => apply reports_bind; [repeat obeys_step | intros ?]
  | |- reports _ (match ?x with _ => _ end) => destruct x
  end.

Section Reports.

Variable rt : Runtime.
Variable opts : Opts.

Lemma reports_transformAlphaBlueGreenRedAdjuster (base : Val) (node : Node) :
  reports (unresolved opts) (transformAlphaBlueGreenRedAdjuster rt base node opts).
Proof.
  unfold transformAlphaBlueGreenRedAdjuster.
  apply reports_bind.
  { apply quiet_obeys, quiet_transformArgsByParams.
    destruct (alphaMatch (value node)); quiet_positions. }
  intros args. repeat reports_step.
Qed.

Lemma reports_transformRGBAdjuster (base : Val) (node : Node) :
  reports (unresolved opts) (transformRGBAdjuster rt base node opts).
Proof. unfold transformRGBAdjuster. repeat reports_step. Qed.

Lemma reports_transformHueAdjuster (base : Val) (node : Node) :
  reports (unresolved opts) (transformHueAdjuster rt base node opts).
Proof. unfold transformHueAdjuster. repeat reports_step. Qed.

Lemma reports_transformBlacknessLightnessSaturationWhitenessAdjuster (base : Val)
    (node : Node) :
  reports (unresolved opts)
    (transformBlacknessLightnessSaturationWhitenessAdjuster rt base node opts).
Proof.
  unfold transformBlacknessLightnessSaturationWhitenessAdjuster. repeat reports_step.
Qed.

Lemma reports_transformShadeTintAdjuster (base : Val) (node : Node) :
  reports (unresolved opts) (transformShadeTintAdjuster rt base node opts).
Proof. unfold transformShadeTintAdjuster. repeat reports_step. Qed.


Section ReportsRecursive.

Variable fuel : nat.
Variable transformColor : Param.
Hypothesis quiet_transformColor :
  forall node o, unresolved o = "ignore" -> quiet (transformColor node o).
Hypothesis obeys_transformColor :
  forall node, obeys (unresolved opts) (transformColor node opts).

Lemma reports_transformBlendAdjuster (base : Val) (node : Node) (isAlphaBlend : bool) :
  reports (unresolved opts)
    (transformBlendAdjuster rt transformColor base node isAlphaBlend opts).
Proof.
  unfold transformBlendAdjuster.
  apply reports_bind.
  { apply quiet_obeys, quiet_transformArgsByParams. intros param f child Hp Hf.
    destruct Hp as [<- | []]. simpl in Hf.
    destruct Hf as [<- | [<- | [<- | []]]]; auto. }
  intros args. repeat reports_step.
Qed.

Lemma reports_transformContrastAdjuster (base : Val) (node : Node) :
  reports (unresolved opts) (transformContrastAdjuster rt fuel base node opts).
Proof. unfold transformContrastAdjuster. repeat reports_step. Qed.

Lemma obeys_adjust (base : Val) (node : Node) :
  obeys (unresolved opts) (adjust rt opts fuel transformColor base node).
Proof.
  unfold adjust.
  repeat lazymatch goal with
         | |- obeys _ (if ?b then _ else _) => destruct b
         end;
    auto using obeys_transformAlphaBlueGreenRedAdjuster, obeys_transformRGBAdjuster,
      obeys_transformHueAdjuster,
      obeys_transformBlacknessLightnessSaturationWhitenessAdjuster,
      obeys_transformShadeTintAdjuster, obeys_transformBlendAdjuster,
      obeys_transformContrastAdjuster.
  repeat obeys_step.
Qed.

Lemma reports_adjust (base : Val) (node : Node) :
  is_color base = true -> reports (unresolved opts) (adjust rt opts fuel transformColor base node).
Proof.
  intros Hbase. unfold adjust.
  repeat lazymatch goal with
         | |- reports _ (if ?b then _ else _) => destruct b
         end;
    auto using reports_transformAlphaBlueGreenRedAdjuster, reports_transformRGBAdjuster,
      reports_transformHueAdjuster,
      reports_transformBlacknessLightnessSaturationWhitenessAdjuster,
      reports_transformShadeTintAdjuster, reports_transformBlendAdjuster,
      reports_transformContrastAdjuster.
  destruct base; try discriminate Hbase.
  apply reports_bind; [apply obeys_manageUnresolved | intros; apply reports_color].
Qed.

Lemma reports_foldM_adjust (adjusterNodes : list Node) :
  forall color, is_color color = true ->
    reports (unresolved opts) (foldM (adjust rt opts fuel transformColor) color adjusterNodes).
Proof.
  induction adjusterNodes as [| node adjusterNodes IH]; intros color Hcolor.
  - destruct color; try discriminate Hcolor. apply reports_color.
  - cbn [foldM]. intros s v s'. unfold bind.
    pose proof (obeys_adjust color node s) as Hstep.
    pose proof (reports_adjust color node Hcolor s) as Hrep.
    destruct (adjust rt opts fuel transformColor color node s) as [[base | e |] s1]; try discriminate.
    cbn [fst snd] in Hstep. destruct Hstep as [(a1 & -> & _) _].
    intros Hrun Hv.
    destruct (is_color base) eqn:Ebase.
    + destruct (IH base Ebase _ _ _ Hrun Hv) as [Hraise Hwarn].
      split; [exact Hraise |]. intros Hw. destruct (Hwarn Hw) as (a2 & -> & Hne).
      exists (a1 ++ a2). rewrite app_assoc. split; [reflexivity |].
      intros E. apply app_eq_nil in E. destruct E as [_ E]. contradiction.
    + destruct (Hrep base _ eq_refl Ebase) as [Hraise Hwarn].
      split; [exact Hraise |]. intros Hw. destruct (Hwarn Hw) as (a1' & E1 & Hne).
      apply app_inv_head in E1. subst a1'.
      pose proof (obeys_foldM (unresolved opts) (adjust rt opts fuel transformColor)
                    adjusterNodes base obeys_adjust
                    (s ++ a1)) as Hrest.
      rewrite Hrun in Hrest. cbn [fst snd] in Hrest. destruct Hrest as [(a2 & -> & _) _].
      exists (a1 ++ a2). rewrite app_assoc. split; [reflexivity |].
      intros E. apply app_eq_nil in E. destruct E as [E _]. contradiction.
Qed.

Lemma reports_transformColorByAdjusters (color : Val) (adjusterNodes : list Node) :
  is_color color = true ->
  reports (unresolved opts)
    (transformColorByAdjusters rt fuel transformColor color adjusterNodes opts).
Proof. intros H. apply (reports_foldM_adjust _ color H). Qed.

Lemma reports_transformColorModFunction (node : Node) :
  reports (unresolved opts) (transformColorModFunction rt fuel transformColor node opts).
Proof.
  unfold transformColorModFunction.
  destruct (nodes_or_empty node) as [| colorOrHueNode adjusterNodes];
    [apply reports_manageUnresolved |].
  apply reports_bind.
  - destruct (isHue rt colorOrHueNode).
    + apply obeys_bind; [apply obeys_transformHue | intros; obeys_step].
    + apply obeys_transformColor.
  - intros color. destruct (is_color color) eqn:E;
      [apply reports_transformColorByAdjusters; exact E | apply reports_manageUnresolved].
Qed.

End ReportsRecursive.

End Reports.

Section CallSite.

Variable rt : Runtime.

Lemma call_without_var_is_kept (opts : Opts) (depth : nat) (node : Node) :
  nodes node <> None ->
  var_free node = true ->
  (height node <= depth)%nat ->
  pure_at (transformVariables rt depth node opts) node.
Proof.
  intros Hnodes Hfree Hheight. unfold transformVariables.
  destruct node as [t v [children |]]; [| contradiction].
  cbn [nodes]. cbn [var_free] in Hfree.
  apply andb_true_iff in Hfree. destruct Hfree as [_ Hsub].
  cbn [height] in Hheight.
  apply (pure_bind _ _ children); [| apply pure_ret].
  apply walk_variables_untouched; [exact Hsub | lia].
Qed.

(** The step of [transformAST] that inlines the variables of a call site
    returns the call site, and keeps the warnings. *)
Lemma inlining_returns (opts : Opts) (depth : nat) (site child : Node)
    (s s0 : list Warning) :
  (if transformVars opts then transformVariables rt depth site opts else ret site) s
  = (Ret child, s0) ->
  s0 = s
  /\ isColorModFunction child = isColorModFunction site
  /\ (transformVars opts = false -> child = site)
  /\ (transformVars opts = true ->
      fst (transformVariables rt depth site opts s) = Ret child)
  /\ (var_free site = true -> (height site <= depth)%nat -> child = site).
Proof.
  destruct (transformVars opts) eqn:Evars.
  - intros H. pose proof (quiet_transformVariables rt opts depth site s) as [Hs _].
    rewrite H in Hs. cbn [snd] in Hs. subst s0.
    split; [reflexivity |]. split.
    { unfold transformVariables in H. destruct (nodes site); [| discriminate H].
      unfold bind in H.
      destruct (walk_variables rt depth opts l s) as [[children | e |] s1];
        try discriminate H.
      injection H as <- _. reflexivity. }
    split; [discriminate |]. split; [rewrite H; reflexivity |].
    intros Hfree Hheight.
    destruct (nodes site) eqn:Enodes.
    + rewrite (call_without_var_is_kept opts depth site) in H;
        [| rewrite Enodes; discriminate | exact Hfree | exact Hheight].
      injection H as <-. reflexivity.
    + unfold transformVariables in H. rewrite Enodes in H. discriminate H.
  - intros H. injection H as <- <-. repeat split; try reflexivity. discriminate.
Qed.

Lemma transformColor_no_color_form (fuel depth : nat) (first : Node) (opts : Opts)
    (s : list Warning) :
  no_color_form rt first = true ->
  isHue rt first = false
  /\ transformColor rt fuel (S depth) first opts s
     = manageUnresolved first opts (value first) "Expected a color" s.
Proof.
  unfold no_color_form. intros H.
  repeat (apply andb_true_iff in H; destruct H as [H ?]).
  repeat match goal with
         | H : negb _ = true |- _ => apply negb_true_iff in H
         end.
  split; [assumption |].
  cbn [transformColor]. unfold transformColor_body.
  repeat match goal with
         | H : ?b = false |- context [if ?b then _ else _] => rewrite H
         end.
  unfold isNamedColor, convertNtoRGB.
  match goal with
  | H : _ || _ = true |- _ => apply orb_true_iff in H; destruct H as [Hw | Hw]
  end.
  - apply negb_true_iff in Hw. rewrite Hw. reflexivity.
  - apply andb_true_iff in Hw. destruct Hw as [Hn Hp]. apply negb_true_iff in Hp.
    destruct (is_type t_word first); [| reflexivity].
    destruct (assoc (value first) names); [discriminate Hn |].
    rewrite Hp. reflexivity.
Qed.

Lemma inherited_key_is_no_color (v : string) :
  one_of object_prototype_keys v = true ->
  assoc v names = None /\ hexColorMatch v = false.
Proof.
  unfold one_of, object_prototype_keys. cbn [existsb]. intros H.
  repeat (apply orb_true_iff in H; destruct H as [H | H];
          [apply String.eqb_eq in H; subst v; split; vm_compute; reflexivity |]).
  discriminate H.
Qed.

Lemma transformColor_inherited_key (fuel depth : nat) (v : string) (opts : Opts)
    (s : list Warning) :
  one_of object_prototype_keys v = true ->
  transformColor rt fuel (S depth) (w v) opts s
  = (Throw (TypeError "names[name].map is not a function"), s).
Proof.
  intros H. destruct (inherited_key_is_no_color v H) as [Hnamed Hhex].
  cbn [transformColor]. unfold transformColor_body.
  change (isRGBFunction (w v)) with false.
  change (isHSLFunction (w v)) with false.
  change (isHWBFunction (w v)) with false.
  change (isColorModFunction (w v)) with false.
  unfold isHexColor, isNamedColor, convertNtoRGB. cbn [is_type type value w NodeType_eqb andb].
  rewrite Hhex, Hnamed, H. reflexivity.
Qed.

(** A call site whose variables are not inlined, or that holds none, goes
    to [transformColorModFunction] as it is. *)
Lemma transformAST_site_as_it_is (fuel depth : nat) (site : Node) (opts : Opts)
    (s : list Warning) :
  isColorModFunction site = true ->
  transformVars opts = false
  \/ (nodes site <> None /\ var_free site = true /\ (height site <= S depth)%nat) ->
  transformAST rt fuel (S (S depth)) [site] opts s
  = bind
      (transformColorModFunction rt fuel (transformColor rt fuel (S depth)) site opts)
      (fun color =>
         let* y :=
           match color with
           | VColor color =>
               match stringifier opts with
               | Some stringifier => ret (MkNode t_word (stringifier color) None)
               | None => throw (TypeError "opts.stringifier is not a function")
               end
           | _ => ret site
           end in
         ret [y]) s.
Proof.
  intros Hsite Hvars.
  cbn [transformAST mapM]. rewrite Hsite.
  unfold bind at 1 2.
  assert (Hstep : (if transformVars opts
                   then transformVariables rt (S depth) site opts else ret site) s
                  = (Ret site, s)).
  { destruct (transformVars opts).
    - destruct Hvars as [Hvars | (Hn & Hf & Hh)]; [discriminate Hvars |].
      apply call_without_var_is_kept; assumption.
    - reflexivity. }
  rewrite Hstep. unfold bind.
  destruct (transformColorModFunction _ _ _ _ _ s) as [[color | e |] s1]; reflexivity.
Qed.

Lemma transformColorModFunction_no_color_form (fuel depth : nat) (name : string)
    (first : Node) (rest : list Node) (opts : Opts) (s : list Warning) :
  no_color_form rt first = true ->
  transformColorModFunction rt fuel (transformColor rt fuel (S depth))
    (fn name (first :: rest)) opts s
  = bind (manageUnresolved first opts (value first) "Expected a color")
      (fun color =>
         if is_color color
         then transformColorByAdjusters rt fuel (transformColor rt fuel (S depth))
                color rest opts
         else manageUnresolved (fn name (first :: rest)) opts name "Expected a valid color") s.
Proof.
  intros Hfirst.
  destruct (transformColor_no_color_form fuel depth first opts s Hfirst) as [Hhue Hcolor].
  unfold transformColorModFunction. cbn [nodes_or_empty nodes fn].
  rewrite Hhue. unfold bind. rewrite Hcolor. reflexivity.
Qed.

End CallSite.

(** C1, as amended.  For every color-mod() call site: when the transform
    returns, the call site has been replaced by one word, the stringified
    color, or it is still in place, as it was when variables are not inlined
    or when it holds no var() call, and otherwise as [transformVariables]
    has rewritten it; a call site is left in place only under "warn" or
    "ignore", without a warning unless the policy is "warn" and with at
    least one warning under "warn"; under any other policy the transform
    does not return with the call site in place.  For a call whose first
    argument is none of the forms of a color (and names no property
    inherited from [Object.prototype]), and whose variables are not inlined
    or which holds none: "throw" raises "Expected a color" with the text of
    that argument; "warn" emits two warnings, "Expected a color" for the
    argument and then "Expected a valid color" for the call, and leaves the
    call site as it is; "ignore" leaves the call site as it is and emits
    nothing.  A first argument that names a property inherited from
    [Object.prototype] raises a [TypeError] under every policy. *)
Theorem C1_unresolved_policy_at_a_call_site :
  forall (rt : Runtime) (fuel depth : nat),
    (forall (site : Node) (opts : Opts) (s s' : list Warning) (out : list Node),
        isColorModFunction site = true ->
        transformAST rt fuel (S depth) [site] opts s = (Ret out, s') ->
        (exists stringify color,
            stringifier opts = Some stringify
            /\ out = [MkNode t_word (stringify color) None])
        \/ (exists site',
              out = [site']
              /\ isColorModFunction site' = true
              /\ (transformVars opts = false -> site' = site)
              /\ (var_free site = true -> (height site <= depth)%nat -> site' = site)
              /\ (transformVars opts = true ->
                  fst (transformVariables rt depth site opts s) = Ret site')
              /\ may_raise (unresolved opts) = false
              /\ (may_warn (unresolved opts) = false -> s' = s)
              /\ (may_warn (unresolved opts) = true ->
                  exists added, s' = s ++ added /\ added <> [])))
    /\ (forall (name : string) (first : Node) (rest : list Node) (opts : Opts)
               (s : list Warning),
          let site := fn name (first :: rest) in
          colorModMatch name = true ->
          no_color_form rt first = true ->
          transformVars opts = false
          \/ (var_free site = true /\ (height site <= S depth)%nat) ->
          transformAST rt fuel (S (S depth)) [site] (with_unresolved opts "throw") s
          = (Throw (DeclError "Expected a color" (value first)), s)
          /\ transformAST rt fuel (S (S depth)) [site] (with_unresolved opts "warn") s
             = (Ret [site],
                s ++ [ {| w_message := "Expected a color"; w_word := value first |};
                       {| w_message := "Expected a valid color"; w_word := name |} ])
          /\ transformAST rt fuel (S (S depth)) [site] (with_unresolved opts "ignore") s
             = (Ret [site], s))
    /\ (forall (name v : string) (rest : list Node) (opts : Opts) (s : list Warning),
          let site := fn name (w v :: rest) in
          colorModMatch name = true ->
          isHue rt (w v) = false ->
          one_of object_prototype_keys v = true ->
          transformVars opts = false
          \/ (var_free site = true /\ (height site <= S depth)%nat) ->
          transformAST rt fuel (S (S depth)) [site] opts s
          = (Throw (TypeError "names[name].map is not a function"), s)).
Proof.
  intros rt fuel depth. split; [| split].
  - intros site opts s s' out Hsite Hrun.
    cbn [transformAST mapM] in Hrun. rewrite Hsite in Hrun.
    unfold bind at 1 2 in Hrun.
    destruct ((if transformVars opts
               then transformVariables rt depth site opts else ret site) s)
      as [[child | e |] s0] eqn:Estep; try discriminate Hrun.
    destruct (inlining_returns rt opts depth site child s s0 Estep)
      as (-> & Hchild & Hoff & Hon & Hfree).
    unfold bind at 1 in Hrun.
    pose proof (obeys_transformColorModFunction rt opts fuel (transformColor rt fuel depth)
                  (fun n o Ho => quiet_transformColor rt fuel depth n o Ho)
                  (obeys_transformColor rt opts fuel depth) child s) as Hobeys.
    pose proof (reports_transformColorModFunction rt opts fuel (transformColor rt fuel depth)
                  (fun n o Ho => quiet_transformColor rt fuel depth n o Ho)
                  (obeys_transformColor rt opts fuel depth) child s) as Hreports.
    destruct (transformColorModFunction rt fuel (transformColor rt fuel depth) child opts s)
      as [[color | e |] s1]; try discriminate Hrun.
    cbn [fst snd] in Hobeys. destruct Hobeys as [(added & -> & Hadded) _].
    destruct color as [n | b | t | c | n].
    4: { left. destruct (stringifier opts) as [stringify |]; [| discriminate Hrun].
         exists stringify, c. split; [reflexivity |].
         unfold bind, ret in Hrun. injection Hrun as <- _. reflexivity. }
    all: right; exists child; unfold bind, ret in Hrun; injection Hrun as <- <-;
      destruct (Hreports _ _ eq_refl eq_refl) as [Hraise Hwarn];
      (split; [reflexivity |]); (split; [rewrite Hchild; exact Hsite |]);
      (split; [exact Hoff |]); (split; [exact Hfree |]); (split; [exact Hon |]);
      (split; [exact Hraise |]); split;
      [ intros Hw; rewrite Hw in Hadded; subst added; apply app_nil_r
      | intros Hw; destruct (Hwarn Hw) as (a1 & E & Hne);
        exists a1; split; [exact E | exact Hne] ].
  - intros name first rest opts s site Hname Hfirst Hvars.
    assert (Hsite : isColorModFunction site = true) by exact Hname.
    assert (Hvars' : forall policy,
              transformVars (with_unresolved opts policy) = false
              \/ (nodes site <> None /\ var_free site = true
                  /\ (height site <= S depth)%nat)).
    { intros policy. destruct Hvars as [H | [H1 H2]]; [left; exact H | right].
      split; [discriminate | split; assumption]. }
    rewrite !(transformAST_site_as_it_is rt fuel depth site _ s Hsite (Hvars' _)).
    unfold bind at 1 3 5. unfold site.
    rewrite !(transformColorModFunction_no_color_form rt fuel depth name first rest _ s Hfirst).
    split; [| split].
    + reflexivity.
    + unfold bind, manageUnresolved, push_warning, ret. simpl.
      rewrite <- app_assoc. reflexivity.
    + reflexivity.
  - intros name v rest opts s site Hname Hhue Hkey Hvars.
    assert (Hsite : isColorModFunction site = true) by exact Hname.
    assert (Hvars' : transformVars opts = false
                     \/ (nodes site <> None /\ var_free site = true
                         /\ (height site <= S depth)%nat)).
    { destruct Hvars as [H | [H1 H2]]; [left; exact H | right].
      split; [discriminate | split; assumption]. }
    rewrite (transformAST_site_as_it_is rt fuel depth site _ s Hsite Hvars').
    unfold bind at 1. unfold transformColorModFunction, site.
    cbn [nodes_or_empty nodes fn]. rewrite Hhue. unfold bind at 1.
    rewrite (transformColor_inherited_key rt fuel depth v opts s Hkey). reflexivity.
Qed.

(** A run of C1 on [color-mod(not-a-color)] and on [color-mod(constructor)]
    with the default options. *)
Lemma C1_witness :
  colorModMatch "color-mod" = true
  /\ no_color_form js (w "not-a-color") = true
  /\ var_free not_a_color_site = true
  /\ (height not_a_color_site <= 2)%nat
  /\ isHue js (w "constructor") = false
  /\ one_of object_prototype_keys "constructor" = true
  /\ transformAST js 0 3 [not_a_color_site] (with_unresolved (default_opts js ∅) "throw") []
     = (Throw (DeclError "Expected a color" "not-a-color"), [])
  /\ transformAST js 0 3 [not_a_color_site] (with_unresolved (default_opts js ∅) "warn") []
     = (Ret [not_a_color_site],
        [] ++ [ {| w_message := "Expected a color"; w_word := "not-a-color" |};
                {| w_message := "Expected a valid color"; w_word := "color-mod" |} ])
  /\ transformAST js 0 3 [not_a_color_site] (with_unresolved (default_opts js ∅) "ignore") []
     = (Ret [not_a_color_site], [])
  /\ transformAST js 0 3 [constructor_site] (default_opts js ∅) []
     = (Throw (TypeError "names[name].map is not a function"), [])
  /\ transformAST js 0 2 [not_a_color_site] (with_unresolved (default_opts js ∅) "warn") []
     = (Ret [not_a_color_site],
        [ {| w_message := "Expected a color"; w_word := "not-a-color" |};
          {| w_message := "Expected a valid color"; w_word := "color-mod" |} ])
  /\ exists added,
       [ {| w_message := "Expected a color"; w_word := "not-a-color" |};
         {| w_message := "Expected a valid color"; w_word := "color-mod" |} ]
       = [] ++ added /\ added <> [].
Proof.
  assert (H1 : colorModMatch "color-mod" = true) by reflexivity.
  assert (H2 : no_color_form js (w "not-a-color") = true) by (vm_compute; reflexivity).
  assert (H3 : var_free not_a_color_site = true) by reflexivity.
  assert (H4 : (height not_a_color_site <= 2)%nat) by (vm_compute; lia).
  assert (H5 : isHue js (w "constructor") = false) by reflexivity.
  assert (H6 : one_of object_prototype_keys "constructor" = true) by reflexivity.
  assert (H7 : transformAST js 0 2 [not_a_color_site]
                 (with_unresolved (default_opts js ∅) "warn") []
               = (Ret [not_a_color_site],
                  [ {| w_message := "Expected a color"; w_word := "not-a-color" |};
                    {| w_message := "Expected a valid color"; w_word := "color-mod" |} ]))
    by (vm_compute; reflexivity).
  destruct (C1_unresolved_policy_at_a_call_site js 0 1) as (Hany & Hword & Hkey).
  split; [exact H1 |]. split; [exact H2 |]. split; [exact H3 |]. split; [exact H4 |].
  split; [exact H5 |]. split; [exact H6 |].
  destruct (Hword "color-mod" (w "not-a-color") [] (default_opts js ∅) [] H1 H2
              (or_intror (conj H3 H4))) as (Ht & Hw & Hi).
  split; [exact Ht |]. split; [exact Hw |]. split; [exact Hi |].
  split.
  { exact (Hkey "color-mod" "constructor" [] (default_opts js ∅) [] H1 H5 H6
             (or_intror (conj eq_refl H4))). }
  split; [exact H7 |].
  destruct (Hany not_a_color_site (with_unresolved (default_opts js ∅) "warn") [] _ _
              eq_refl H7) as [(f & c & _ & Hout) | (site' & _ & _ & _ & _ & _ & _ & _ & Hwarn)].
  - discriminate Hout.
  - exact (Hwarn eq_refl).
Defined.

(** C1, the claim as stated fails: under "warn" the transform of
    [color-mod(not-a-color)] emits two warnings, not one; a call site that
    holds a variable is rewritten in part when it is left unresolved: with
    [--x: red], [color-mod(not-a-color var(--x))] under "ignore" becomes
    [color-mod(not-a-color red)]; and [color-mod(constructor)] raises a
    [TypeError] under "warn" and under "ignore". *)
Lemma C1_warn_emits_two_warnings :
  List.length
    (snd (transformAST js 0 2 [not_a_color_site]
            (with_unresolved (default_opts js ∅) "warn") []))
  = 2%nat
  /\ snd (transformAST js 0 2 [not_a_color_site]
            (with_unresolved (default_opts js ∅) "warn") [])
     = [ {| w_message := "Expected a color"; w_word := "not-a-color" |};
         {| w_message := "Expected a valid color"; w_word := "color-mod" |} ]
  /\ transformAST js 0 3 [fn "color-mod" [w "not-a-color"; sp; fn "var" [w "--x"]]]
       (with_unresolved (default_opts js {[ "--x" := [w "red"] ]}) "ignore") []
     = (Ret [fn "color-mod" [w "not-a-color"; sp; w "red"]], [])
  /\ transformAST js 0 2 [constructor_site] (with_unresolved (default_opts js ∅) "warn") []
     = (Throw (TypeError "names[name].map is not a function"), [])
  /\ transformAST js 0 2 [constructor_site] (with_unresolved (default_opts js ∅) "ignore") []
     = (Throw (TypeError "names[name].map is not a function"), []).
Proof. repeat split; vm_compute; reflexivity. Qed.

(** ** Calls and their adjusters *)

Lemma foldM_app {A B : Type} (f : B -> A -> M B) (l1 l2 : list A) (init : B)
    (s : list Warning) :
  foldM f init (l1 ++ l2) s = (let* acc := foldM f init l1 in foldM f acc l2) s.
Proof.
  revert init s. induction l1 as [| x l1 IH]; intros init s; [reflexivity |].
  cbn [app foldM]. unfold bind at 1 2 3.
  destruct (f init x s) as [[acc | e |] s1]; try reflexivity.
  rewrite IH. reflexivity.
Qed.

(** The adjusters of a call are applied from left to right, an adjuster
    starting from the color its predecessors gave; spaces and comments
    between them are skipped; and without adjusters the color is returned as
    it is. *)
Theorem adjusters_apply_left_to_right :
  forall (rt : Runtime) (fuel : nat) (transformColor : Param) (color : Val)
         (first second : list Node) (opts : Opts) (s : list Warning),
    transformColorByAdjusters rt fuel transformColor color (first ++ second) opts s
    = (let* adjusted := transformColorByAdjusters rt fuel transformColor color first opts in
       transformColorByAdjusters rt fuel transformColor adjusted second opts) s
    /\ transformColorByAdjusters rt fuel transformColor color
         (List.filter not_space_or_comment first) opts s
       = transformColorByAdjusters rt fuel transformColor color first opts s
    /\ transformColorByAdjusters rt fuel transformColor color [] opts s = (Ret color, s).
Proof.
  intros rt fuel tc color first second opts s.
  unfold transformColorByAdjusters. split; [| split].
  - rewrite List.filter_app. apply foldM_app.
  - f_equal.
    induction first as [| x first IH]; [reflexivity |].
    cbn [List.filter]. destruct (not_space_or_comment x) eqn:E; cbn [List.filter].
    + rewrite E, IH. reflexivity.
    + exact IH.
  - reflexivity.
Qed.

(** A color-mod() call without arguments is reported once, with "Expected a
    valid color-mod() function", and under "warn" and "ignore" it is left in
    place. *)
Theorem empty_call_is_reported_once :
  forall (rt : Runtime) (fuel depth : nat) (name : string) (opts : Opts) (s : list Warning),
    colorModMatch name = true ->
    transformAST rt fuel (S (S depth)) [fn name []] (with_unresolved opts "throw") s
    = (Throw (DeclError "Expected a valid color-mod() function" name), s)
    /\ transformAST rt fuel (S (S depth)) [fn name []] (with_unresolved opts "warn") s
       = (Ret [fn name []],
          s ++ [ {| w_message := "Expected a valid color-mod() function"; w_word := name |} ])
    /\ transformAST rt fuel (S (S depth)) [fn name []] (with_unresolved opts "ignore") s
       = (Ret [fn name []], s).
Proof.
  intros rt fuel depth name opts s Hname.
  assert (Hsite : isColorModFunction (fn name []) = true)
    by (unfold isColorModFunction; simpl; exact Hname).
  cbn [transformAST mapM]. rewrite Hsite.
  repeat split; unfold bind; cbn [transformVars with_unresolved];
    destruct (transformVars opts); reflexivity.
Qed.

(** A run under "warn". *)
Lemma empty_call_witness :
  colorModMatch "color-mod" = true
  /\ transformAST js 0 2 [fn "color-mod" []] (with_unresolved (default_opts js ∅) "warn") []
     = (Ret [fn "color-mod" []],
        [] ++ [ {| w_message := "Expected a valid color-mod() function";
                   w_word := "color-mod" |} ]).
Proof.
  assert (H1 : colorModMatch "color-mod" = true) by reflexivity.
  split; [exact H1 |].
  exact (proj1 (proj2 (empty_call_is_reported_once js 0 0 "color-mod" (default_opts js ∅)
                         [] H1))).
Defined.

Section LiteralCall.

Variable rt : Runtime.
Variables (name v : string).
Hypothesis Hname : colorModMatch name = true.
Hypothesis Hhue : isHue rt (w v) = false.

Lemma literal_site_is_color_mod : isColorModFunction (fn name [w v]) = true.
Proof. unfold isColorModFunction. simpl. exact Hname. Qed.

Lemma literal_call (fuel depth : nat) (opts : Opts) (f : Color -> string) (c : Color) :
  stringifier opts = Some f ->
  pure_at (transformColor rt fuel (S depth) (w v) opts) (VColor c) ->
  pure_at (transformAST rt fuel (S (S depth)) [fn name [w v]] opts) [w (f c)].
Proof.
  intros Hf Hcolor s. cbn [transformAST mapM]. rewrite literal_site_is_color_mod.
  unfold bind at 1 2.
  assert (Hvars : (if transformVars opts
                   then transformVariables rt (S depth) (fn name [w v]) opts
                   else ret (fn name [w v])) s = (Ret (fn name [w v]), s))
    by (destruct (transformVars opts); reflexivity).
  rewrite Hvars. unfold transformColorModFunction. cbn [nodes_or_empty nodes fn].
  rewrite Hhue. unfold bind. rewrite Hcolor. cbn [is_color].
  unfold transformColorByAdjusters. cbn [List.filter foldM]. unfold ret at 1.
  rewrite Hf. reflexivity.
Qed.

End LiteralCall.

(** A call that holds only a hex color or a named color is replaced by one
    word, the text the stringifier gives for that color, without a warning
    and whatever the policy. *)
Theorem literal_color_call_is_stringified :
  forall (rt : Runtime) (fuel depth : nat) (name v : string) (opts : Opts)
         (f : Color -> string),
    colorModMatch name = true ->
    isHue rt (w v) = false ->
    stringifier opts = Some f ->
    (forall r g b a,
        convertHtoRGB v = Some (r, g, b, a) ->
        pure_at (transformAST rt fuel (S (S depth)) [fn name [w v]] opts)
          [w (f (new_Color rt (rgb_object r g b a "")))])
    /\ (forall r g b,
          hexColorMatch v = false ->
          assoc v names = Some (r, g, b) ->
          pure_at (transformAST rt fuel (S (S depth)) [fn name [w v]] opts)
            [w (f (new_Color rt
                     (rgb_object (byte_to_percent r) (byte_to_percent g)
                        (byte_to_percent b) (Fin 100) "rgb")))]).
Proof.
  intros rt fuel depth name v opts f Hname Hhue Hf. split.
  - intros r g b a Hhex. apply literal_call; try assumption.
    intros s. cbn [transformColor]. unfold transformColor_body.
    change (isRGBFunction (w v)) with false.
    change (isHSLFunction (w v)) with false.
    change (isHWBFunction (w v)) with false.
    change (isColorModFunction (w v)) with false.
    unfold isHexColor, hexColorMatch, transformHexColor.
    cbn [is_type type value w NodeType_eqb andb].
    unfold convertHtoRGB in *. destruct (hexColorGroups v); [| discriminate Hhex].
    rewrite Hhex. reflexivity.
  - intros r g b Hhex Hnamed. apply literal_call; try assumption.
    intros s. cbn [transformColor]. unfold transformColor_body.
    change (isRGBFunction (w v)) with false.
    change (isHSLFunction (w v)) with false.
    change (isHWBFunction (w v)) with false.
    change (isColorModFunction (w v)) with false.
    unfold isHexColor, transformNamedColor, isNamedColor, convertNtoRGB.
    cbn [is_type type value w NodeType_eqb andb].
    rewrite Hhex, Hnamed. reflexivity.
Qed.

(** A run on [color-mod(#336699)] with the legacy stringifier. *)
Lemma literal_color_call_witness :
  colorModMatch "color-mod" = true
  /\ isHue js (w "#336699") = false
  /\ stringifier (default_opts js ∅) = Some (color2legacyString js)
  /\ convertHtoRGB "#336699"
     = Some (byte_to_percent 51, byte_to_percent 102, byte_to_percent 153, byte_to_percent 255)
  /\ transformAST js 0 2 [fn "color-mod" [w "#336699"]] (default_opts js ∅) []
     = (Ret [w "rgb(51, 102, 153)"], []).
Proof.
  assert (H1 : colorModMatch "color-mod" = true) by reflexivity.
  assert (H2 : isHue js (w "#336699") = false) by reflexivity.
  assert (H3 : stringifier (default_opts js ∅) = Some (color2legacyString js)) by reflexivity.
  assert (H4 : convertHtoRGB "#336699"
     = Some (byte_to_percent 51, byte_to_percent 102, byte_to_percent 153,
             byte_to_percent 255)) by reflexivity.
  repeat (split; [assumption |]).
  destruct (literal_color_call_is_stringified js 0 0 "color-mod" "#336699"
              (default_opts js ∅) (color2legacyString js) H1 H2 H3) as [Hhex _].
  rewrite (Hhex _ _ _ _ H4 []). vm_compute. reflexivity.
Defined.

(** ** Channel adjusters *)

Lemma leaf_patterns_return (rt : Runtime) (node : Node) (params : list (list Param)) :
  Forall (Forall (leaf_position rt)) params ->
  pure_at (transformArgsByParams node params)
    (hd [] (List.filter (forallb defined)
              (map (pattern_values eval_position (matched_children node)) params))).
Proof.
  intros Hleaf. apply transformArgsByParams_pure.
  intros param index f child Hp Hf _.
  apply returns_eval_position, (leaf_position_returns rt).
  rewrite List.Forall_forall in Hleaf. specialize (Hleaf param Hp).
  rewrite List.Forall_forall in Hleaf. apply Hleaf.
  eapply nth_error_In. exact Hf.
Qed.

Section PercentageAdjusters.

Variable rt : Runtime.
Variables (pct : Node) (p : Q).
Hypothesis Hpct : isPercentage rt pct = true.
Hypothesis Hnot_number : isNumber rt pct = false.
Hypothesis Hnumber : rt.(Number) (unit_number rt pct) = Fin p.

Lemma eval_percentage : eval_position (transformPercentage rt) pct = VNum (Fin p).
Proof. unfold eval_position, transformPercentage. rewrite Hpct, Hnumber. reflexivity. Qed.

Lemma eval_alpha : eval_position (transformAlpha rt) pct = VNum (Fin p).
Proof.
  unfold eval_position, transformAlpha, transformPercentage.
  rewrite Hnot_number, Hpct, Hnumber. reflexivity.
Qed.

Section WithOperator.

Variables (node op : Node).
Hypothesis Hchildren : matched_children node = [op; pct].
Hypothesis Hop_type : type op = t_word.

Lemma eval_minusPlus_operator :
  minusPlusMatch (value op) = true ->
  eval_position transformMinusPlusOperator op = VStr (value op).
Proof.
  intros H. unfold eval_position, transformMinusPlusOperator, isMinusPlusOperator, is_type.
  rewrite Hop_type, H. reflexivity.
Qed.

Lemma eval_minusPlusTimes_operator :
  minusPlusTimesMatch (value op) = true ->
  eval_position transformMinusPlusTimesOperator op = VStr (value op).
Proof.
  intros H.
  unfold eval_position, transformMinusPlusTimesOperator, isMinusPlusTimesOperator, is_type.
  rewrite Hop_type, H. reflexivity.
Qed.

Lemma modifiedValueOf_operator (existing : num) :
  minusPlusTimesMatch (value op) = true ->
  modifiedValueOf rt existing (VStr (value op)) (VNum (Fin p))
  = operate (value op) existing (Fin p).
Proof.
  intros H. unfold modifiedValueOf, operate, is_str. cbn [defined Number_val].
  unfold minusPlusTimesMatch, one_of in H. cbn [existsb] in H.
  destruct (String.eqb (value op) "+"); [reflexivity |].
  destruct (String.eqb (value op) "-"); [reflexivity |].
  destruct (String.eqb (value op) "*"); [reflexivity | discriminate H].
Qed.

Lemma minusPlus_is_minusPlusTimes :
  minusPlusMatch (value op) = true -> minusPlusTimesMatch (value op) = true.
Proof.
  unfold minusPlusMatch, minusPlusTimesMatch, one_of. cbn [existsb].
  intros H. rewrite H. apply orb_true_r.
Qed.

Lemma operator_alpha_blue_green_red (c : Color) (ch : channel) (opts : Opts) :
  minusPlusMatch (value op) = true ->
  adjuster_channel (value node) = Some ch ->
  pure_at (transformAlphaBlueGreenRedAdjuster rt (VColor c) node opts)
    (VColor (Color_set rt c ch (operate (value op) (Color_get rt c ch) (Fin p)))).
Proof.
  intros Hop Hch. unfold transformAlphaBlueGreenRedAdjuster.
  eapply pure_bind.
  { apply (leaf_patterns_return rt).
    destruct (alphaMatch (value node)); repeat constructor. }
  rewrite Hchildren.
  assert (Hargs :
    hd [] (List.filter (forallb defined)
             (map (pattern_values eval_position [op; pct])
                (if alphaMatch (value node)
                 then [ [transformMinusPlusOperator; transformAlpha rt];
                        [transformTimesOperator; transformPercentage rt];
                        [transformAlpha rt] ]
                 else [ [transformMinusPlusOperator; transformPercentage rt];
                        [transformMinusPlusOperator; transformRGBNumber rt];
                        [transformTimesOperator; transformPercentage rt];
                        [transformPercentage rt];
                        [transformRGBNumber rt] ])))
    = [VStr (value op); VNum (Fin p)]).
  { assert (H1 : pattern_values eval_position [op; pct]
                   [transformMinusPlusOperator; transformAlpha rt]
                 = [VStr (value op); VNum (Fin p)]).
    { unfold pattern_values. cbn [imap_from nth_error].
      rewrite (eval_minusPlus_operator Hop), eval_alpha. reflexivity. }
    assert (H2 : pattern_values eval_position [op; pct]
                   [transformMinusPlusOperator; transformPercentage rt]
                 = [VStr (value op); VNum (Fin p)]).
    { unfold pattern_values. cbn [imap_from nth_error].
      rewrite (eval_minusPlus_operator Hop), eval_percentage. reflexivity. }
    destruct (alphaMatch (value node)); cbn [map List.filter];
      rewrite ?H1, ?H2; reflexivity. }
  rewrite Hargs. cbn [nth_val nth defined].
  unfold adjuster_channel in Hch.
  unfold call_getter, call_setter. rewrite Hch.
  eapply pure_bind; [apply pure_ret |].
  rewrite (modifiedValueOf_operator _ (minusPlus_is_minusPlusTimes Hop)). apply pure_ret.
Qed.

Lemma operator_blackness_lightness_saturation_whiteness (c : Color) (ch : channel)
    (opts : Opts) :
  minusPlusTimesMatch (value op) = true ->
  blsw_channel (value node) = Some ch ->
  pure_at (transformBlacknessLightnessSaturationWhitenessAdjuster rt (VColor c) node opts)
    (VColor (Color_set rt c ch (operate (value op) (Color_get rt c ch) (Fin p)))).
Proof.
  intros Hop Hch. unfold transformBlacknessLightnessSaturationWhitenessAdjuster.
  eapply pure_bind.
  { apply (leaf_patterns_return rt). repeat constructor. }
  rewrite Hchildren.
  assert (H1 : pattern_values eval_position [op; pct]
                 [transformMinusPlusTimesOperator; transformPercentage rt]
               = [VStr (value op); VNum (Fin p)]).
  { unfold pattern_values. cbn [imap_from nth_error].
    rewrite (eval_minusPlusTimes_operator Hop), eval_percentage. reflexivity. }
  cbn [map List.filter]. rewrite H1.
  cbn [forallb defined andb hd nth_val nth].
  unfold blsw_channel in Hch.
  unfold call_getter, call_setter. rewrite Hch.
  eapply pure_bind; [apply pure_ret |].
  rewrite (modifiedValueOf_operator _ Hop). apply pure_ret.
Qed.

End WithOperator.

Section Plain.

Variable node : Node.
Hypothesis Hchildren : matched_children node = [pct].
Hypothesis Hnot_operator : minusPlusTimesMatch (value pct) = false.

Lemma eval_operators_plain :
  eval_position transformMinusPlusOperator pct = undefined
  /\ eval_position transformTimesOperator pct = undefined
  /\ eval_position transformMinusPlusTimesOperator pct = undefined.
Proof.
  unfold minusPlusTimesMatch, one_of in Hnot_operator. cbn [existsb] in Hnot_operator.
  apply orb_false_iff in Hnot_operator. destruct Hnot_operator as [Ht H].
  apply orb_false_iff in H. destruct H as [Hp H].
  apply orb_false_iff in H. destruct H as [Hm _].
  unfold eval_position, transformMinusPlusOperator, transformTimesOperator,
    transformMinusPlusTimesOperator, isMinusPlusOperator, isTimesOperator,
    isMinusPlusTimesOperator, minusPlusMatch, timesMatch, minusPlusTimesMatch, one_of.
  cbn [existsb]. rewrite Ht, Hp, Hm. cbn [orb]. rewrite !andb_false_r.
  repeat split; reflexivity.
Qed.

Lemma plain_alpha_blue_green_red (c : Color) (ch : channel) (opts : Opts) :
  adjuster_channel (value node) = Some ch ->
  pure_at (transformAlphaBlueGreenRedAdjuster rt (VColor c) node opts)
    (VColor (Color_set rt c ch (Fin p))).
Proof.
  intros Hch. unfold transformAlphaBlueGreenRedAdjuster.
  destruct eval_operators_plain as (Hmp & Ht & Hmpt).
  eapply pure_bind.
  { apply (leaf_patterns_return rt).
    destruct (alphaMatch (value node)); repeat constructor. }
  rewrite Hchildren.
  assert (Hargs :
    hd [] (List.filter (forallb defined)
             (map (pattern_values eval_position [pct])
                (if alphaMatch (value node)
                 then [ [transformMinusPlusOperator; transformAlpha rt];
                        [transformTimesOperator; transformPercentage rt];
                        [transformAlpha rt] ]
                 else [ [transformMinusPlusOperator; transformPercentage rt];
                        [transformMinusPlusOperator; transformRGBNumber rt];
                        [transformTimesOperator; transformPercentage rt];
                        [transformPercentage rt];
                        [transformRGBNumber rt] ])))
    = [VNum (Fin p)]).
  { assert (Hfail : forall first rest,
              eval_position first pct = undefined ->
              forallb defined (pattern_values eval_position [pct] (first :: rest)) = false).
    { intros first rest H. unfold pattern_values. cbn [imap_from nth_error].
      rewrite H. reflexivity. }
    assert (H1 : pattern_values eval_position [pct] [transformAlpha rt] = [VNum (Fin p)]).
    { unfold pattern_values. cbn [imap_from nth_error]. rewrite eval_alpha. reflexivity. }
    assert (H2 : pattern_values eval_position [pct] [transformPercentage rt]
                 = [VNum (Fin p)]).
    { unfold pattern_values. cbn [imap_from nth_error]. rewrite eval_percentage.
      reflexivity. }
    destruct (alphaMatch (value node)); cbn [map List.filter];
      rewrite ?(Hfail transformMinusPlusOperator _ Hmp),
        ?(Hfail transformTimesOperator _ Ht), ?H1, ?H2; reflexivity. }
  rewrite Hargs. cbn [nth_val nth defined].
  unfold adjuster_channel in Hch.
  unfold call_getter, call_setter. rewrite Hch.
  eapply pure_bind; [apply pure_ret |]. apply pure_ret.
Qed.

Lemma plain_blackness_lightness_saturation_whiteness (c : Color) (ch : channel)
    (opts : Opts) :
  blsw_channel (value node) = Some ch ->
  pure_at (transformBlacknessLightnessSaturationWhitenessAdjuster rt (VColor c) node opts)
    (VColor (Color_set rt c ch (Fin p))).
Proof.
  intros Hch. unfold transformBlacknessLightnessSaturationWhitenessAdjuster.
  destruct eval_operators_plain as (Hmp & Ht & Hmpt).
  eapply pure_bind.
  { apply (leaf_patterns_return rt). repeat constructor. }
  rewrite Hchildren.
  assert (Hfail : forallb defined
            (pattern_values eval_position [pct]
               [transformMinusPlusTimesOperator; transformPercentage rt]) = false).
  { unfold pattern_values. cbn [imap_from nth_error]. rewrite Hmpt. reflexivity. }
  assert (H2 : pattern_values eval_position [pct] [transformPercentage rt]
               = [VNum (Fin p)]).
  { unfold pattern_values. cbn [imap_from nth_error]. rewrite eval_percentage.
    reflexivity. }
  cbn [map List.filter]. rewrite Hfail, H2.
  cbn [forallb defined andb hd nth_val nth].
  unfold blsw_channel in Hch.
  unfold call_getter, call_setter. rewrite Hch.
  eapply pure_bind; [apply pure_ret |]. apply pure_ret.
Qed.

End Plain.

End PercentageAdjusters.

(** On a percentage [P%], the alpha/red/green/blue adjusters with [+] or [-]
    and the blackness/lightness/saturation/whiteness adjusters with [+], [-]
    or [*] set the channel to the existing value combined with [P] by the
    operator; without an operator they set it to [P]; the setter then
    normalizes the value. *)
Theorem channel_adjusters_apply_the_operator :
  forall (rt : Runtime) (node pct : Node) (p : Q) (c : Color) (opts : Opts),
    isPercentage rt pct = true ->
    isNumber rt pct = false ->
    rt.(Number) (unit_number rt pct) = Fin p ->
    (forall op ch,
        matched_children node = [op; pct] -> type op = t_word ->
        minusPlusMatch (value op) = true ->
        adjuster_channel (value node) = Some ch ->
        pure_at (transformAlphaBlueGreenRedAdjuster rt (VColor c) node opts)
          (VColor (Color_set rt c ch (operate (value op) (Color_get rt c ch) (Fin p)))))
    /\ (forall op ch,
          matched_children node = [op; pct] -> type op = t_word ->
          minusPlusTimesMatch (value op) = true ->
          blsw_channel (value node) = Some ch ->
          pure_at (transformBlacknessLightnessSaturationWhitenessAdjuster rt (VColor c) node opts)
            (VColor (Color_set rt c ch (operate (value op) (Color_get rt c ch) (Fin p)))))
    /\ (forall ch,
          matched_children node = [pct] ->
          minusPlusTimesMatch (value pct) = false ->
          adjuster_channel (value node) = Some ch ->
          pure_at (transformAlphaBlueGreenRedAdjuster rt (VColor c) node opts)
            (VColor (Color_set rt c ch (Fin p))))
    /\ (forall ch,
          matched_children node = [pct] ->
          minusPlusTimesMatch (value pct) = false ->
          blsw_channel (value node) = Some ch ->
          pure_at (transformBlacknessLightnessSaturationWhitenessAdjuster rt (VColor c) node opts)
            (VColor (Color_set rt c ch (Fin p)))).
Proof.
  intros rt node pct p c opts Hpct Hnot_number Hnumber.
  split; [| split; [| split]].
  - intros op ch Hchildren Htype Hop Hch.
    apply (operator_alpha_blue_green_red rt pct p Hpct Hnot_number Hnumber node op);
      assumption.
  - intros op ch Hchildren Htype Hop Hch.
    apply (operator_blackness_lightness_saturation_whiteness rt pct p Hpct Hnumber node op);
      assumption.
  - intros ch Hchildren Hnot Hch.
    apply (plain_alpha_blue_green_red rt pct p Hpct Hnot_number Hnumber node); assumption.
  - intros ch Hchildren Hnot Hch.
    apply (plain_blackness_lightness_saturation_whiteness rt pct p Hpct Hnumber node);
      assumption.
Qed.

(** A run on [lightness(+ 10%)]. *)
Lemma channel_adjusters_witness :
  isPercentage js (w "10%") = true
  /\ isNumber js (w "10%") = false
  /\ js.(Number) (unit_number js (w "10%")) = Fin 10
  /\ matched_children lightness_plus_10 = [w "+"; w "10%"]
  /\ type (w "+") = t_word
  /\ minusPlusTimesMatch (value (w "+")) = true
  /\ blsw_channel (value lightness_plus_10) = Some ch_lightness
  /\ pure_at (transformBlacknessLightnessSaturationWhitenessAdjuster js
                (VColor half_transparent_gray) lightness_plus_10 (default_opts js ∅))
       (VColor (Color_set js half_transparent_gray ch_lightness
                  (operate "+" (Color_get js half_transparent_gray ch_lightness) (Fin 10)))).
Proof.
  assert (H1 : isPercentage js (w "10%") = true) by (vm_compute; reflexivity).
  assert (H2 : isNumber js (w "10%") = false) by (vm_compute; reflexivity).
  assert (H3 : js.(Number) (unit_number js (w "10%")) = Fin 10) by (vm_compute; reflexivity).
  assert (H4 : matched_children lightness_plus_10 = [w "+"; w "10%"]) by reflexivity.
  assert (H5 : type (w "+") = t_word) by reflexivity.
  assert (H6 : minusPlusTimesMatch (value (w "+")) = true) by reflexivity.
  assert (H7 : blsw_channel (value lightness_plus_10) = Some ch_lightness) by reflexivity.
  repeat (split; [assumption |]).
  destruct (channel_adjusters_apply_the_operator js lightness_plus_10 (w "10%") 10
              half_transparent_gray (default_opts js ∅) H1 H2 H3) as (_ & Hblsw & _).
  exact (Hblsw (w "+") ch_lightness H4 H5 H6 H7).
Defined.

Lemma modifiedValueOf_operate (rt : Runtime) (operator : string) (existing : num) (x : Q) :
  minusPlusTimesMatch operator = true ->
  modifiedValueOf rt existing (VStr operator) (VNum (Fin x))
  = operate operator existing (Fin x).
Proof.
  intros H. unfold modifiedValueOf, operate, is_str. cbn [defined Number_val].
  unfold minusPlusTimesMatch, one_of in H. cbn [existsb] in H.
  destruct (String.eqb operator "+"); [reflexivity |].
  destruct (String.eqb operator "-"); [reflexivity |].
  destruct (String.eqb operator "*"); [reflexivity | discriminate H].
Qed.

(** The hue adjuster with [+], [-] or [*] and a hue sets the hue to the
    existing hue combined with the hue by the operator, and without an
    operator to the hue given; the setter then normalizes the value. *)
Theorem hue_adjuster_applies_the_operator :
  forall (rt : Runtime) (node arg : Node) (h : Q) (c : Color) (opts : Opts),
    eval_position (transformHue rt) arg = VNum (Fin h) ->
    (forall op,
        matched_children node = [op; arg] ->
        type op = t_word ->
        minusPlusTimesMatch (value op) = true ->
        pure_at (transformHueAdjuster rt (VColor c) node opts)
          (VColor (Color_hue rt c (operate (value op) (Color_get_hue rt c) (Fin h)))))
    /\ (matched_children node = [arg] ->
        minusPlusTimesMatch (value arg) = false ->
        pure_at (transformHueAdjuster rt (VColor c) node opts)
          (VColor (Color_hue rt c (Fin h)))).
Proof.
  intros rt node arg h c opts Hhue. split.
  - intros op Hchildren Htype Hop. unfold transformHueAdjuster.
    eapply pure_bind; [apply (leaf_patterns_return rt); repeat constructor |].
    rewrite Hchildren.
    assert (H1 : pattern_values eval_position [op; arg]
                   [transformMinusPlusTimesOperator; transformHue rt]
                 = [VStr (value op); VNum (Fin h)]).
    { unfold pattern_values. cbn [imap_from nth_error]. rewrite Hhue.
      unfold eval_position, transformMinusPlusTimesOperator, isMinusPlusTimesOperator,
        is_type. rewrite Htype, Hop. reflexivity. }
    cbn [map List.filter]. rewrite H1. cbn [forallb defined andb hd nth_val nth].
    eapply pure_bind; [apply pure_ret |].
    rewrite (modifiedValueOf_operate rt _ _ _ Hop). apply pure_ret.
  - intros Hchildren Hnot. unfold transformHueAdjuster.
    eapply pure_bind; [apply (leaf_patterns_return rt); repeat constructor |].
    rewrite Hchildren.
    assert (Hfail : forallb defined
              (pattern_values eval_position [arg]
                 [transformMinusPlusTimesOperator; transformHue rt]) = false).
    { unfold pattern_values. cbn [imap_from nth_error].
      unfold eval_position at 1, transformMinusPlusTimesOperator, isMinusPlusTimesOperator.
      rewrite Hnot, andb_false_r. reflexivity. }
    assert (H2 : pattern_values eval_position [arg] [transformHue rt] = [VNum (Fin h)]).
    { unfold pattern_values. cbn [imap_from nth_error]. rewrite Hhue. reflexivity. }
    cbn [map List.filter]. rewrite Hfail, H2. cbn [forallb defined andb hd nth_val nth].
    eapply pure_bind; [apply pure_ret |]. apply pure_ret.
Qed.

(** A run on [hue(+ 90deg)]. *)
Lemma hue_adjuster_witness :
  eval_position (transformHue js) (w "90deg") = VNum (Fin 90)
  /\ matched_children (fn "hue" [w "+"; sp; w "90deg"]) = [w "+"; w "90deg"]
  /\ type (w "+") = t_word
  /\ minusPlusTimesMatch (value (w "+")) = true
  /\ pure_at (transformHueAdjuster js (VColor black) (fn "hue" [w "+"; sp; w "90deg"])
                (default_opts js ∅))
       (VColor (Color_hue js black (operate "+" (Color_get_hue js black) (Fin 90)))).
Proof.
  assert (H1 : eval_position (transformHue js) (w "90deg") = VNum (Fin 90))
    by (vm_compute; reflexivity).
  assert (H2 : matched_children (fn "hue" [w "+"; sp; w "90deg"]) = [w "+"; w "90deg"])
    by reflexivity.
  assert (H3 : type (w "+") = t_word) by reflexivity.
  assert (H4 : minusPlusTimesMatch (value (w "+")) = true) by reflexivity.
  repeat (split; [assumption |]).
  exact (proj1 (hue_adjuster_applies_the_operator js (fn "hue" [w "+"; sp; w "90deg"])
                  (w "90deg") 90 black (default_opts js ∅) H1) (w "+") H2 H3 H4).
Defined.

Section BlendAdjuster.

Variable rt : Runtime.
Variable transformColor : Param.
Variables (node colorNode pct : Node) (p : Q) (other : Color).
Hypothesis Hcolor : pure_at (transformColor colorNode ignore_opts) (VColor other).
Hypothesis Hpct : isPercentage rt pct = true.
Hypothesis Hnumber : rt.(Number) (unit_number rt pct) = Fin p.

Lemma blend_positions_pure (children : list Node) (spaceNode : Node) :
  children = [colorNode; pct] \/ children = [colorNode; pct; spaceNode] ->
  forall param index f child,
    In param [ [transformColor; transformPercentage rt; transformColorSpace] ] ->
    nth_error param index = Some f ->
    nth_error children index = Some child ->
    pure_at (f child ignore_opts) (eval_position f child).
Proof.
  intros Hchildren param index f child [<- | []] Hf Hchild.
  destruct index as [| [| [| index]]]; cbn [nth_error] in Hf.
  - injection Hf as <-.
    assert (child = colorNode) by (destruct Hchildren as [-> | ->]; simpl in Hchild; congruence).
    subst child. apply returns_eval_position. exists (VColor other). exact Hcolor.
  - injection Hf as <-. apply returns_eval_position, (leaf_position_returns rt). constructor.
  - injection Hf as <-. apply returns_eval_position, (leaf_position_returns rt). constructor.
  - destruct index; discriminate Hf.
Qed.

Lemma eval_blend_color : eval_position transformColor colorNode = VColor other.
Proof. unfold eval_position. rewrite Hcolor. reflexivity. Qed.

Lemma eval_blend_percentage : eval_position (transformPercentage rt) pct = VNum (Fin p).
Proof. unfold eval_position, transformPercentage. rewrite Hpct, Hnumber. reflexivity. Qed.

Lemma blend_without_colorspace (c : Color) (isAlphaBlend : bool) (opts : Opts) :
  matched_children node = [colorNode; pct] ->
  pure_at (transformBlendAdjuster rt transformColor (VColor c) node isAlphaBlend opts)
    (VColor (if isAlphaBlend
             then Color_blenda rt c other (Fin p) "rgb"
             else Color_blend rt c other (Fin p) "rgb")).
Proof.
  intros Hchildren. unfold transformBlendAdjuster.
  eapply pure_bind.
  { apply (transformArgsByParams_pure eval_position). rewrite Hchildren.
    apply (blend_positions_pure [colorNode; pct] pct). left. reflexivity. }
  rewrite Hchildren. cbn [map List.filter].
  assert (H : pattern_values eval_position [colorNode; pct]
                [transformColor; transformPercentage rt; transformColorSpace]
              = [VColor other; VNum (Fin p)]).
  { unfold pattern_values. cbn [imap_from nth_error].
    rewrite eval_blend_color, eval_blend_percentage. reflexivity. }
  rewrite H. cbn [forallb defined andb hd nth_val nth with_default to_num].
  eapply pure_bind; [apply pure_ret |]. apply pure_ret.
Qed.

Lemma blend_with_colorspace (c : Color) (isAlphaBlend : bool) (opts : Opts)
    (spaceNode : Node) :
  matched_children node = [colorNode; pct; spaceNode] ->
  isColorSpace spaceNode = true ->
  pure_at (transformBlendAdjuster rt transformColor (VColor c) node isAlphaBlend opts)
    (VColor (if isAlphaBlend
             then Color_blenda rt c other (Fin p) (value spaceNode)
             else Color_blend rt c other (Fin p) (value spaceNode))).
Proof.
  intros Hchildren Hspace. unfold transformBlendAdjuster.
  eapply pure_bind.
  { apply (transformArgsByParams_pure eval_position). rewrite Hchildren.
    apply (blend_positions_pure [colorNode; pct; spaceNode] spaceNode). right. reflexivity. }
  rewrite Hchildren. cbn [map List.filter].
  assert (H : pattern_values eval_position [colorNode; pct; spaceNode]
                [transformColor; transformPercentage rt; transformColorSpace]
              = [VColor other; VNum (Fin p); VStr (value spaceNode)]).
  { unfold pattern_values. cbn [imap_from nth_error].
    rewrite eval_blend_color, eval_blend_percentage.
    unfold eval_position, transformColorSpace. rewrite Hspace. reflexivity. }
  rewrite H. cbn [forallb defined andb hd nth_val nth with_default to_num].
  eapply pure_bind; [apply pure_ret |]. apply pure_ret.
Qed.

End BlendAdjuster.

Lemma blend_in_another_colorspace (rt : Runtime) (base color : Color) (p : num)
    (space : string) (isBlendingAlpha : bool) :
  String.eqb space "hsl" = false -> String.eqb space "hwb" = false ->
  blend rt base color p space isBlendingAlpha = blend rt base color p "rgb" isBlendingAlpha.
Proof. intros H1 H2. unfold blend. rewrite H1, H2. reflexivity. Qed.

(** [blend(color P%)] and [blenda(color P%)] blend in rgb; with a third
    argument they pass the colorspace as it is written, so that a colorspace
    accepted by the case-insensitive [colorSpaceMatch] but not written exactly
    hsl or hwb (HSL, say) is blended in rgb. *)
Theorem blend_adjuster_blends_in_rgb_by_default :
  forall (rt : Runtime) (transformColor : Param) (node colorNode pct : Node) (p : Q)
         (c other : Color) (isAlphaBlend : bool) (opts : Opts),
    pure_at (transformColor colorNode ignore_opts) (VColor other) ->
    isPercentage rt pct = true ->
    rt.(Number) (unit_number rt pct) = Fin p ->
    let blended space :=
      VColor (if isAlphaBlend
              then Color_blenda rt c other (Fin p) space
              else Color_blend rt c other (Fin p) space) in
    (matched_children node = [colorNode; pct] ->
     pure_at (transformBlendAdjuster rt transformColor (VColor c) node isAlphaBlend opts)
       (blended "rgb"))
    /\ (forall spaceNode,
          matched_children node = [colorNode; pct; spaceNode] ->
          isColorSpace spaceNode = true ->
          pure_at (transformBlendAdjuster rt transformColor (VColor c) node isAlphaBlend opts)
            (blended (value spaceNode))
          /\ (String.eqb (value spaceNode) "hsl" = false ->
              String.eqb (value spaceNode) "hwb" = false ->
              blended (value spaceNode) = blended "rgb")).
Proof.
  intros rt tc node colorNode pct p c other flag opts Hcolor Hpct Hnumber blended.
  split.
  - intros Hchildren.
    apply (blend_without_colorspace rt tc node colorNode pct p other); assumption.
  - intros spaceNode Hchildren Hspace. split.
    + apply (blend_with_colorspace rt tc node colorNode pct p other); assumption.
    + intros H1 H2. unfold blended, Color_blenda, Color_blend.
      rewrite !(blend_in_another_colorspace rt c other (Fin p) (value spaceNode))
        by assumption.
      reflexivity.
Qed.

(** A run on [blend(white 50% HSL)]. *)
Lemma blend_adjuster_witness :
  pure_at (transformColor js 0 1 (w "white") ignore_opts) (VColor named_white)
  /\ isPercentage js (w "50%") = true
  /\ js.(Number) (unit_number js (w "50%")) = Fin 50
  /\ matched_children blend_in_HSL = [w "white"; w "50%"; w "HSL"]
  /\ isColorSpace (w "HSL") = true
  /\ pure_at (transformBlendAdjuster js (transformColor js 0 1) (VColor black) blend_in_HSL
                false (default_opts js ∅))
       (VColor (Color_blend js black named_white (Fin 50) "HSL"))
  /\ VColor (Color_blend js black named_white (Fin 50) "HSL")
     = VColor (Color_blend js black named_white (Fin 50) "rgb").
Proof.
  assert (H1 : pure_at (transformColor js 0 1 (w "white") ignore_opts) (VColor named_white))
    by (intros s; reflexivity).
  assert (H2 : isPercentage js (w "50%") = true) by (vm_compute; reflexivity).
  assert (H3 : js.(Number) (unit_number js (w "50%")) = Fin 50) by (vm_compute; reflexivity).
  assert (H4 : matched_children blend_in_HSL = [w "white"; w "50%"; w "HSL"]) by reflexivity.
  assert (H5 : isColorSpace (w "HSL") = true) by reflexivity.
  repeat (split; [assumption |]).
  destruct (blend_adjuster_blends_in_rgb_by_default js (transformColor js 0 1) blend_in_HSL
              (w "white") (w "50%") 50 black named_white false (default_opts js ∅) H1 H2 H3)
    as [_ Hspace].
  destruct (Hspace (w "HSL") H4 H5) as [Hrun Hrgb].
  split; [exact Hrun | apply Hrgb; reflexivity].
Defined.

(** ** Separators *)

Lemma mapM_ext {A B : Type} (f g : A -> M B) (l : list A) :
  (forall x s, In x l -> f x s = g x s) -> forall s, mapM f l s = mapM g l s.
Proof.
  induction l as [| x l IH]; intros H s; [reflexivity |].
  cbn [mapM]. unfold bind. rewrite (H x s) by (left; reflexivity).
  destruct (g x s) as [[y | e |] s1]; try reflexivity.
  rewrite IH by (intros; apply H; right; assumption). reflexivity.
Qed.

Section Separators.

Variable param : list Param.

Let position (index : nat) (childNode : Node) : M Val :=
  match nth_error param index with
  | Some f => f childNode ignore_opts
  | None => ret undefined
  end.

Lemma imapM_from_validators (children : list Node) :
  forall (children' : list Node) (i : nat) (s : list Warning),
    List.length children = List.length children' ->
    (forall index child child',
        nth_error children index = Some child ->
        nth_error children' index = Some child' ->
        child = child' \/ exists f, nth_error param (i + index) = Some (validator f)) ->
    (let* results := imapM_from i position children in
     ret (List.filter not_boolean results)) s
    = (let* results := imapM_from i position children' in
       ret (List.filter not_boolean results)) s.
Proof.
  induction children as [| x children IH]; intros [| x' children'] i s Hlen Hsame;
    try discriminate Hlen; [reflexivity |].
  cbn [imapM_from].
  assert (Hrest : forall s1,
            (let* results := imapM_from (S i) position children in
             ret (List.filter not_boolean results)) s1
            = (let* results := imapM_from (S i) position children' in
               ret (List.filter not_boolean results)) s1).
  { intros s1. apply IH; [simpl in Hlen; lia |].
    intros index child child' Hc Hc'.
    replace (S i + index)%nat with (i + S index)%nat by lia.
    apply (Hsame (S index)); assumption. }
  destruct (Hsame 0%nat x x' eq_refl eq_refl) as [<- | [f Hf]].
  - unfold bind in *. destruct (position i x s) as [[y | e |] s1]; try reflexivity.
    specialize (Hrest s1).
    destruct (imapM_from (S i) position children s1) as [[ys | e |] s2],
             (imapM_from (S i) position children' s1) as [[ys' | e' |] s2'];
      unfold ret in *; try discriminate Hrest; try exact Hrest.
    injection Hrest as Hys Hs. cbn [List.filter]. rewrite Hys, Hs. reflexivity.
  - rewrite Nat.add_0_r in Hf. unfold position at 1 3. rewrite Hf.
    unfold validator, bind, ret in *. specialize (Hrest s).
    destruct (imapM_from (S i) position children s) as [[ys | e |] s2],
             (imapM_from (S i) position children' s) as [[ys' | e' |] s2'];
      try discriminate Hrest; try exact Hrest.
Qed.

Lemma paramResults_validators (children children' : list Node) (s : list Warning) :
  differ_at_validators param children children' ->
  paramResults children param s = paramResults children' param s.
Proof.
  intros [Hlen Hsame]. unfold paramResults, imapM.
  apply (imapM_from_validators children children' 0 s Hlen). exact Hsame.
Qed.

End Separators.

Lemma transformArgsByParams_validators :
  forall (node node' : Node) (params : list (list Param)) (s : list Warning),
    (forall param, In param params ->
       differ_at_validators param (matched_children node) (matched_children node')) ->
    transformArgsByParams node params s = transformArgsByParams node' params s.
Proof.
  intros node node' params s H. unfold transformArgsByParams.
  fold (matched_children node). fold (matched_children node').
  unfold bind.
  rewrite (mapM_ext (paramResults (matched_children node))
             (paramResults (matched_children node')) params); [reflexivity |].
  intros param s1 Hin. apply paramResults_validators. apply H. exact Hin.
Qed.

Lemma matched_children_kept (name : string) (children : list Node) :
  Forall (fun n => not_space_or_comment n = true) children ->
  matched_children (fn name children) = children.
Proof.
  intros H. unfold matched_children. cbn [nodes_or_empty nodes fn].
  induction H as [| x l Hx H IH]; [reflexivity |].
  cbn [List.filter]. rewrite Hx, IH. reflexivity.
Qed.

Lemma differ_at_fourth (param : list Param) (f : Node -> bool)
    (a b c sep sep' d : Node) :
  nth_error param 3 = Some (validator f) ->
  differ_at_validators param [a; b; c; sep; d] [a; b; c; sep'; d].
Proof.
  intros Hf. split; [reflexivity |].
  intros index child child' H H'.
  destruct index as [| [| [| [| [| index]]]]]; cbn [nth_error] in H, H';
    try (left; congruence).
  right. exists f. exact Hf.
Qed.

Lemma fourth_child_is_never_inspected
    (rt : Runtime) (name : string) (a b c sep sep' d : Node) (opts : Opts)
    (s : list Warning) :
  Forall (fun n => not_space_or_comment n = true) [a; b; c; sep; sep'; d] ->
  transformRGBFunction rt (fn name [a; b; c; sep; d]) opts s
  = transformRGBFunction rt (fn name [a; b; c; sep'; d]) opts s
  /\ transformHSLFunction rt (fn name [a; b; c; sep; d]) opts s
     = transformHSLFunction rt (fn name [a; b; c; sep'; d]) opts s
  /\ transformHWBFunction rt (fn name [a; b; c; sep; d]) opts s
     = transformHWBFunction rt (fn name [a; b; c; sep'; d]) opts s.
Proof.
  intros Hkept.
  assert (H1 : matched_children (fn name [a; b; c; sep; d]) = [a; b; c; sep; d]).
  { apply matched_children_kept.
    inversion Hkept as [| ? ? Ha H]; subst. inversion H as [| ? ? Hb H']; subst.
    inversion H' as [| ? ? Hc H'']; subst. inversion H'' as [| ? ? Hs H3]; subst.
    inversion H3 as [| ? ? Hs' H4]; subst. inversion H4 as [| ? ? Hd H5]; subst.
    repeat constructor; assumption. }
  assert (H2 : matched_children (fn name [a; b; c; sep'; d]) = [a; b; c; sep'; d]).
  { apply matched_children_kept.
    inversion Hkept as [| ? ? Ha H]; subst. inversion H as [| ? ? Hb H']; subst.
    inversion H' as [| ? ? Hc H'']; subst. inversion H'' as [| ? ? Hs H3]; subst.
    inversion H3 as [| ? ? Hs' H4]; subst. inversion H4 as [| ? ? Hd H5]; subst.
    repeat constructor; assumption. }
  assert (Hargs : forall params,
            Forall (fun param => exists f, nth_error param 3 = Some (validator f)) params ->
            forall s,
              transformArgsByParams (fn name [a; b; c; sep; d]) params s
              = transformArgsByParams (fn name [a; b; c; sep'; d]) params s).
  { intros params Hparams s0. apply transformArgsByParams_validators.
    intros param Hin. rewrite H1, H2.
    rewrite List.Forall_forall in Hparams. destruct (Hparams param Hin) as [f Hf].
    apply (differ_at_fourth param f). exact Hf. }
  unfold transformRGBFunction, transformHSLFunction, transformHWBFunction, bind.
  repeat split; rewrite Hargs by (repeat constructor; eexists; reflexivity); reflexivity.
Qed.

(** The matcher drops the booleans that the validators [isComma] and
    [isSlash] return, so a validator position never fails a pattern: two calls
    whose children differ only at validator positions get the same result.
    In particular the fourth child of rgb(), hsl() and hwb(), where every
    pattern has a validator, is never inspected. *)
Theorem separators_are_never_checked :
  forall rt : Runtime,
    (forall (node node' : Node) (params : list (list Param)) (s : list Warning),
        (forall param, In param params ->
           differ_at_validators param (matched_children node) (matched_children node')) ->
        transformArgsByParams node params s = transformArgsByParams node' params s)
    /\ (forall (name : string) (a b c sep sep' d : Node) (opts : Opts) (s : list Warning),
          Forall (fun n => not_space_or_comment n = true) [a; b; c; sep; sep'; d] ->
          transformRGBFunction rt (fn name [a; b; c; sep; d]) opts s
          = transformRGBFunction rt (fn name [a; b; c; sep'; d]) opts s
          /\ transformHSLFunction rt (fn name [a; b; c; sep; d]) opts s
             = transformHSLFunction rt (fn name [a; b; c; sep'; d]) opts s
          /\ transformHWBFunction rt (fn name [a; b; c; sep; d]) opts s
             = transformHWBFunction rt (fn name [a; b; c; sep'; d]) opts s).
Proof.
  intros rt. split.
  - apply transformArgsByParams_validators.
  - apply fourth_child_is_never_inspected.
Qed.

(** A run on [rgb(10 20 30 junk 50%)], read as [rgb(10 20 30 / 50%)]. *)
Lemma separators_witness :
  Forall (fun n => not_space_or_comment n = true)
    [w "10"; w "20"; w "30"; MkNode t_div "/" None; w "junk"; w "50%"]
  /\ transformRGBFunction js (fn "rgb" [w "10"; w "20"; w "30"; MkNode t_div "/" None; w "50%"])
       (default_opts js ∅) []
     = transformRGBFunction js (fn "rgb" [w "10"; w "20"; w "30"; w "junk"; w "50%"])
         (default_opts js ∅) []
  /\ transformAST js 0 3
       [fn "color-mod" [fn "rgb" [w "10"; sp; w "20"; sp; w "30"; sp; w "junk"; sp; w "50%"]]]
       (default_opts js ∅) []
     = (Ret [w "rgba(10, 20, 30, 0.5)"], []).
Proof.
  assert (H1 : Forall (fun n => not_space_or_comment n = true)
            [w "10"; w "20"; w "30"; MkNode t_div "/" None; w "junk"; w "50%"])
    by (repeat constructor).
  split; [exact H1 |]. split.
  - exact (proj1 (proj2 (separators_are_never_checked js) "rgb" _ _ _ _ _ _
                   (default_opts js ∅) [] H1)).
  - vm_compute. reflexivity.
Defined.

(** ** Color functions with missing components *)

Lemma imap_from_length {A B : Type} (g : nat -> A -> B) (l : list A) (i : nat) :
  List.length (imap_from i g l) = List.length l.
Proof.
  revert i. induction l as [| x l IH]; intros i; simpl; [reflexivity |].
  rewrite IH. reflexivity.
Qed.

Lemma pattern_values_length (children : list Node) (param : list Param) :
  (List.length (pattern_values eval_position children param) <= List.length children)%nat.
Proof.
  unfold pattern_values.
  etransitivity; [apply List.filter_length_le |].
  rewrite imap_from_length. reflexivity.
Qed.

Lemma selected_length (children : list Node) (params : list (list Param)) :
  (List.length
     (hd [] (List.filter (forallb defined)
               (map (pattern_values eval_position children) params)))
   <= List.length children)%nat.
Proof.
  induction params as [| param params IH]; simpl; [lia |].
  destruct (forallb defined (pattern_values eval_position children param)); simpl.
  - apply pattern_values_length.
  - exact IH.
Qed.

Lemma nth_val_beyond (i : nat) (l : list Val) :
  (List.length l <= i)%nat -> nth_val i l = undefined.
Proof. intros H. unfold nth_val. apply nth_overflow. exact H. Qed.

(** With at most two arguments, spaces and comments apart, hsl() and hwb()
    are unresolved whatever the arguments are: the third component is
    [undefined]. *)
Theorem hsl_and_hwb_need_three_components :
  forall (rt : Runtime) (node : Node) (opts : Opts),
    (List.length (matched_children node) <= 2)%nat ->
    (forall s,
        transformHSLFunction rt node opts s
        = manageUnresolved node opts (value node) "Expected a valid hsl() function" s)
    /\ (forall s,
          transformHWBFunction rt node opts s
          = manageUnresolved node opts (value node) "Expected a valid hwb() function" s).
Proof.
  intros rt node opts Hlen. split; intros s.
  - unfold transformHSLFunction. unfold bind at 1.
    match goal with
    | |- context [transformArgsByParams node ?params s] =>
        rewrite (leaf_patterns_return rt node params ltac:(repeat constructor) s)
    end.
    cbv beta iota.
    rewrite (nth_val_beyond 2); [reflexivity |].
    etransitivity; [apply selected_length | exact Hlen].
  - unfold transformHWBFunction. unfold bind at 1.
    match goal with
    | |- context [transformArgsByParams node ?params s] =>
        rewrite (leaf_patterns_return rt node params ltac:(repeat constructor) s)
    end.
    cbv beta iota.
    rewrite (nth_val_beyond 2); [reflexivity |].
    etransitivity; [apply selected_length | exact Hlen].
Qed.

(** A run on [hsl(120 50%)]. *)
Lemma hsl_and_hwb_witness :
  (List.length (matched_children hsl_120_50) <= 2)%nat
  /\ (forall s,
        transformHSLFunction js hsl_120_50 (default_opts js ∅) s
        = manageUnresolved hsl_120_50 (default_opts js ∅) "hsl"
            "Expected a valid hsl() function" s).
Proof.
  assert (H : (List.length (matched_children hsl_120_50) <= 2)%nat) by (vm_compute; lia).
  split; [exact H |].
  exact (proj1 (hsl_and_hwb_need_three_components js hsl_120_50 (default_opts js ∅) H)).
Defined.

Section MissingChannels.

Variable rt : Runtime.
Variables (node r g : Node) (x y : Q).
Hypothesis Hr : isPercentage rt r = true.
Hypothesis Hg : isPercentage rt g = true.
Hypothesis Hx : rt.(Number) (unit_number rt r) = Fin x.
Hypothesis Hy : rt.(Number) (unit_number rt g) = Fin y.

Lemma eval_percentage_at (c : Node) (q : Q) :
  isPercentage rt c = true -> rt.(Number) (unit_number rt c) = Fin q ->
  eval_position (transformPercentage rt) c = VNum (Fin q).
Proof.
  intros H1 H2. unfold eval_position, transformPercentage. rewrite H1, H2. reflexivity.
Qed.

Lemma rgb_with_one_channel (opts : Opts) :
  matched_children node = [r] ->
  pure_at (transformRGBFunction rt node opts)
    (VColor (new_Color rt (rgb_object (Fin x) Undef Undef (Fin 100) "rgb"))).
Proof.
  intros Hchildren. unfold transformRGBFunction.
  eapply pure_bind; [apply (leaf_patterns_return rt); repeat constructor |].
  rewrite Hchildren.
  assert (H1 : pattern_values eval_position [r]
                 [transformPercentage rt; transformPercentage rt; transformPercentage rt;
                  validator isSlash; transformAlpha rt]
               = [VNum (Fin x)]).
  { unfold pattern_values. cbn [imap_from nth_error].
    rewrite (eval_percentage_at r x Hr Hx). reflexivity. }
  cbn [map List.filter]. rewrite H1.
  cbn [forallb defined andb hd nth_val nth with_default to_num].
  apply pure_ret.
Qed.

Lemma rgb_with_two_channels (opts : Opts) :
  matched_children node = [r; g] ->
  pure_at (transformRGBFunction rt node opts)
    (VColor (new_Color rt (rgb_object (Fin x) (Fin y) Undef (Fin 100) "rgb"))).
Proof.
  intros Hchildren. unfold transformRGBFunction.
  eapply pure_bind; [apply (leaf_patterns_return rt); repeat constructor |].
  rewrite Hchildren.
  assert (H1 : pattern_values eval_position [r; g]
                 [transformPercentage rt; transformPercentage rt; transformPercentage rt;
                  validator isSlash; transformAlpha rt]
               = [VNum (Fin x); VNum (Fin y)]).
  { unfold pattern_values. cbn [imap_from nth_error].
    rewrite (eval_percentage_at r x Hr Hx), (eval_percentage_at g y Hg Hy). reflexivity. }
  cbn [map List.filter]. rewrite H1.
  cbn [forallb defined andb hd nth_val nth with_default to_num].
  apply pure_ret.
Qed.

End MissingChannels.

(** rgb() with only one or two percentages is accepted: the test is on the
    red channel alone, and the channels left out are [undefined] in the
    color. *)
Theorem rgb_accepts_missing_channels :
  forall (rt : Runtime) (node r g : Node) (x y : Q) (opts : Opts),
    isPercentage rt r = true -> isPercentage rt g = true ->
    rt.(Number) (unit_number rt r) = Fin x ->
    rt.(Number) (unit_number rt g) = Fin y ->
    (matched_children node = [r] ->
     pure_at (transformRGBFunction rt node opts)
       (VColor (new_Color rt (rgb_object (Fin x) Undef Undef (Fin 100) "rgb"))))
    /\ (matched_children node = [r; g] ->
        pure_at (transformRGBFunction rt node opts)
          (VColor (new_Color rt (rgb_object (Fin x) (Fin y) Undef (Fin 100) "rgb")))).
Proof.
  intros rt node r g x y opts Hr Hg Hx Hy. split.
  - apply (rgb_with_one_channel rt node r x Hr Hx).
  - apply (rgb_with_two_channels rt node r g x y Hr Hg Hx Hy).
Qed.

(** A run on [rgb(50%)], and what [color-mod(rgb(50%))] is rewritten to. *)
Lemma rgb_missing_channels_witness :
  isPercentage js (w "50%") = true
  /\ Number js (unit_number js (w "50%")) = Fin 50
  /\ matched_children rgb_50 = [w "50%"]
  /\ pure_at (transformRGBFunction js rgb_50 (default_opts js ∅))
       (VColor (new_Color js (rgb_object (Fin 50) Undef Undef (Fin 100) "rgb")))
  /\ transformAST js 5 5 [fn "color-mod" [rgb_50]] (default_opts js ∅) []
     = (Ret [w "rgb(128, NaN, NaN)"], []).
Proof.
  assert (H1 : isPercentage js (w "50%") = true) by reflexivity.
  assert (H2 : Number js (unit_number js (w "50%")) = Fin 50) by reflexivity.
  assert (H3 : matched_children rgb_50 = [w "50%"]) by reflexivity.
  split; [exact H1 |]. split; [exact H2 |]. split; [exact H3 |]. split.
  - exact (proj1 (rgb_accepts_missing_channels js rgb_50 (w "50%") (w "50%") 50 50
                    (default_opts js ∅) H1 H1 H2 H2) H3).
  - vm_compute. reflexivity.
Defined.

(** ** The rgb adjuster *)

Lemma operate_minusPlus (operator : string) (existing adjustment : num) :
  minusPlusMatch operator = true ->
  (if is_str (VStr operator) "+" then JS.add existing adjustment
   else JS.sub existing adjustment)
  = operate operator existing adjustment.
Proof.
  unfold minusPlusMatch, one_of, operate, is_str. cbn [existsb].
  destruct (String.eqb operator "+"); [reflexivity |].
  destruct (String.eqb operator "-"); [reflexivity | discriminate].
Qed.

(** The rgb adjuster with [+] or [-] and three percentages applies the
    operator to the red, green and blue channels of the base color, each
    with its own percentage. *)
Theorem rgb_adjuster_applies_the_operator_to_each_channel :
  forall (rt : Runtime) (node op r g b : Node) (x y z : Q) (c : Color) (opts : Opts),
    matched_children node = [op; r; g; b] ->
    type op = t_word ->
    minusPlusMatch (value op) = true ->
    eval_position (transformPercentage rt) r = VNum (Fin x) ->
    eval_position (transformPercentage rt) g = VNum (Fin y) ->
    eval_position (transformPercentage rt) b = VNum (Fin z) ->
    pure_at (transformRGBAdjuster rt (VColor c) node opts)
      (VColor (Color_rgb rt c
         (operate (value op) (Color_get_red rt c) (Fin x))
         (operate (value op) (Color_get_green rt c) (Fin y))
         (operate (value op) (Color_get_blue rt c) (Fin z)))).
Proof.
  intros rt node op r g b x y z c opts Hchildren Htype Hop Hr Hg Hb.
  unfold transformRGBAdjuster.
  eapply pure_bind; [apply (leaf_patterns_return rt); repeat constructor |].
  rewrite Hchildren.
  assert (H1 : pattern_values eval_position [op; r; g; b]
                 [transformMinusPlusOperator; transformPercentage rt;
                  transformPercentage rt; transformPercentage rt]
               = [VStr (value op); VNum (Fin x); VNum (Fin y); VNum (Fin z)]).
  { unfold pattern_values. cbn [imap_from nth_error]. rewrite Hr, Hg, Hb.
    unfold eval_position, transformMinusPlusOperator, isMinusPlusOperator, is_type.
    rewrite Htype, Hop. reflexivity. }
  cbn [map List.filter]. rewrite H1.
  cbn [forallb defined andb hd nth_val nth test_val to_num]. rewrite Hop.
  cbn [andb base_color].
  eapply pure_bind; [apply pure_ret |].
  rewrite !(operate_minusPlus _ _ _ Hop). apply pure_ret.
Qed.

(** A run on [rgb(+ 10% 20% 30%)]. *)
Lemma rgb_adjuster_witness :
  matched_children rgb_plus_10_20_30 = [w "+"; w "10%"; w "20%"; w "30%"]
  /\ pure_at (transformRGBAdjuster js (VColor black) rgb_plus_10_20_30 (default_opts js ∅))
       (VColor (Color_rgb js black
          (operate "+" (Color_get_red js black) (Fin 10))
          (operate "+" (Color_get_green js black) (Fin 20))
          (operate "+" (Color_get_blue js black) (Fin 30)))).
Proof.
  assert (H : matched_children rgb_plus_10_20_30 = [w "+"; w "10%"; w "20%"; w "30%"])
    by reflexivity.
  split; [exact H |].
  exact (rgb_adjuster_applies_the_operator_to_each_channel js rgb_plus_10_20_30
           (w "+") (w "10%") (w "20%") (w "30%") 10 20 30 black (default_opts js ∅)
           H eq_refl eq_refl eq_refl eq_refl eq_refl).
Defined.

(** ** Arguments left out *)

Lemma imapM_from_prefix (param : list Param) (children rest : list Node) :
  forall (i : nat) (s s' : list Warning) (r : list Val),
    imapM_from i
      (fun index childNode =>
         match nth_error param index with
         | Some f => f childNode ignore_opts
         | None => ret undefined
         end) (children ++ rest) s = (Ret r, s') ->
    exists r1 r2 s1,
      imapM_from i
        (fun index childNode =>
           match nth_error param index with
           | Some f => f childNode ignore_opts
           | None => ret undefined
           end) children s = (Ret r1, s1)
      /\ r = r1 ++ r2.
Proof.
  induction children as [| child children IH]; intros i s s' r H.
  - exists [], r, s. split; reflexivity.
  - cbn [app imapM_from] in H |- *. unfold bind at 1 in H. unfold bind at 1.
    destruct (match nth_error param i with
              | Some f => f child ignore_opts
              | None => ret undefined
              end s) as [[v | e |] s0]; try discriminate H.
    unfold bind at 1 in H. unfold bind at 1.
    destruct (imapM_from (S i) _ (children ++ rest) s0) as [[vs | e |] s1] eqn:Hrest;
      try discriminate H.
    destruct (IH _ _ _ _ Hrest) as (r1 & r2 & s2 & Hrun & Hsplit).
    rewrite Hrun. unfold ret in H |- *. injection H as <- <-.
    exists (v :: r1), r2, s2. split; [reflexivity |]. rewrite Hsplit. reflexivity.
Qed.

(** A pattern is run over the children, not over its positions: when it
    matches a list of children it matches every prefix of the list, with a
    prefix of the values. *)
Theorem a_pattern_accepts_every_prefix :
  forall (param : list Param) (children : list Node) (n : nat)
         (s s' : list Warning) (r : list Val),
    paramResults children param s = (Ret r, s') ->
    forallb defined r = true ->
    exists r' s'',
      paramResults (take n children) param s = (Ret r', s'')
      /\ forallb defined r' = true
      /\ exists r'', r = r' ++ r''.
Proof.
  intros param children n s s' r Hrun Hdefined.
  unfold paramResults, imapM in Hrun |- *. unfold bind at 1 in Hrun. unfold bind at 1.
  rewrite <- (take_drop n children) in Hrun at 1.
  destruct (imapM_from 0 _ (take n children ++ drop n children) s)
    as [[vs | e |] s0] eqn:Hall; try discriminate Hrun.
  destruct (imapM_from_prefix _ _ _ _ _ _ _ Hall) as (r1 & r2 & s1 & Hprefix & Hsplit).
  rewrite Hprefix. unfold ret in Hrun |- *. injection Hrun as <- <-.
  rewrite Hsplit, List.filter_app in Hdefined |- *.
  rewrite forallb_app in Hdefined. apply andb_prop in Hdefined as [H1 _].
  exists (List.filter not_boolean r1), s1.
  split; [reflexivity |]. split; [exact H1 |].
  exists (List.filter not_boolean r2). reflexivity.
Qed.

(** A run on three percentages and the first of them. *)
Lemma prefix_witness :
  paramResults [w "10%"; w "20%"; w "30%"]
    [transformPercentage js; transformPercentage js; transformPercentage js] []
  = (Ret [VNum (Fin 10); VNum (Fin 20); VNum (Fin 30)], [])
  /\ exists r' s'',
       paramResults (take 1 [w "10%"; w "20%"; w "30%"])
         [transformPercentage js; transformPercentage js; transformPercentage js] []
       = (Ret r', s'')
       /\ forallb defined r' = true
       /\ exists r'', [VNum (Fin 10); VNum (Fin 20); VNum (Fin 30)] = r' ++ r''.
Proof.
  assert (H : paramResults [w "10%"; w "20%"; w "30%"]
                [transformPercentage js; transformPercentage js; transformPercentage js] []
              = (Ret [VNum (Fin 10); VNum (Fin 20); VNum (Fin 30)], []))
    by reflexivity.
  split; [exact H |].
  exact (a_pattern_accepts_every_prefix _ _ 1 _ _ _ H eq_refl).
Defined.

(** ** The custom properties of a style sheet *)

Section CustomPropertiesFacts.

Variable parser : string -> list Node.

Lemma collectDecls_fold (preserve : bool) (decls : list CssNode) :
  forall table kept,
    fold_left
      (fun '(table, kept) decl =>
         if isCustomDecl decl then
           (<[css_prop decl := parser (css_value decl)]> table,
            if preserve then kept ++ [decl] else kept)
         else (table, kept ++ [decl]))
      decls (table, kept)
    = (fold_left (write_decl parser) decls table,
       kept ++ (if preserve then decls
                else List.filter (fun decl => negb (isCustomDecl decl)) decls)).
Proof.
  induction decls as [| decl decls IH]; intros table kept; simpl.
  - destruct preserve; rewrite app_nil_r; reflexivity.
  - unfold write_decl at 2. destruct (isCustomDecl decl); simpl; rewrite IH.
    + destruct preserve; [rewrite <- app_assoc |]; reflexivity.
    + destruct preserve; rewrite <- app_assoc; reflexivity.
Qed.

Lemma collectDecls_spec (preserve : bool) (table : gmap string (list Node))
    (decls : list CssNode) :
  collectDecls parser preserve table decls
  = (fold_left (write_decl parser) decls table,
     if preserve then decls
     else List.filter (fun decl => negb (isCustomDecl decl)) decls).
Proof. unfold collectDecls. rewrite collectDecls_fold. reflexivity. Qed.

Lemma write_decls_lookup (name : string) (decls : list CssNode) :
  forall table,
    fold_left (write_decl parser) decls table !! name
    = match last_value name (List.filter isCustomDecl decls) with
      | Some v => Some (parser v)
      | None => table !! name
      end.
Proof.
  induction decls as [| decl decls IH] using rev_ind; intros table.
  - reflexivity.
  - rewrite fold_left_app, List.filter_app. simpl.
    unfold write_decl at 1. unfold last_value.
    destruct (isCustomDecl decl) eqn:Hc.
    + rewrite rev_app_distr. simpl.
      destruct (String.eqb (css_prop decl) name) eqn:Hn.
      * apply String.eqb_eq in Hn. subst name. simpl. apply lookup_insert_eq.
      * rewrite lookup_insert_ne.
        { apply IH. }
        { intros E. rewrite E, String.eqb_refl in Hn. discriminate. }
    + rewrite app_nil_r. apply IH.
Qed.

Lemma write_decls_filter (decls : list CssNode) (table : gmap string (list Node)) :
  fold_left (write_decl parser) (List.filter isCustomDecl decls) table
  = fold_left (write_decl parser) decls table.
Proof.
  revert table. induction decls as [| decl decls IH]; intros table; simpl; [reflexivity |].
  destruct (isCustomDecl decl) eqn:Hc; simpl.
  - apply IH.
  - replace (write_decl parser table decl) with table
      by (unfold write_decl; rewrite Hc; reflexivity).
    apply IH.
Qed.

Lemma html_is_not_root (rule : CssNode) : isHtmlRule rule = true -> isRootRule rule = false.
Proof.
  unfold isHtmlRule, isRootRule, htmlSelectorRegExp, rootSelectorRegExp, one_of_i, one_of.
  cbn [existsb]. rewrite !orb_false_r.
  intros H. apply andb_prop in H as [H _]. apply andb_prop in H as [_ H].
  apply String.eqb_eq in H. rewrite H. rewrite andb_false_r. reflexivity.
Qed.

Lemma getCustomProperties_fold (preserve : bool) (root : list CssNode) :
  forall fromHtml fromRoot kept,
    fold_left
      (fun '(fromHtml, fromRoot, kept) rule =>
         if isHtmlRule rule then
           let '(fromHtml, decls) :=
             collectDecls parser preserve fromHtml (css_children rule) in
           let rule := if preserve then rule else set_css_nodes rule decls in
           (fromHtml, fromRoot,
            if negb preserve && isEmptyParent rule then kept else kept ++ [rule])
         else if isRootRule rule then
           let '(fromRoot, decls) :=
             collectDecls parser preserve fromRoot (css_children rule) in
           let rule := if preserve then rule else set_css_nodes rule decls in
           (fromHtml, fromRoot,
            if negb preserve && isEmptyParent rule then kept else kept ++ [rule])
         else (fromHtml, fromRoot, kept ++ [rule]))
      root (fromHtml, fromRoot, kept)
    = (fold_left (write_decl parser) (declared isHtmlRule root) fromHtml,
       fold_left (write_decl parser) (declared isRootRule root) fromRoot,
       kept ++ List.concat (map (left_in_sheet preserve) root)).
Proof.
  induction root as [| rule root IH]; intros fromHtml fromRoot kept.
  - simpl. rewrite app_nil_r. reflexivity.
  - cbn [fold_left map List.concat]. unfold left_in_sheet at 1.
    unfold declared. cbn [List.filter].
    destruct (isHtmlRule rule) eqn:Hh.
    + rewrite (html_is_not_root rule Hh), collectDecls_spec, IH.
      cbn [map List.concat orb].
      rewrite List.filter_app, fold_left_app, (write_decls_filter (css_children rule)).
      unfold declared.
      destruct preserve; cbn [negb andb]; [| destruct (isEmptyParent _)];
        rewrite <- ?app_assoc; reflexivity.
    + destruct (isRootRule rule) eqn:Hr.
      * rewrite collectDecls_spec, IH.
        cbn [map List.concat orb].
        rewrite List.filter_app, fold_left_app, (write_decls_filter (css_children rule)).
        unfold declared.
        destruct preserve; cbn [negb andb]; [| destruct (isEmptyParent _)];
          rewrite <- ?app_assoc; reflexivity.
      * cbn [orb]. rewrite IH. unfold declared. rewrite <- app_assoc. reflexivity.
Qed.

Lemma getCustomProperties_spec (preserve : bool) (root : list CssNode) :
  getCustomProperties parser root preserve
  = (fold_left (write_decl parser) (declared isRootRule root) ∅
       ∪ fold_left (write_decl parser) (declared isHtmlRule root) ∅,
     List.concat (map (left_in_sheet preserve) root)).
Proof. unfold getCustomProperties. rewrite getCustomProperties_fold. reflexivity. Qed.

Lemma declared_is_custom (accepts : CssNode -> bool) (root : list CssNode) :
  List.filter isCustomDecl (declared accepts root) = declared accepts root.
Proof.
  unfold declared. induction (List.concat _) as [| d l IH]; simpl; [reflexivity |].
  destruct (isCustomDecl d) eqn:Hd; simpl; [rewrite Hd, IH; reflexivity | exact IH].
Qed.

End CustomPropertiesFacts.

(** The table that [getCustomProperties] returns holds, for a name, the
    parsed value of its last declaration in the top-level :root rules, and
    otherwise of its last declaration in the top-level html rules; [preserve]
    has no influence on it. *)
Theorem root_properties_win_over_html_properties :
  forall (parser : string -> list Node) (root : list CssNode) (preserve : bool)
         (name : string),
    fst (getCustomProperties parser root preserve) !! name
    = match last_value name (declared isRootRule root) with
      | Some v => Some (parser v)
      | None => option_map parser (last_value name (declared isHtmlRule root))
      end.
Proof.
  intros parser root preserve name. rewrite getCustomProperties_spec. cbn [fst].
  rewrite lookup_union, !write_decls_lookup, !declared_is_custom, lookup_empty.
  destruct (last_value name (declared isRootRule root));
    destruct (last_value name (declared isHtmlRule root)); reflexivity.
Qed.

Lemma declared_app (accepts : CssNode -> bool) (l1 l2 : list CssNode) :
  declared accepts (l1 ++ l2) = declared accepts l1 ++ declared accepts l2.
Proof.
  unfold declared.
  rewrite List.filter_app, List.map_app, List.concat_app, List.filter_app. reflexivity.
Qed.

Lemma no_custom_decl_left (decls : list CssNode) :
  List.filter isCustomDecl (List.filter (fun decl => negb (isCustomDecl decl)) decls) = [].
Proof.
  induction decls as [| decl decls IH]; simpl; [reflexivity |].
  destruct (isCustomDecl decl) eqn:Hd; simpl; [exact IH |].
  rewrite Hd. exact IH.
Qed.

Lemma css_children_set (rule : CssNode) (children : list CssNode) :
  css_children (set_css_nodes rule children) = children.
Proof. destruct rule. reflexivity. Qed.

Lemma nothing_declared_after_removal (accepts : CssNode -> bool) (root : list CssNode) :
  (forall rule, accepts rule = true -> isHtmlRule rule || isRootRule rule = true) ->
  declared accepts (List.concat (map (left_in_sheet false) root)) = [].
Proof.
  intros Haccepts. induction root as [| rule root IH]; [reflexivity |].
  cbn [map List.concat]. rewrite declared_app, IH, app_nil_r.
  unfold left_in_sheet. cbn [negb andb].
  destruct (isHtmlRule rule || isRootRule rule) eqn:Hsel.
  - destruct (isEmptyParent _); [reflexivity |].
    unfold declared. cbn [List.filter].
    destruct (accepts _); [| reflexivity].
    cbn [map List.concat]. rewrite app_nil_r, css_children_set.
    apply no_custom_decl_left.
  - unfold declared. cbn [List.filter].
    destruct (accepts rule) eqn:Ha; [| reflexivity].
    rewrite (Haccepts rule Ha) in Hsel. discriminate Hsel.
Qed.

Lemma sheet_is_preserved (root : list CssNode) :
  List.concat (map (left_in_sheet true) root) = root.
Proof.
  induction root as [| rule root IH]; [reflexivity |].
  cbn [map List.concat]. rewrite IH. unfold left_in_sheet. cbn [negb andb].
  destruct (isHtmlRule rule || isRootRule rule); reflexivity.
Qed.

(** With [preserve] the sheet is left as it is.  Without it the same table
    is collected, and a second pass over what is left of the sheet collects
    nothing. *)
Theorem removal_takes_every_collected_declaration :
  forall (parser : string -> list Node) (root : list CssNode),
    snd (getCustomProperties parser root true) = root
    /\ fst (getCustomProperties parser root false)
       = fst (getCustomProperties parser root true)
    /\ forall (parser' : string -> list Node) (preserve : bool),
         fst (getCustomProperties parser'
                (snd (getCustomProperties parser root false)) preserve) = ∅.
Proof.
  intros parser root. rewrite !getCustomProperties_spec. cbn [fst snd].
  split; [apply sheet_is_preserved |]. split; [reflexivity |].
  intros parser' preserve. rewrite getCustomProperties_spec. cbn [fst].
  rewrite !nothing_declared_after_removal.
  - apply map_eq. intros name. rewrite lookup_union, !lookup_empty. reflexivity.
  - intros rule H. rewrite H. reflexivity.
  - intros rule H. rewrite H. apply orb_true_r.
Qed.
